(** * Grammar checker front end and analysis contract

    A shallow embedding of the result page, the highlighting component, the
    text and file inputs and the type declarations of the grammar checker,
    together with the statements of its specification that concern them.
    The analysis engine behind the front end is embedded from the
    specification (module [Engine]).

    JavaScript values are modelled as follows.
    - A string is the list of its code units ([jsstring]); the development
      works with the code units U+0000..U+00FF.
    - A [number] that holds an offset or a size is an integer ([Z]).
    - Objects and arrays live in a store and are handled through references,
      so that identity ([===] on objects), sharing and in-place mutation are
      visible: [loc] refers to a [GrammarError] object, [aref] to an array of
      such objects.
    - A handler is a function from the component state to the next state;
      reading through a reference that the store does not hold yields
      [None]. *)

From Stdlib Require Import ZArith QArith Qround Qminmax List Sorted Ascii String
  DecimalString Lia.
From stdpp Require Import base list option strings gmap.
From stdpp Require sorting.
Import ListNotations.
Close Scope Q_scope.

(** ** JavaScript strings *)

Module JS.

Definition jsstring := list ascii.

(** A string literal. *)
Definition lit (s : string) : jsstring := list_ascii_of_string s.

(** [ToIntegerOrInfinity] followed by the clamping that [String.prototype.slice]
    applies to a relative index. *)
Definition relIndex (len idx : Z) : Z :=
  if (idx <? 0)%Z then Z.max (len + idx) 0 else Z.min idx len.

(** [s.slice(start, end)]; [end_ = None] stands for an omitted argument. *)
Definition slice (s : jsstring) (start : Z) (end_ : option Z) : jsstring :=
  let len := Z.of_nat (length s) in
  let from := relIndex len start in
  let to := match end_ with
            | None => len
            | Some e => relIndex len e
            end in
  let span := Z.max (to - from) 0 in
  take (Z.to_nat span) (drop (Z.to_nat from) s).

(** [s.split(sep)] for a one-character separator: never empty, the pieces
    between the separators in order. *)
Fixpoint split (sep : ascii) (s : jsstring) : list jsstring :=
  match s with
  | [] => [[]]
  | c :: s' =>
      if Ascii.eqb c sep then [] :: split sep s'
      else match split sep s' with
           | p :: ps => (c :: p) :: ps
           | [] => [[c]]
           end
  end.

(** [arr.pop()] as a value: the last element, [undefined] on an empty array. *)
Definition pop {A} (arr : list A) : option A := last arr.

(** [String.prototype.toLowerCase] on the code units U+0000..U+00FF:
    A-Z and the Latin-1 capitals U+00C0..U+00DE (U+00D7 is the
    multiplication sign) move up by 32. *)
Definition lower_unit (c : ascii) : ascii :=
  let n := nat_of_ascii c in
  if ((65 <=? n) && (n <=? 90)) || ((192 <=? n) && (n <=? 222) && negb (n =? 215))
  then ascii_of_nat (n + 32) else c.

Definition toLowerCase (s : jsstring) : jsstring := map lower_unit s.

(** White space and line terminators among U+0000..U+00FF, as stripped by
    [String.prototype.trim]: TAB, LF, VT, FF, CR, SP and NBSP. *)
Definition isWhiteSpace (c : ascii) : bool :=
  let n := nat_of_ascii c in
  ((9 <=? n) && (n <=? 13)) || (n =? 32) || (n =? 160).

Fixpoint trimStart (s : jsstring) : jsstring :=
  match s with
  | c :: s' => if isWhiteSpace c then trimStart s' else s
  | [] => []
  end.

Definition trim (s : jsstring) : jsstring := rev (trimStart (rev (trimStart s))).

(** [arr.join(sep)]. *)
Fixpoint join (sep : jsstring) (arr : list jsstring) : jsstring :=
  match arr with
  | [] => []
  | [x] => x
  | x :: rest => x ++ sep ++ join sep rest
  end.

(** [Array.prototype.sort(cmp)] as a value. The language requires the sort
    to be stable, so for a comparator that orders by a key the outcome is
    the one of this insertion sort: an element goes in front of the first
    later element [y] with [cmp x y <= 0]. *)
Fixpoint insert_sorted {A} (cmp : A → A → Z) (x : A) (l : list A) : list A :=
  match l with
  | [] => [x]
  | y :: l' =>
      if (cmp x y <=? 0)%Z then x :: l else y :: insert_sorted cmp x l'
  end.

Definition sort {A} (cmp : A → A → Z) (l : list A) : list A :=
  foldr (insert_sorted cmp) [] l.

(** The comparator [(a, b) => key(a) - key(b)]. *)
Definition by_key {A} (key : A → Z) (a b : A) : Z := (key a - key b)%Z.

(** Truthiness of a string: only the empty string is falsy. *)
Definition truthy (s : jsstring) : bool :=
  match s with [] => false | _ => true end.

(** [Number.MAX_SAFE_INTEGER] and [Number.isSafeInteger] on integers. A
    Number is a double: every integer up to [2^53 - 1] in absolute value is
    one, and the sum of two of them is their sum as integers whenever that
    sum is such an integer too; beyond, sums are rounded. Offsets are
    modelled as integers and added as integers, so a property that reads the
    result of an addition is stated for safe integers, or for offsets tied to
    a text, whose length is a safe integer. *)
Definition MAX_SAFE_INTEGER : Z := 2 ^ 53 - 1.

Definition isSafeInteger (n : Z) : bool :=
  (- MAX_SAFE_INTEGER <=? n)%Z && (n <=? MAX_SAFE_INTEGER)%Z.

End JS.

(** ** app/types/analysis.ts *)

Module Analysis.
Import JS.

(** [ErrorType], also the type of [GrammarError.type]. *)
Inductive ErrorType :=
| Spelling | Grammar | Punctuation | Ngram | Semantic | Structure | Ai.

#[export] Instance ErrorType_eq_dec : EqDecision ErrorType.
Proof. solve_decision. Defined.

(** The string literal of each member of the union. *)
Definition ErrorType_tag (t : ErrorType) : jsstring :=
  match t with
  | Spelling => lit "spelling"
  | Grammar => lit "grammar"
  | Punctuation => lit "punctuation"
  | Ngram => lit "ngram"
  | Semantic => lit "semantic"
  | Structure => lit "structure"
  | Ai => lit "ai"
  end.

Definition all_ErrorType : list ErrorType :=
  [Spelling; Grammar; Punctuation; Ngram; Semantic; Structure; Ai].

Record Position := { start : Z; end_ : Z }.

Record GrammarError := {
  type : ErrorType;
  position : Position;
  original : jsstring;
  suggestion : jsstring;
  explanation : jsstring;
  sentenceIndex : Z;
}.

(** References into the store: [loc] to a [GrammarError] object, [aref] to
    an array. *)
Abbreviation loc := nat (only parsing).
Abbreviation aref := nat (only parsing).

Record SentenceAnalysis := {
  index : Z;
  sa_original : jsstring;
  sa_corrected : jsstring;
  sa_errors : aref;
  fluencyScore : Q;
}.

(** [AnalysisResult.ngramMode]. *)
Inductive ResultNgramMode := RBigram | RTrigram | RFourgram | RTransformerAI.

(** [CheckTextRequest.ngram] and [CheckFileRequest.ngram]. *)
Inductive RequestNgram := QBigram | QTrigram | QFourgram.

(** [model_type?]. *)
Inductive ModelType := MNgram | MTransformer.

Record AnalysisResult := {
  originalText : jsstring;
  correctedText : jsstring;
  errors : aref;
  confidenceScore : Q;
  sentences : list SentenceAnalysis;
  ngramMode : ResultNgramMode;
  processingTimeMs : Z;
}.

Record File := { name : jsstring; size : Z }.

Record CheckTextRequest := {
  text : jsstring;
  ngram : RequestNgram;
  model_type : option ModelType;
}.

Record CheckFileRequest := {
  file : File;
  cf_ngram : RequestNgram;
  cf_model_type : option ModelType;
}.

(** The store: [GrammarError] objects and arrays of references to them.
    Allocation appends, so a reference is an index. *)
Record Store := { objs : list GrammarError; arrs : list (list loc) }.

Definition alloc_obj (v : GrammarError) (h : Store) : loc * Store :=
  (length (objs h), {| objs := objs h ++ [v]; arrs := arrs h |}).

Definition alloc_arr (a : list loc) (h : Store) : aref * Store :=
  (length (arrs h), {| objs := objs h; arrs := arrs h ++ [a] |}).

(** [arr[...] = ...] over the whole array: in-place replacement of its
    contents. *)
Definition write_arr (r : aref) (a : list loc) (h : Store) : Store :=
  {| objs := objs h; arrs := <[r := a]> (arrs h) |}.

End Analysis.

(** ** app/result/page.tsx *)

Module ResultPage.
Import JS Analysis.

(** The component state. [result], [displayText] and [displayErrors] are the
    [useState] cells; [heap] is the store they point into. *)
Record State := {
  result : option AnalysisResult;
  displayText : jsstring;
  displayErrors : aref;
  heap : Store;
}.

(** The state of the first render: [useState(null)], [useState('')] and
    [useState([])], the last one a freshly allocated empty array. *)
Definition initial : State :=
  {| result := None;
     displayText := [];
     displayErrors := 0;
     heap := {| objs := []; arrs := [[]] |} |}.

(** What [sessionStorage] holds under ['grammarAnalysisResult'], as the tree
    that [JSON.parse] builds: every object and array of it is allocated
    afresh. *)
Record SentenceData := {
  sd_index : Z;
  sd_original : jsstring;
  sd_corrected : jsstring;
  sd_errors : list GrammarError;
  sd_fluencyScore : Q;
}.

Record ResultData := {
  rd_originalText : jsstring;
  rd_correctedText : jsstring;
  rd_errors : list GrammarError;
  rd_confidenceScore : Q;
  rd_sentences : list SentenceData;
  rd_ngramMode : ResultNgramMode;
  rd_processingTimeMs : Z;
}.

(** Allocate the objects of an array literal and then the array. *)
Definition alloc_errors (vs : list GrammarError) (h : Store) : aref * Store :=
  alloc_arr (seq (length (objs h)) (length vs))
            {| objs := objs h ++ vs; arrs := arrs h |}.

Fixpoint parse_sentences (ds : list SentenceData) (h : Store)
  : list SentenceAnalysis * Store :=
  match ds with
  | [] => ([], h)
  | d :: rest =>
      let '(r, h1) := alloc_errors (sd_errors d) h in
      let '(ss, h2) := parse_sentences rest h1 in
      ({| index := sd_index d; sa_original := sd_original d;
          sa_corrected := sd_corrected d; sa_errors := r;
          fluencyScore := sd_fluencyScore d |} :: ss, h2)
  end.

Definition JSON_parse (d : ResultData) (h : Store) : AnalysisResult * Store :=
  let '(r, h1) := alloc_errors (rd_errors d) h in
  let '(ss, h2) := parse_sentences (rd_sentences d) h1 in
  ({| originalText := rd_originalText d; correctedText := rd_correctedText d;
      errors := r; confidenceScore := rd_confidenceScore d; sentences := ss;
      ngramMode := rd_ngramMode d; processingTimeMs := rd_processingTimeMs d |},
   h2).

(** The mount effect when the stored item parses: [setResult(parsed)],
    [setDisplayText(parsed.originalText)], [setDisplayErrors(parsed.errors)].
    (Without a stored item the page navigates away and the state stays
    [initial].) *)
Definition mount (d : ResultData) (s : State) : State :=
  let '(parsed, h) := JSON_parse d (heap s) in
  {| result := Some parsed;
     displayText := originalText parsed;
     displayErrors := errors parsed;
     heap := h |}.

(** [{...e, position: {start: e.position.start + offset,
                       end: e.position.end + offset}}]. The two sums are
    sums of integers: they are what the code computes as long as the
    offsets and the sums are safe integers ([isSafeInteger]), as offsets
    into a text are; beyond [2^53] the doubles of the code round. *)
Definition shifted (e : GrammarError) (offset : Z) : GrammarError :=
  {| type := type e;
     position := {| start := start (position e) + offset;
                    end_ := end_ (position e) + offset |};
     original := original e;
     suggestion := suggestion e;
     explanation := explanation e;
     sentenceIndex := sentenceIndex e |}.

(** The [.map] callback of [handleApplyFix] run over an array: an element
    that starts after [pivot] is replaced by a new object, any other element
    is returned as it is. *)
Fixpoint map_shift (pivot offset : Z) (ls : list loc) (h : Store)
  : option (list loc * Store) :=
  match ls with
  | [] => Some ([], h)
  | l :: rest =>
      e ← objs h !! l;
      let '(l', h1) :=
        if (start (position e) >? pivot)%Z
        then alloc_obj (shifted e offset) h
        else (l, h) in
      '(ls', h2) ← map_shift pivot offset rest h1;
      Some (l' :: ls', h2)
  end.

Definition handleApplyFix (error : loc) (s : State) : option State :=
  match result s with
  | None => Some s
  | Some _ =>
      err ← objs (heap s) !! error;
      let before := slice (displayText s) 0 (Some (start (position err))) in
      let after := slice (displayText s) (end_ (position err)) None in
      let newText := before ++ suggestion err ++ after in
      let offset := (Z.of_nat (length (suggestion err))
                     - Z.of_nat (length (original err)))%Z in
      es ← arrs (heap s) !! displayErrors s;
      let '(filtered, h1) := alloc_arr (filter (λ e, e ≠ error) es) (heap s) in
      fs ← arrs h1 !! filtered;
      '(ms, h2) ← map_shift (start (position err)) offset fs h1;
      let '(updatedErrors, h3) := alloc_arr ms h2 in
      Some {| result := result s;
              displayText := newText;
              displayErrors := updatedErrors;
              heap := h3 |}
  end.

Definition handleApplyAllFixes (s : State) : State :=
  match result s with
  | None => s
  | Some r =>
      let '(empty, h) := alloc_arr [] (heap s) in
      {| result := result s;
         displayText := correctedText r;
         displayErrors := empty;
         heap := h |}
  end.

Definition handleReset (s : State) : State :=
  match result s with
  | None => s
  | Some r =>
      {| result := result s;
         displayText := originalText r;
         displayErrors := errors r;
         heap := heap s |}
  end.

(** What the user can do on the page. [ApplyFix i] is a click on the
    highlighted span of the [i]-th displayed error followed by "Apply Fix" in
    its tooltip, which hands that element of [displayErrors] to
    [handleApplyFix]; there is nothing to click beyond the end of the
    array. *)
Inductive Event := ApplyFix (i : nat) | ApplyAllFixes | Reset.

Definition step (ev : Event) (s : State) : option State :=
  match ev with
  | ApplyFix i =>
      es ← arrs (heap s) !! displayErrors s;
      match es !! i with
      | Some error => handleApplyFix error s
      | None => Some s
      end
  | ApplyAllFixes => Some (handleApplyAllFixes s)
  | Reset => Some (handleReset s)
  end.

Fixpoint run (evs : list Event) (s : State) : option State :=
  match evs with
  | [] => Some s
  | ev :: rest => s' ← step ev s; run rest s'
  end.

(** The displayed error objects, read through the store. *)
Definition shown (s : State) : option (list GrammarError) :=
  es ← arrs (heap s) !! displayErrors s;
  mapM (λ l, objs (heap s) !! l) es.

(** No array of the store holds a dangling reference. *)
Definition closed (h : Store) : Prop :=
  Forall (Forall (λ l, l < length (objs h))) (arrs h).

(** Every reference held by the state or by an array points into the
    store, and errors are displayed only once a result is loaded. *)
Record state_ok (s : State) : Prop := {
  ok_closed : closed (heap s);
  ok_display : displayErrors s < length (arrs (heap s));
  ok_result : ∀ r, result s = Some r → errors r < length (arrs (heap s));
  ok_loading : result s = None → arrs (heap s) !! displayErrors s = Some [];
}.

(** The second store holds everything the first one holds, unchanged. *)
Definition store_extends (h h' : Store) : Prop :=
  objs h `prefix_of` objs h' ∧ arrs h `prefix_of` arrs h'.

(** A stored result used in the examples: the text ["Ths is a tst."] with
    its two spelling errors. *)
Definition stored_two_typos : ResultData :=
  {| rd_originalText := lit "Ths is a tst.";
     rd_correctedText := lit "This is a test.";
     rd_errors :=
       [ {| type := Spelling; position := {| start := 0; end_ := 3 |};
            original := lit "Ths"; suggestion := lit "This";
            explanation := lit "Closest word"; sentenceIndex := 0 |};
         {| type := Spelling; position := {| start := 9; end_ := 12 |};
            original := lit "tst"; suggestion := lit "test";
            explanation := lit "Closest word"; sentenceIndex := 0 |} ];
     rd_confidenceScore := 80;
     rd_sentences := [];
     rd_ngramMode := RTrigram;
     rd_processingTimeMs := 12 |}.

End ResultPage.

(** ** app/components/HighlightedText.tsx *)

Module HighlightedText.
Import JS Analysis.

Record TextSegment := {
  seg_text : jsstring;
  seg_error : option loc;
  seg_start : Z;
  seg_end : Z;
}.

(** [(a, b) => a.position.start - b.position.start], on the objects read
    through their references. *)
Definition by_start (a b : loc * GrammarError) : Z :=
  (start (position a.2) - start (position b.2))%Z.

(** The body of the [for ... of] loop: [acc] is [result] and
    [currentIndex]. *)
Definition visit (text : jsstring) (acc : list TextSegment * Z)
    (le : loc * GrammarError) : list TextSegment * Z :=
  let '(result, currentIndex) := acc in
  let '(l, error) := le in
  let result1 :=
    if (start (position error) >? currentIndex)%Z
    then result ++ [ {| seg_text := slice text currentIndex
                                          (Some (start (position error)));
                        seg_error := None;
                        seg_start := currentIndex;
                        seg_end := start (position error) |} ]
    else result in
  (result1 ++ [ {| seg_text := slice text (start (position error))
                                     (Some (end_ (position error)));
                   seg_error := Some l;
                   seg_start := start (position error);
                   seg_end := end_ (position error) |} ],
   end_ (position error)).

(** The segments built from an already sorted array. *)
Definition build (text : jsstring) (sorted : list (loc * GrammarError))
  : list TextSegment :=
  let '(result, currentIndex) := fold_left (visit text) sorted ([], 0%Z) in
  if (currentIndex <? Z.of_nat (length text))%Z
  then result ++ [ {| seg_text := slice text currentIndex None;
                      seg_error := None;
                      seg_start := currentIndex;
                      seg_end := Z.of_nat (length text) |} ]
  else result.

(** The loop read as a recursion over the sorted array: the segments pushed
    from [currentIndex] on, and the final [currentIndex]. *)
Fixpoint walk (text : jsstring) (currentIndex : Z)
    (sorted : list (loc * GrammarError)) : list TextSegment * Z :=
  match sorted with
  | [] => ([], currentIndex)
  | (l, error) :: rest =>
      let gap :=
        if (start (position error) >? currentIndex)%Z
        then [ {| seg_text := slice text currentIndex
                                    (Some (start (position error)));
                  seg_error := None;
                  seg_start := currentIndex;
                  seg_end := start (position error) |} ]
        else [] in
      let here :=
        {| seg_text := slice text (start (position error))
                             (Some (end_ (position error)));
           seg_error := Some l;
           seg_start := start (position error);
           seg_end := end_ (position error) |} in
      (gap ++ here :: (walk text (end_ (position error)) rest).1,
       (walk text (end_ (position error)) rest).2)
  end.

(** The [useMemo] body. [[...errors]] allocates a copy, which [sort] then
    orders in place. *)
Definition segments (text : jsstring) (errors : aref) (h : Store)
  : option (list TextSegment * Store) :=
  es ← arrs h !! errors;
  if length es =? 0
  then Some ([ {| seg_text := text; seg_error := None;
                  seg_start := 0; seg_end := Z.of_nat (length text) |} ], h)
  else
    let '(copy, h1) := alloc_arr es h in
    cs ← arrs h1 !! copy;
    vs ← mapM (λ l, (λ v, (l, v)) <$> objs h1 !! l) cs;
    let sortedErrors := sort by_start vs in
    let h2 := write_arr copy (map fst sortedErrors) h1 in
    Some (build text sortedErrors, h2).

(** [getErrorClass(type: string)]. *)
Definition getErrorClass (type : jsstring) : jsstring :=
  if bool_decide (type = lit "spelling") then lit "error-spelling"
  else if bool_decide (type = lit "grammar") then lit "error-grammar"
  else if bool_decide (type = lit "punctuation") then lit "error-punctuation"
  else lit "".

(** The spans of an array of errors do not overlap: of any two entries, one
    ends no later than the other starts. *)
Definition non_overlapping (vs : list GrammarError) : Prop :=
  ForallOrdPairs
    (λ a b, (end_ (position a) <= start (position b)
             ∨ end_ (position b) <= start (position a))%Z) vs.

(** The condition on an entry [a] and a later entry [b] of the array under
    which the loop is right: [a] ends no later than [b] starts, or [b] ends
    no later than [a] starts and starts strictly before it. Of two spans
    that do not overlap, it excludes only an empty [b] placed at the start
    of a non-empty [a]. *)
Definition earlier_ok (a b : GrammarError) : Prop :=
  (end_ (position a) <= start (position b)
   ∨ (end_ (position b) <= start (position a)
      ∧ start (position b) < start (position a)))%Z.

(** The spans do not overlap, and an empty span does not come later in the
    array than a non-empty span with the same start. *)
Definition separated (vs : list GrammarError) : Prop :=
  ForallOrdPairs earlier_ok vs.

(** No empty span comes later in the array than a non-empty span with the
    same start. *)
Definition no_insertion_after (vs : list GrammarError) : Prop :=
  ForallOrdPairs
    (λ a b, ¬ (start (position b) = end_ (position b)
               ∧ start (position b) = start (position a)
               ∧ start (position a) < end_ (position a))%Z) vs.

Definition proper (e : GrammarError) : Prop :=
  (start (position e) <= end_ (position e))%Z.

(** The spans of a list of errors form a chain: each one ends no later than
    any later one starts. *)
Definition chain (vs : list (loc * GrammarError)) : Prop :=
  ForallOrdPairs
    (λ a b, (end_ (position a.2) <= start (position b.2))%Z) vs.

(** The spans lie within [[0, length text]]. *)
Definition contained (text : jsstring) (vs : list GrammarError) : Prop :=
  Forall (λ e, (0 <= start (position e) <= end_ (position e)
                ∧ end_ (position e) <= Z.of_nat (length text))%Z) vs.

(** Each segment ends where the next one starts. *)
Fixpoint contiguous_from (i : Z) (segs : list TextSegment) : Prop :=
  match segs with
  | [] => True
  | s :: rest => seg_start s = i ∧ contiguous_from (seg_end s) rest
  end.

(** Where a list of segments that starts at [i] ends. *)
Definition last_end (i : Z) (segs : list TextSegment) : Z :=
  default i (seg_end <$> last segs).

(** The segments tile [[0, n)]: there is at least one, the first starts at
    0, each ends where the next starts and the last ends at [n]. *)
Definition covers (n : Z) (segs : list TextSegment) : Prop :=
  segs ≠ [] ∧ contiguous_from 0 segs ∧ last_end 0 segs = n.

(** Ascending order of the segment starts. *)
Definition ascending (segs : list TextSegment) : Prop :=
  StronglySorted (λ a b, (seg_start a <= seg_start b)%Z) segs.

(** A store used in the examples: over the text ["abcde"], the array
    [[0; 1]] of a replacement of ["de"] and, after it, an insertion at the
    offset where ["de"] starts. *)
Definition insertion_after_replacement : Store :=
  {| objs :=
       [ {| type := Spelling; position := {| start := 3; end_ := 5 |};
            original := lit "de"; suggestion := lit "die";
            explanation := lit ""; sentenceIndex := 0 |};
         {| type := Punctuation; position := {| start := 3; end_ := 3 |};
            original := lit ""; suggestion := lit ",";
            explanation := lit ""; sentenceIndex := 0 |} ];
     arrs := [[0; 1]] |}.

End HighlightedText.

(** ** app/lib/constants.ts *)

Module Constants.
Import JS.

(** Modelled from the spec: the constant [MAX_TEXT_LENGTH] of
    app/lib/constants.ts, a file that is not part of the sources at hand.
    The specification and the user manual give the limit as 10,000
    characters. *)
Definition MAX_TEXT_LENGTH : Z := 10000.

(** Modelled from the spec: the constant [MAX_FILE_SIZE_MB] of
    app/lib/constants.ts; the user manual gives "Maximum file size: 5MB". *)
Definition MAX_FILE_SIZE_MB : Z := 5.

(** Modelled from the spec: the constant [SUPPORTED_FILE_TYPES] of
    app/lib/constants.ts; the user manual gives "Supported formats: .txt and
    .docx". *)
Definition SUPPORTED_FILE_TYPES : list jsstring := [lit ".txt"; lit ".docx"].

End Constants.

(** ** app/components/TextInput.tsx *)

Module TextInput.
Import JS Constants.

(** [handleChange]: the result is the argument with which [onChange] is
    called, [None] when it is not called. *)
Definition handleChange (newValue : jsstring) : option jsstring :=
  if (Z.of_nat (length newValue) <=? MAX_TEXT_LENGTH)%Z
  then Some newValue
  else None.

Definition isOverLimit (value : jsstring) : bool :=
  (Z.of_nat (length value) >? MAX_TEXT_LENGTH)%Z.

End TextInput.

(** ** app/components/FileUpload.tsx *)

Module FileUpload.
Import JS Analysis Constants.

(** The component's own state; [disabled] is a prop, kept alongside. *)
Record State := {
  isDragging : bool;
  error : option jsstring;
  disabled : bool;
}.

(** ['.' + file.name.split('.').pop()?.toLowerCase()]. [split] never returns
    an empty array, so [pop] never yields [undefined]; were it to, the
    concatenation would spell the word. *)
Definition extension (file : File) : jsstring :=
  lit "." ++ match pop (split "."%char (name file)) with
             | Some piece => toLowerCase piece
             | None => lit "undefined"
             end.

(** [file.size / (1024 * 1024)]; a division by a power of two is exact on
    floating-point numbers, so the quotient is the rational one. *)
Definition fileSizeMB (file : File) : Q :=
  (inject_Z (size file) / inject_Z (1024 * 1024))%Q.

(** [MAX_FILE_SIZE_MB] printed into a template string. *)
Definition MAX_FILE_SIZE_MB_text : jsstring :=
  lit (NilZero.string_of_int (Z.to_int MAX_FILE_SIZE_MB)).

Definition validateFile (file : File) : option jsstring :=
  if negb (bool_decide (extension file ∈ SUPPORTED_FILE_TYPES))
  then Some (lit "Unsupported file type. Please upload "
             ++ join (lit " or ") SUPPORTED_FILE_TYPES ++ lit " files.")
  else if negb (Qle_bool (fileSizeMB file) (inject_Z MAX_FILE_SIZE_MB))
  then Some (lit "File too large. Maximum size is "
             ++ MAX_FILE_SIZE_MB_text ++ lit "MB.")
  else None.

(** A handler returns the next state and the calls it makes to
    [onFileSelect], in order. *)
Definition handleFile (file : File) (s : State) : State * list File :=
  match validateFile file with
  | Some validationError =>
      if truthy validationError
      then ({| isDragging := isDragging s; error := Some validationError;
               disabled := disabled s |}, [])
      else ({| isDragging := isDragging s; error := None;
               disabled := disabled s |}, [file])
  | None =>
      ({| isDragging := isDragging s; error := None;
          disabled := disabled s |}, [file])
  end.

(** [handleDrop]; [files] is [e.dataTransfer.files]. *)
Definition handleDrop (files : list File) (s : State) : State * list File :=
  let s1 := {| isDragging := false; error := error s;
               disabled := disabled s |} in
  if disabled s then (s1, [])
  else match files with
       | f :: _ => handleFile f s1
       | [] => (s1, [])
       end.

(** [handleInputChange]; [files] is [e.target.files], which may be [null]. *)
Definition handleInputChange (files : option (list File)) (s : State)
  : State * list File :=
  match files with
  | Some (f :: _) => handleFile f s
  | _ => (s, [])
  end.

(** The two ways in which files are offered to the component. *)
Inductive Offer := Drop (files : list File) | Pick (files : option (list File)).

Definition offer (o : Offer) (s : State) : State * list File :=
  match o with
  | Drop files => handleDrop files s
  | Pick files => handleInputChange files s
  end.

(** The part of a file name after its last dot; no extension without a
    dot. *)
Fixpoint after_last_dot (n : jsstring) : option jsstring :=
  match n with
  | [] => None
  | c :: n' =>
      match after_last_dot n' with
      | Some e => Some e
      | None => if Ascii.eqb c "."%char then Some n' else None
      end
  end.

(** A file passes the two checks: its extension, lower-cased and with its
    dot, is a supported type and its size in megabytes is within the
    limit. *)
Definition acceptable (file : File) : Prop :=
  (∃ e, after_last_dot (name file) = Some e
        ∧ lit "." ++ toLowerCase e ∈ SUPPORTED_FILE_TYPES)
  ∧ (fileSizeMB file <= inject_Z MAX_FILE_SIZE_MB)%Q.

End FileUpload.

(** ** app/page.tsx *)

Module Home.
Import JS Analysis.

Inductive InputMode := TextMode | FileMode.

(** The type of the [ngramMode] state cell. *)
Inductive NgramMode := Bigram | Trigram.

(** A value of the state cell used where the request interface expects its
    [ngram] field. *)
Definition as_request (m : NgramMode) : RequestNgram :=
  match m with Bigram => QBigram | Trigram => QTrigram end.

Record State := {
  inputMode : InputMode;
  ngramMode : NgramMode;
  text : jsstring;
  selectedFile : option File;
  isLoading : bool;
  error : option jsstring;
}.

Definition initial : State :=
  {| inputMode := TextMode; ngramMode := Trigram; text := [];
     selectedFile := None; isLoading := false; error := None |}.

Definition setText (v : jsstring) (s : State) : State :=
  {| inputMode := inputMode s; ngramMode := ngramMode s; text := v;
     selectedFile := selectedFile s; isLoading := isLoading s;
     error := error s |}.

Definition setNgramMode (m : NgramMode) (s : State) : State :=
  {| inputMode := inputMode s; ngramMode := m; text := text s;
     selectedFile := selectedFile s; isLoading := isLoading s;
     error := error s |}.

Definition setInputMode (m : InputMode) (s : State) : State :=
  {| inputMode := m; ngramMode := ngramMode s; text := text s;
     selectedFile := selectedFile s; isLoading := isLoading s;
     error := error s |}.

Definition handleClearText (s : State) : State :=
  {| inputMode := inputMode s; ngramMode := ngramMode s; text := [];
     selectedFile := selectedFile s; isLoading := isLoading s;
     error := None |}.

Definition handleClearFile (s : State) : State :=
  {| inputMode := inputMode s; ngramMode := ngramMode s; text := text s;
     selectedFile := None; isLoading := isLoading s; error := None |}.

Definition handleFileSelect (f : File) (s : State) : State :=
  {| inputMode := inputMode s; ngramMode := ngramMode s; text := text s;
     selectedFile := Some f; isLoading := isLoading s; error := None |}.

Definition canSubmit (s : State) : bool :=
  match inputMode s with
  | TextMode => 0 <? length (trim (text s))
  | FileMode => bool_decide (is_Some (selectedFile s))
  end.

(** The calls into app/lib/api.ts, with their arguments. *)
Inductive ApiCall :=
| checkText (text : jsstring) (ngram : NgramMode)
| checkFile (file : File) (ngram : NgramMode).

(** The request that a call carries, as typed by the request interfaces. *)
Definition ngram_of_call (c : ApiCall) : RequestNgram :=
  match c with
  | checkText _ m => as_request m
  | checkFile _ m => as_request m
  end.

(** [handleSubmit] up to its [await]: the next state and the call issued,
    if any. *)
Definition handleSubmit (s : State) : State * option ApiCall :=
  if negb (canSubmit s) then (s, None)
  else
    let s1 := {| inputMode := inputMode s; ngramMode := ngramMode s;
                 text := text s; selectedFile := selectedFile s;
                 isLoading := true; error := None |} in
    match inputMode s, selectedFile s with
    | TextMode, _ => (s1, Some (checkText (text s) (ngramMode s)))
    | FileMode, Some f => (s1, Some (checkFile f (ngramMode s)))
    | FileMode, None =>
        ({| inputMode := inputMode s; ngramMode := ngramMode s;
            text := text s; selectedFile := selectedFile s;
            isLoading := false; error := Some (lit "No input provided") |},
         None)
    end.

(** The events of the text input as wired by the page:
    [onChange={setText}] behind [TextInput.handleChange], and
    [onClear={handleClearText}]. *)
Inductive TextEvent := Change (newValue : jsstring) | Clear.

Definition text_step (ev : TextEvent) (s : State) : State :=
  match ev with
  | Change v =>
      match TextInput.handleChange v with
      | Some v' => setText v' s
      | None => s
      end
  | Clear => handleClearText s
  end.

Definition text_run (evs : list TextEvent) (s : State) : State :=
  fold_left (λ s ev, text_step ev s) evs s.

(** The file upload as wired by the page: [onFileSelect={handleFileSelect}].
    The pair is the page state and the component state. *)
Definition upload_step (o : FileUpload.Offer) (p : State * FileUpload.State)
  : State * FileUpload.State :=
  let '(u, calls) := FileUpload.offer o p.2 in
  (fold_left (λ s f, handleFileSelect f s) calls p.1, u).

End Home.

(** ** The analysis engine

    The engine is the back end of the application; its code is not among the
    sources at hand, so this module follows the specification. Probabilities
    are exact rationals. *)

Module Engine.
Import JS.

Definition word := jsstring.

(** Modelled from the spec: the LanguageModel of the data model, an n-gram
    count table for each of the orders 1 to 3 (keys are tuples of lower-cased
    words) and the vocabulary. *)
Record LanguageModel := {
  unigrams : gmap (list word) nat;
  bigrams : gmap (list word) nat;
  trigrams : gmap (list word) nat;
  vocabulary : gset word;
}.

(** Modelled from the spec: the discount constant, "d = 0.75 is fixed". *)
Definition d : Q := 75 # 100.

(** Modelled from the spec: the count table of a given order. *)
Definition table (lm : LanguageModel) (order : nat) : gmap (list word) nat :=
  match order with
  | 1 => unigrams lm
  | 2 => bigrams lm
  | 3 => trigrams lm
  | _ => ∅
  end.

(** Modelled from the spec: the number of occurrences of an n-gram, 0 when
    the table has no entry. *)
Definition count_ngram (lm : LanguageModel) (g : list word) : nat :=
  default 0 (table lm (length g) !! g).

(** Modelled from the spec: the number of running words of the corpora. *)
Definition total_words (lm : LanguageModel) : nat :=
  map_fold (λ _ n acc, n + acc) 0 (unigrams lm).

(** Modelled from the spec: [count(c)]; the empty context has been seen as
    often as there are words. *)
Definition count_context (lm : LanguageModel) (c : list word) : nat :=
  match c with
  | [] => total_words lm
  | _ => count_ngram lm c
  end.

(** Modelled from the spec: [count(c,w)]. *)
Definition count_joint (lm : LanguageModel) (c : list word) (w : word) : nat :=
  count_ngram lm (c ++ [w]).

(** Modelled from the spec: [distinct_continuations(c)], the number of
    distinct words seen after [c]. *)
Definition distinct_continuations (lm : LanguageModel) (c : list word) : nat :=
  size (filter (λ kv : list word * nat,
                  take (length c) kv.1 = c ∧ length kv.1 = S (length c)
                  ∧ 0 < kv.2)
               (table lm (S (length c)))).

(** Modelled from the spec: [distinct_contexts_preceding(w)], derived from
    the bigram table. *)
Definition distinct_contexts_preceding (lm : LanguageModel) (w : word) : nat :=
  size (filter (λ kv : list word * nat, last kv.1 = Some w ∧ 0 < kv.2)
               (bigrams lm)).

(** Modelled from the spec: [total_distinct_bigram_types]. *)
Definition total_distinct_bigram_types (lm : LanguageModel) : nat :=
  size (filter (λ kv : list word * nat, 0 < kv.2) (bigrams lm)).

(** A count as a rational. *)
Definition Qnat (n : nat) : Q := inject_Z (Z.of_nat n).

(** Modelled from the spec: [P_continuation(w)] as used at a given order;
    at the unigram order it "degenerates to relative frequency over the
    vocabulary". *)
Definition P_continuation (lm : LanguageModel) (order : nat) (w : word) : Q :=
  match order with
  | 1 => (Qnat (count_ngram lm [w]) / Qnat (total_words lm))%Q
  | _ => (Qnat (distinct_contexts_preceding lm w)
          / Qnat (total_distinct_bigram_types lm))%Q
  end.

(** Modelled from the spec: the Kneser-Ney estimator of section 4.3, written
    as the estimator computes it: an unseen context hands all the mass to
    the continuation probability. *)
Definition P_KN (lm : LanguageModel) (c : list word) (w : word) : Q :=
  let cc := count_context lm c in
  let p_cont := P_continuation lm (S (length c)) w in
  if cc =? 0 then p_cont
  else (Qmax (Qnat (count_joint lm c w) - d) 0 / Qnat cc
        + (d * Qnat (distinct_continuations lm c) / Qnat cc) * p_cont)%Q.

(** Modelled from the spec: the two parts of the formula of section 4.3 as
    the specification words them, the discounted term ("the first term is 0"
    for an unseen context) and the weight ("defaults to 1"). *)
Definition discounted_term (lm : LanguageModel) (c : list word) (w : word) : Q :=
  match count_context lm c with
  | 0 => 0%Q
  | S _ => (Qmax (Qnat (count_joint lm c w) - d) 0
            / Qnat (count_context lm c))%Q
  end.

(** Modelled from the spec: [lambda(c)] of section 4.3. *)
Definition lambda (lm : LanguageModel) (c : list word) : Q :=
  match count_context lm c with
  | 0 => 1%Q
  | S _ => (d * Qnat (distinct_continuations lm c)
            / Qnat (count_context lm c))%Q
  end.

(** Modelled from the spec: Token of the data model. *)
Record Token := {
  tok_text : jsstring;
  startOffset : Z;
  endOffset : Z;
  isWord : bool;
}.

(** Modelled from the spec: the three kinds of error that the engine
    raises. *)
Inductive Kind := KSpelling | KGrammar | KPunctuation.

#[export] Instance Kind_eq_dec : EqDecision Kind.
Proof. solve_decision. Defined.

(** Modelled from the spec: GrammarError of the data model. *)
Record Flag := {
  kind : Kind;
  f_start : Z;
  f_end : Z;
  f_original : jsstring;
  f_suggestion : jsstring;
  f_explanation : jsstring;
  f_sentenceIndex : Z;
}.

(** Modelled from the spec: the policy constants of section 4.7,
    "configurable but default exactly to 2x and 30%". *)
Record Config := { ratio : Q; cap : Q }.

Definition default_config : Config := {| ratio := 2; cap := 30 # 100 |}.

(** Modelled from the spec: the [ngramMode] of the engine's input. *)
Inductive Mode := MBigram | MTrigram.

(** Modelled from the spec: the context of a word, the one or two words in
    front of it depending on the configured mode. *)
Definition context (m : Mode) (prev : list word) : list word :=
  match m with
  | MBigram => drop (length prev - 1) prev
  | MTrigram => drop (length prev - 2) prev
  end.

(** Modelled from the spec: SentenceAnalysis of the data model. *)
Record SentenceResult := {
  s_index : Z;
  s_original : jsstring;
  s_errors : list Flag;
  s_fluencyScore : Q;
}.

(** Modelled from the spec: AnalysisResult of the data model, as far as
    the statements below need it. *)
Record Result := {
  r_sentences : list SentenceResult;
  r_errors : list Flag;
  r_confidenceScore : Q;
}.

Section Components.

(** The components that the decision engine and the orchestrator call:
    the probability query of the interpolated language model, the
    vocabulary test and candidate search of the spell checker, its top
    suggestion for a word outside the vocabulary, the rule scanner of the
    punctuation checker (span, original, suggestion, explanation), the
    segmenter with its tokenizer, and the fluency scorer. *)
Variable probability : list word → word → Q.
Variable in_vocabulary : word → bool.
Variable candidates : word → list word.
Variable spell_suggestion : word → option word.
Variable punctuation_rules :
  jsstring → list (Z * Z * jsstring * jsstring * jsstring).
Variable segment : jsstring → list (jsstring * list Token).
Variable fluency : list Token → Q.

(** Modelled from the spec: step 3 of section 4.7, "pick the candidate
    maximizing probability" (the first one among equals). *)
Definition best_candidate (ctx : list word) (w : word) : option word :=
  match candidates w with
  | [] => None
  | c :: cs =>
      Some (fold_left
              (λ best x, if Qle_bool (probability ctx x) (probability ctx best)
                         then best else x)
              cs c)
  end.

(** Modelled from the spec: step 4 of section 4.7; flag iff
    [P_best > ratio * P_original] and the running count of corrected words,
    this one included, stays at or below [cap * sentence_word_count]. *)
Definition should_flag (cfg : Config) (N corrected : nat)
    (p_original p_best : Q) : bool :=
  negb (Qle_bool p_best (ratio cfg * p_original))
  && Qle_bool (Qnat (S corrected)) (cap cfg * Qnat N).

(** Modelled from the spec: the grammar pass over the tokens of a sentence,
    left to right; [prev] are the words seen so far and [corrected] is the
    running count. *)
Fixpoint grammar_pass (cfg : Config) (m : Mode) (idx : Z) (N : nat)
    (prev : list word) (corrected : nat) (toks : list Token) : list Flag :=
  match toks with
  | [] => []
  | t :: rest =>
      if isWord t then
        let w := toLowerCase (tok_text t) in
        let ctx := context m prev in
        let choice :=
          if in_vocabulary w then
            match best_candidate ctx w with
            | Some b =>
                if should_flag cfg N corrected (probability ctx w)
                               (probability ctx b)
                then Some b else None
            | None => None
            end
          else None in
        match choice with
        | Some b =>
            {| kind := KGrammar; f_start := startOffset t;
               f_end := endOffset t; f_original := tok_text t;
               f_suggestion := b;
               f_explanation := lit "More likely in this context";
               f_sentenceIndex := idx |}
            :: grammar_pass cfg m idx N (prev ++ [w]) (S corrected) rest
        | None => grammar_pass cfg m idx N (prev ++ [w]) corrected rest
        end
      else grammar_pass cfg m idx N prev corrected rest
  end.

(** Modelled from the spec: the spelling pass of section 4.5; a word outside
    the vocabulary is flagged when a candidate exists. *)
Definition spelling_pass (idx : Z) (toks : list Token) : list Flag :=
  omap (λ t,
          if isWord t && negb (in_vocabulary (toLowerCase (tok_text t)))
          then (λ b, {| kind := KSpelling; f_start := startOffset t;
                        f_end := endOffset t; f_original := tok_text t;
                        f_suggestion := b;
                        f_explanation := lit "Closest word in the vocabulary";
                        f_sentenceIndex := idx |})
                 <$> spell_suggestion (toLowerCase (tok_text t))
          else None)
       toks.

(** Modelled from the spec: the punctuation pass of section 4.6 over the
    original sentence text. *)
Definition punctuation_pass (idx : Z) (sentence : jsstring) : list Flag :=
  map (λ '(a, b, o, s, e),
         {| kind := KPunctuation; f_start := a; f_end := b; f_original := o;
            f_suggestion := s; f_explanation := e; f_sentenceIndex := idx |})
      (punctuation_rules sentence).

(** Modelled from the spec: [sentence_word_count], the number of word
    tokens of the sentence. *)
Definition sentence_word_count (toks : list Token) : nat :=
  length (filter (λ t, isWord t = true) toks).

(** Modelled from the spec: section 4.9 for one sentence; the three passes
    run independently and their flags are merged by a stable sort on the
    start offset, spelling before grammar before punctuation among equal
    starts. *)
Definition analyze_sentence (cfg : Config) (m : Mode) (idx : Z)
    (sentence : jsstring) (toks : list Token) : SentenceResult :=
  {| s_index := idx;
     s_original := sentence;
     s_errors :=
       sort (by_key f_start)
            (spelling_pass idx toks
             ++ grammar_pass cfg m idx (sentence_word_count toks) [] 0 toks
             ++ punctuation_pass idx sentence);
     s_fluencyScore := fluency toks |}.

(** Modelled from the spec: the test of section 7 for an input that is
    empty or white space only. *)
Definition is_blank (text : jsstring) : bool :=
  match trim text with [] => true | _ => false end.

(** Modelled from the spec: the document-level confidence of section 4.8,
    the mean of the sentence scores, and 100 when there is no sentence
    (section 7). *)
Definition confidence (ss : list SentenceResult) : Q :=
  match ss with
  | [] => 100%Q
  | _ => (fold_right Qplus 0 (map s_fluencyScore ss) / Qnat (length ss))%Q
  end.

(** Modelled from the spec: the orchestrator of section 4.9 with the input
    handling of section 7. *)
Definition analyze (cfg : Config) (m : Mode) (text : jsstring) : Result :=
  let pieces := if is_blank text then [] else segment text in
  let ss := imap (λ i '(sentence, toks),
                    analyze_sentence cfg m (Z.of_nat i) sentence toks)
                 pieces in
  {| r_sentences := ss;
     r_errors := concat (map s_errors ss);
     r_confidenceScore := confidence ss |}.

End Components.

(** Components used in the examples: every word is in the vocabulary and
    has the one candidate ["goes"], which is ten times as likely as the
    word ["go"]; the punctuation rules ask for a final period in every
    sentence; the segmenter takes the whole input for one sentence without
    tokens. *)
Definition demo_probability (ctx : list word) (w : word) : Q :=
  if bool_decide (w = lit "go") then 1 # 10 else 1.

Definition demo_candidates (w : word) : list word := [lit "goes"].

Definition demo_rules (sentence : jsstring)
  : list (Z * Z * jsstring * jsstring * jsstring) :=
  [ (Z.of_nat (length sentence), Z.of_nat (length sentence), [], lit ".",
     lit "Missing period") ].

Definition demo_segment (text : jsstring) : list (jsstring * list Token) :=
  [(text, [])].

Definition demo_word (i : Z) : Token :=
  {| tok_text := lit "go"; startOffset := 3 * i; endOffset := 3 * i + 2;
     isWord := true |}.

End Engine.

(** ** Vocabulary for sequences of fixes *)

Module Fixes.
Import JS Analysis ResultPage.

Definition span_start (v : GrammarError) : Z := start (position v).
Definition span_end (v : GrammarError) : Z := end_ (position v).

(** [newText] of [handleApplyFix] for the error value [e]. *)
Definition fix_text (T : jsstring) (e : GrammarError) : jsstring :=
  slice T 0 (Some (span_start e)) ++ suggestion e ++ slice T (span_end e) None.

(** [offset] of [handleApplyFix]. *)
Definition delta (e : GrammarError) : Z :=
  (Z.of_nat (length (suggestion e)) - Z.of_nat (length (original e)))%Z.

(** The [.map] callback of [handleApplyFix] on a value. *)
Definition bump (e v : GrammarError) : GrammarError :=
  if (span_start v >? span_start e)%Z then shifted v (delta e) else v.

(** [updatedErrors] of [handleApplyFix] as values: [pairs] are the displayed
    references with the objects they point to, [error] is the reference
    handed to the handler and [e] its object. *)
Definition fix_errors (error : loc) (e : GrammarError)
    (pairs : list (loc * GrammarError)) : list GrammarError :=
  bump e <$> (filter (λ p : loc * GrammarError, p.1 ≠ error) pairs).*2.

(** The offsets of [v], and what they become when moved by the delta of
    [e], are safe integers: the additions of the callback are exact. *)
Definition safe_offsets (e v : GrammarError) : Prop :=
  isSafeInteger (span_start v) = true
  ∧ isSafeInteger (span_end v) = true
  ∧ isSafeInteger (span_start v + delta e) = true
  ∧ isSafeInteger (span_end v + delta e) = true.

(** The span of [v] is clear of the span of [e]: it lies after it and
    starts after its start, or it lies before it. *)
Definition clear_of (e v : GrammarError) : Prop :=
  (span_end e <= span_start v ∧ span_start e < span_start v)%Z
  ∨ (span_end v <= span_start e)%Z.

(** The span of [v] lies in the text and holds [v.original]. *)
Definition holds (T : jsstring) (v : GrammarError) : Prop :=
  (0 <= span_start v <= span_end v)%Z
  ∧ (span_end v <= Z.of_nat (length T))%Z
  ∧ slice T (span_start v) (Some (span_end v)) = original v.

(** The spans of [S], in this order, run from [cur] to [n] without
    overlap. *)
Fixpoint runs (n cur : Z) (S : list GrammarError) : Prop :=
  match S with
  | [] => (cur <= n)%Z
  | v :: rest =>
      (cur <= span_start v)%Z ∧ (span_start v <= span_end v)%Z
      ∧ runs n (span_end v) rest
  end.

Definition strict_starts (S : list GrammarError) : Prop :=
  StronglySorted (λ a b, (span_start a < span_start b)%Z) S.

(** The displayed errors fit the displayed text: every span holds its
    original, and, in the order of their starts, the spans start at
    different offsets and do not overlap. *)
Definition spans_ok (T : jsstring) (vals : list GrammarError) : Prop :=
  runs (Z.of_nat (length T)) 0 (sort (by_key span_start) vals)
  ∧ strict_starts (sort (by_key span_start) vals)
  ∧ Forall (holds T) vals.

(** The text with the span of each error of [S] replaced by its suggestion,
    from [cur] on; [S] in the order of the starts. *)
Fixpoint splice (T : jsstring) (cur : Z) (S : list GrammarError) : jsstring :=
  match S with
  | [] => slice T cur None
  | v :: rest =>
      slice T cur (Some (span_start v)) ++ suggestion v
      ++ splice T (span_end v) rest
  end.

Definition fully_corrected (T : jsstring) (vals : list GrammarError) : jsstring :=
  splice T 0 (sort (by_key span_start) vals).

(** What the page passes to [ComparisonView] as [corrected]:
    [displayErrors.length === 0 ? displayText : result.correctedText]. *)
Definition comparisonCorrected (s : State) : option jsstring :=
  r ← result s;
  es ← arrs (heap s) !! displayErrors s;
  Some (if length es =? 0 then displayText s else correctedText r).

(** [hasAppliedFixes] of the page, under which the "Reset" button is
    rendered. *)
Definition hasAppliedFixes (s : State) : option bool :=
  r ← result s;
  Some (negb (bool_decide (displayText s = originalText r))).

(** [allFixesApplied] of the page. *)
Definition allFixesApplied (s : State) : option bool :=
  r ← result s;
  es ← arrs (heap s) !! displayErrors s;
  res ← arrs (heap s) !! errors r;
  Some ((length es =? 0) && (0 <? length res)).

(** A stored result whose errors fit its original text. *)
Definition well_formed (d : ResultData) : Prop :=
  spans_ok (rd_originalText d) (rd_errors d).

(** The page shows errors that fit the text it shows. *)
Definition fits (s : State) : Prop :=
  ∃ vals, shown s = Some vals ∧ spans_ok (displayText s) vals.

(** The errors of the loaded result fit its original text. *)
Definition result_fits (s : State) : Prop :=
  ∀ r, result s = Some r →
    ∃ res rvals,
      arrs (heap s) !! errors r = Some res
      ∧ mapM (λ l, objs (heap s) !! l) res = Some rvals
      ∧ spans_ok (originalText r) rvals.

End Fixes.

(** ** Vocabulary for what the components render *)

Module Rendering.
Import JS Analysis HighlightedText.

(** The two numbers that the React key of the span of a segment is
    made of: [`${segment.start}-${segment.end}`]. *)
Definition key (sg : TextSegment) : Z * Z := (seg_start sg, seg_end sg).

(** The order of the keys by start and then by end. *)
Definition key_lt (a b : TextSegment) : Prop :=
  (seg_start a < seg_start b
   ∨ (seg_start a = seg_start b ∧ seg_end a < seg_end b))%Z.

End Rendering.

(** ** The result page with its highlighted text and tooltip *)

Module ResultUI.
Import JS Analysis ResultPage HighlightedText Fixes.

(** The state of the page and [activeError] of [HighlightedText], the
    error whose [ErrorTooltip] is open. *)
Record UI := { page : State; activeError : option loc }.

(** What the mouse and the Escape key do: a click on the [k]-th rendered
    segment; a click on "Apply Fix" of the tooltip; a click on "Ignore" or
    on the cross of the tooltip; the Escape key; a click on "Apply All
    Fixes"; a click on "Reset". *)
Inductive Gesture :=
| ClickSegment (k : nat)
| ClickTooltipApply
| ClickTooltipClose
| PressEscape
| ClickApplyAll
| ClickReset.

(** [handleCloseTooltip]. *)
Definition handleCloseTooltip (u : UI) : UI :=
  {| page := page u; activeError := None |}.

(** What is on screen. React tells the spans of a render apart by their
    keys, [`${segment.start}-${segment.end}`]; when two segments of a
    render have the same key, a span of an earlier render can stay on
    screen with its old click handler, and the screen is no longer given by
    the segments. [screen] is the segments of a render whose keys are
    pairwise different, and nothing for any other render: a page that
    renders colliding keys is outside this model. The copy that the memo of
    the segments sorts is garbage once the segments are built, and is not
    kept in the store. *)
Definition screen (p : State) : option (list TextSegment) :=
  '(segs, _) ← segments (displayText p) (displayErrors p) (heap p);
  if bool_decide (NoDup (Rendering.key <$> segs)) then Some segs else None.

(** A gesture on the rendered page. A click outside the tooltip starts
    with a mouse-down that the document listener of [ErrorTooltip] answers
    with [onClose]; the click then reaches what was clicked:
    [handleErrorClick] on a segment that carries an error, the handler of a
    header button where the button is rendered. "Apply Fix" runs
    [handleApplyFix] of [HighlightedText]: [onApplyFix(error)] and
    [setActiveError(null)]. *)
Definition gesture (g : Gesture) (u : UI) : option UI :=
  segs ← screen (page u);
  match g with
  | ClickSegment k =>
      Some {| page := page u; activeError := sg ← segs !! k; seg_error sg |}
  | ClickTooltipApply =>
      match activeError u with
      | Some error =>
          p ← handleApplyFix error (page u);
          Some {| page := p; activeError := None |}
      | None => Some u
      end
  | ClickTooltipClose => Some (handleCloseTooltip u)
  | PressEscape => Some (handleCloseTooltip u)
  | ClickApplyAll =>
      es ← arrs (heap (page u)) !! displayErrors (page u);
      Some {| page := if 0 <? length es
                      then handleApplyAllFixes (page u) else page u;
              activeError := None |}
  | ClickReset =>
      Some {| page := if default false (hasAppliedFixes (page u))
                      then handleReset (page u) else page u;
              activeError := None |}
  end.

Fixpoint gestures (gs : list Gesture) (u : UI) : option UI :=
  match gs with
  | [] => Some u
  | g :: rest => u' ← gesture g u; gestures rest u'
  end.

(** The page after the mount effect, no tooltip open. *)
Definition loaded (d : ResultData) : UI :=
  {| page := mount d initial; activeError := None |}.

(** The tooltip, when open, is open on a displayed error. *)
Definition tooltip_ok (u : UI) : Prop :=
  ∀ l, activeError u = Some l →
       ∃ es, arrs (heap (page u)) !! displayErrors (page u) = Some es ∧ l ∈ es.

End ResultUI.

(** ** app/components/SentenceNavigator.tsx *)

Module SentenceNavigator.
Import JS Analysis.

(** The three kinds of buttons: previous, next, and the dot of a
    sentence. *)
Inductive Click := Prev | Next | Dot (index : nat).

(** [if (sentences.length <= 1) return null]. *)
Definition rendered (sentences : list SentenceAnalysis) : bool :=
  negb (length sentences <=? 1).

(** [sentences[currentIndex]], [None] for [undefined]. *)
Definition currentSentence (sentences : list SentenceAnalysis)
    (currentIndex : Z) : option SentenceAnalysis :=
  if (currentIndex <? 0)%Z then None else sentences !! Z.to_nat currentIndex.

Definition hasPrev (currentIndex : Z) : bool := (currentIndex >? 0)%Z.

Definition hasNext (sentences : list SentenceAnalysis) (currentIndex : Z)
  : bool :=
  (currentIndex <? Z.of_nat (length sentences) - 1)%Z.

(** The argument with which a click calls [onChange]; [None] when nothing
    is rendered, when the button is disabled, and for a dot that
    [sentences.map] does not make. *)
Definition click (sentences : list SentenceAnalysis) (currentIndex : Z)
    (c : Click) : option Z :=
  if rendered sentences then
    match c with
    | Prev => if negb (hasPrev currentIndex) then None
              else Some (currentIndex - 1)%Z
    | Next => if negb (hasNext sentences currentIndex) then None
              else Some (currentIndex + 1)%Z
    | Dot index => if index <? length sentences
                   then Some (Z.of_nat index) else None
    end
  else None.

(** The navigator as the result page wires it: rendered under
    [result.sentences.length > 1], with
    [onChange={setCurrentSentenceIndex}]. *)
Definition navigate (sentences : list SentenceAnalysis)
    (currentSentenceIndex : Z) (c : Click) : Z :=
  if 1 <? length sentences
  then default currentSentenceIndex (click sentences currentSentenceIndex c)
  else currentSentenceIndex.

(** Clicks from the first render on: [useState(0)]. *)
Definition navigate_all (sentences : list SentenceAnalysis)
    (clicks : list Click) : Z :=
  fold_left (navigate sentences) clicks 0%Z.

End SentenceNavigator.

(** ** The sentence navigator on the result page *)

Module ResultNavigator.
Import JS Analysis ResultPage SentenceNavigator.

(** [currentSentence.errors.length], the number of errors that the
    navigator prints for the current sentence of [result.sentences];
    [None] where nothing is printed. *)
Definition errorCount (s : State) (currentIndex : Z) : option nat :=
  r ← result s;
  sa ← currentSentence (sentences r) currentIndex;
  es ← arrs (heap s) !! sa_errors sa;
  Some (length es).

End ResultNavigator.

(** ** The home page and the components it renders *)

Module HomePage.
Import JS Analysis Home.

(** What the user can do on the home page: the two buttons of
    [InputModeToggle], the two buttons of [ModeToggle], typing into the
    text area and its "Clear" button, offering files to the upload zone and
    its "Remove File" button, and the "Check Grammar" button. *)
Inductive UserEvent :=
| ClickInputMode (m : InputMode)
| ClickNgramMode (m : NgramMode)
| Typing (newValue : jsstring)
| ClickClear
| Offering (o : FileUpload.Offer)
| ClickRemoveFile
| ClickSubmit.

(** [Settled failure]: the awaited call of [handleSubmit] has finished,
    with a result ([None]) or with an error and its message. *)
Inductive Event := User (u : UserEvent) | Settled (failure : option jsstring).

(** The state of a newly mounted [FileUpload]. *)
Definition fresh_upload : FileUpload.State :=
  {| FileUpload.isDragging := false; FileUpload.error := None;
     FileUpload.disabled := false |}.

(** The upload component as the page renders it:
    [disabled={isLoading}]. *)
Definition render_upload (h : Home.State) (u : FileUpload.State)
  : FileUpload.State :=
  {| FileUpload.isDragging := FileUpload.isDragging u;
     FileUpload.error := FileUpload.error u;
     FileUpload.disabled := isLoading h |}.

(** The page renders [TextInput] or [FileUpload], never both; the one that
    comes into view is mounted afresh. *)
Definition switch_upload (old new : InputMode) (u : FileUpload.State)
  : FileUpload.State :=
  match old, new with
  | TextMode, FileMode => fresh_upload
  | _, _ => u
  end.

(** A user event on the rendered page. A disabled button or input does not
    fire; a button or component that is not rendered cannot be used. The
    result is the next state of the page and of the upload component, and
    the call issued, if any. *)
Definition user_step (u : UserEvent) (p : Home.State * FileUpload.State)
  : (Home.State * FileUpload.State) * option ApiCall :=
  let '(h, up) := p in
  match u with
  | ClickInputMode m =>
      if isLoading h then (p, None)
      else ((setInputMode m h, switch_upload (inputMode h) m up), None)
  | ClickNgramMode m =>
      if isLoading h then (p, None) else ((setNgramMode m h, up), None)
  | Typing v =>
      match inputMode h with
      | TextMode =>
          if isLoading h then (p, None)
          else ((text_step (Change v) h, up), None)
      | FileMode => (p, None)
      end
  | ClickClear =>
      match inputMode h with
      | TextMode =>
          if isLoading h || negb (0 <? length (text h)) then (p, None)
          else ((text_step Clear h, up), None)
      | FileMode => (p, None)
      end
  | Offering o =>
      match inputMode h with
      | TextMode => (p, None)
      | FileMode =>
          match o with
          | FileUpload.Pick _ =>
              if isLoading h then (p, None)
              else (upload_step o (h, render_upload h up), None)
          | FileUpload.Drop _ =>
              (upload_step o (h, render_upload h up), None)
          end
      end
  | ClickRemoveFile =>
      match inputMode h, selectedFile h with
      | FileMode, Some _ =>
          if isLoading h then (p, None) else ((handleClearFile h, up), None)
      | _, _ => (p, None)
      end
  | ClickSubmit =>
      if negb (canSubmit h) || isLoading h then (p, None)
      else let '(h', c) := handleSubmit h in ((h', up), c)
  end.

(** [handleSubmit] after its [await]: [setError] in the [catch] block, and
    [setIsLoading(false)] in the [finally] block. *)
Definition settle (failure : option jsstring) (h : Home.State) : Home.State :=
  {| inputMode := inputMode h; ngramMode := ngramMode h; text := text h;
     selectedFile := selectedFile h; isLoading := false;
     error := match failure with Some m => Some m | None => error h end |}.

(** The page, its upload component and the number of calls that have been
    issued and have not finished. *)
Record Page := {
  home : Home.State;
  upload : FileUpload.State;
  inflight : nat;
}.

Definition initial : Page :=
  {| home := Home.initial; upload := fresh_upload; inflight := 0 |}.

(** Only a call that is under way can finish. *)
Definition step (ev : Event) (p : Page) : Page * option ApiCall :=
  match ev with
  | User u =>
      let '((h, up), c) := user_step u (home p, upload p) in
      ({| home := h; upload := up;
          inflight := inflight p + match c with Some _ => 1 | None => 0 end |},
       c)
  | Settled failure =>
      match inflight p with
      | 0 => (p, None)
      | S n => ({| home := settle failure (home p); upload := upload p;
                   inflight := n |}, None)
      end
  end.

(** The page after a sequence of events, and the calls issued, in
    order. *)
Fixpoint run (evs : list Event) (p : Page) : Page * list ApiCall :=
  match evs with
  | [] => (p, [])
  | ev :: rest =>
      let '(p1, c) := step ev p in
      let '(p2, cs) := run rest p1 in
      (p2, match c with Some c => c :: cs | None => cs end)
  end.

(** What a call may carry: a text within the limit that is not blank, or a
    file that passed validation. *)
Definition call_ok (c : ApiCall) : Prop :=
  match c with
  | checkText t _ =>
      (Z.of_nat (length t) <= Constants.MAX_TEXT_LENGTH)%Z ∧ trim t ≠ []
  | checkFile f _ => FileUpload.validateFile f = None
  end.

End HomePage.

(** * Properties *)

Import JS Analysis Constants.

(** ** The declared variants *)

Section Variants.
Import HighlightedText Home.

Lemma getErrorClass_tag (t : ErrorType) :
  getErrorClass (ErrorType_tag t) ≠ [] ↔ t ∈ [Spelling; Grammar; Punctuation].
Proof.
  split.
  - destruct t; intros H; try (exfalso; apply H; reflexivity);
      apply list_elem_of_In; cbn; auto.
  - intros H. apply list_elem_of_In in H. cbn in H.
    destruct H as [<- | [<- | [<- | []]]]; by vm_compute.
Qed.

(** C7, as stated, fails: a [GrammarError] may carry a kind other than
    spelling, grammar and punctuation, here ['semantic']. *)
Lemma error_kind_beyond_three :
  ¬ (∀ e : GrammarError,
       type e = Spelling ∨ type e = Grammar ∨ type e = Punctuation).
Proof.
  intros H.
  destruct (H {| type := Semantic; position := {| start := 0; end_ := 1 |};
                 original := lit "a"; suggestion := lit "b";
                 explanation := lit ""; sentenceIndex := 0 |})
    as [H1 | [H1 | H1]]; discriminate H1.
Qed.

(** C7, amended: the error-type tag is a closed variant with exactly seven
    kinds (spelling, grammar, punctuation, ngram, semantic, structure, ai)
    with pairwise distinct string tags, every [GrammarError] carries exactly
    one of them, and the three engine kinds spelling, grammar and
    punctuation are exactly those for which [getErrorClass] has a highlight
    class. *)
Theorem error_type_seven_kinds (e : GrammarError) :
  type e ∈ all_ErrorType
  ∧ length all_ErrorType = 7
  ∧ NoDup (map ErrorType_tag all_ErrorType)
  ∧ (getErrorClass (ErrorType_tag (type e)) ≠ []
     ↔ type e ∈ [Spelling; Grammar; Punctuation]).
Proof.
  split; [| split; [reflexivity | split]].
  - unfold all_ErrorType. destruct (type e); set_solver.
  - apply NoDup_ListNoDup. vm_compute.
    repeat (constructor; [intros H; cbn in H; intuition discriminate |]).
    constructor.
  - apply getErrorClass_tag.
Qed.

(** C2, as stated, fails: the request interface admits a mode other than
    bigram and trigram, here ['4gram']. *)
Lemma request_mode_beyond_two :
  ¬ (∀ r : CheckTextRequest, ngram r = QBigram ∨ ngram r = QTrigram).
Proof.
  intros H.
  destruct (H {| Analysis.text := lit "Hi"; ngram := QFourgram;
                 model_type := None |})
    as [H1 | H1]; discriminate H1.
Qed.

Lemma handleSubmit_mode (s s' : Home.State) (c : ApiCall) :
  handleSubmit s = (s', Some c) →
  ngram_of_call c = as_request (Home.ngramMode s).
Proof.
  unfold handleSubmit. destruct (negb (canSubmit s)); [discriminate |].
  destruct (inputMode s); [by intros [= _ <-] |].
  destruct (selectedFile s); [by intros [= _ <-] | discriminate].
Qed.

(** C2, amended: every request that the page submits (check-text or
    check-file) carries the value of the page's mode state, which is bigram
    or trigram; the request interfaces declare the three modes bigram,
    trigram and 4gram, and the result interface the four modes bigram,
    trigram, 4gram and Transformer-AI. *)
Theorem submitted_mode_bigram_or_trigram
    (s s' : Home.State) (c : ApiCall)
    (Hsubmit : handleSubmit s = (s', Some c)) :
  ngram_of_call c = as_request (Home.ngramMode s)
  ∧ (ngram_of_call c = QBigram ∨ ngram_of_call c = QTrigram)
  ∧ (∀ q : RequestNgram, q = QBigram ∨ q = QTrigram ∨ q = QFourgram)
  ∧ (∀ r : ResultNgramMode,
       r = RBigram ∨ r = RTrigram ∨ r = RFourgram ∨ r = RTransformerAI).
Proof.
  pose proof (handleSubmit_mode s s' c Hsubmit) as Hmode.
  split; [exact Hmode | split; [| split]].
  - rewrite Hmode. destruct (Home.ngramMode s); cbn; auto.
  - intros []; auto.
  - intros []; auto.
Qed.

Lemma submitted_mode_bigram_or_trigram_witness :
  let s := setNgramMode Bigram (setText (lit "He go to school.") Home.initial) in
  let s' := (handleSubmit s).1 in
  let c := checkText (lit "He go to school.") Bigram in
  handleSubmit s = (s', Some c)
  ∧ (ngram_of_call c = QBigram ∨ ngram_of_call c = QTrigram).
Proof.
  intros s s' c.
  assert (Hsubmit : handleSubmit s = (s', Some c)) by reflexivity.
  split; [exact Hsubmit |].
  destruct (submitted_mode_bigram_or_trigram s s' c Hsubmit) as (_ & H & _).
  exact H.
Defined.

End Variants.

(** ** The text input *)

Section TextLimit.
Import Home.

Lemma handleChange_accepts (v : jsstring) :
  TextInput.handleChange v = Some v
  ↔ (Z.of_nat (length v) <= MAX_TEXT_LENGTH)%Z.
Proof.
  unfold TextInput.handleChange.
  destruct (Z.leb_spec (Z.of_nat (length v)) MAX_TEXT_LENGTH); split;
    intros; try done; lia.
Qed.

Lemma handleChange_rejects (v : jsstring) :
  TextInput.handleChange v = None
  ↔ (MAX_TEXT_LENGTH < Z.of_nat (length v))%Z.
Proof.
  unfold TextInput.handleChange.
  destruct (Z.leb_spec (Z.of_nat (length v)) MAX_TEXT_LENGTH); split;
    intros; try done; lia.
Qed.

Lemma text_step_bounded (ev : TextEvent) (s : Home.State) :
  (Z.of_nat (length (Home.text s)) <= MAX_TEXT_LENGTH)%Z →
  (Z.of_nat (length (Home.text (text_step ev s))) <= MAX_TEXT_LENGTH)%Z.
Proof.
  intros Hs. destruct ev as [v |]; cbn.
  - destruct (TextInput.handleChange v) as [v' |] eqn:Hv; [| exact Hs].
    cbn. unfold TextInput.handleChange in Hv.
    destruct (Z.leb_spec (Z.of_nat (length v)) MAX_TEXT_LENGTH);
      [| discriminate].
    by injection Hv as <-.
  - by vm_compute.
Qed.

Lemma text_run_bounded (evs : list TextEvent) (s : Home.State) :
  (Z.of_nat (length (Home.text s)) <= MAX_TEXT_LENGTH)%Z →
  (Z.of_nat (length (Home.text (text_run evs s))) <= MAX_TEXT_LENGTH)%Z.
Proof.
  revert s. induction evs as [| ev evs IH]; intros s Hs; [exact Hs |].
  apply IH, text_step_bounded, Hs.
Qed.

(** C6: a change of the text input reaches [onChange] if and only if the
    new value has at most [MAX_TEXT_LENGTH] characters, and it is dropped
    otherwise; so, starting from an empty input, the text that the page
    stores has at most 10,000 characters after any sequence of edits. *)
Theorem text_never_exceeds_limit
    (s : Home.State) (evs : list TextEvent) (Hempty : Home.text s = []) :
  (∀ v, TextInput.handleChange v = Some v
        ↔ (Z.of_nat (length v) <= MAX_TEXT_LENGTH)%Z)
  ∧ (∀ v, TextInput.handleChange v = None
          ↔ ¬ (Z.of_nat (length v) <= MAX_TEXT_LENGTH)%Z)
  ∧ (Z.of_nat (length (Home.text (text_run evs s))) <= 10000)%Z.
Proof.
  split; [apply handleChange_accepts | split].
  - intros v. rewrite handleChange_rejects. lia.
  - apply (text_run_bounded evs s). by rewrite Hempty.
Qed.

Lemma text_never_exceeds_limit_witness :
  let evs := [Change (lit "Ths is a tst."); Clear;
              Change (lit "He go to school yesterday.")] in
  Home.text Home.initial = []
  ∧ Home.text (text_run evs Home.initial) = lit "He go to school yesterday."
  ∧ (Z.of_nat (length (Home.text (text_run evs Home.initial))) <= 10000)%Z.
Proof.
  intros evs. split; [reflexivity | split; [by vm_compute |]].
  apply (text_never_exceeds_limit Home.initial evs). reflexivity.
Defined.

End TextLimit.

(** ** The file upload *)

Section Upload.
Import FileUpload.

Lemma split_after_last_dot (n : jsstring) :
  match after_last_dot n with
  | None => split "."%char n = [n]
  | Some e => last (split "."%char n) = Some e
              ∧ 2 ≤ length (split "."%char n)
  end.
Proof.
  induction n as [| c n IH]; [reflexivity |].
  cbn [after_last_dot split].
  destruct (after_last_dot n) as [e |].
  - destruct IH as [Hlast Hlen].
    destruct (Ascii.eqb c ".").
    + split; [| cbn; lia].
      destruct (split "." n) as [| p ps]; [discriminate | exact Hlast].
    + destruct (split "." n) as [| p [| q ps]]; cbn in Hlen; try lia.
      split; [exact Hlast | cbn; lia].
  - rewrite IH. destruct (Ascii.eqb c "."); [| reflexivity].
    split; [reflexivity | cbn; lia].
Qed.

Lemma after_last_dot_None (n : jsstring) :
  after_last_dot n = None ↔ "."%char ∉ n.
Proof.
  induction n as [| c n IH]; [split; [set_solver | done] |].
  cbn. destruct (after_last_dot n) as [e |].
  - split; [done |]. intros H. exfalso. apply H. right.
    destruct (decide ("."%char ∈ n)) as [Hin | Hnin]; [exact Hin |].
    apply IH in Hnin. discriminate.
  - destruct (Ascii.eqb_spec c ".") as [-> | Hne].
    + split; [done |]. intros H. exfalso. apply H. left.
    + split; [| done]. intros _ Hin.
      apply elem_of_cons in Hin as [Heq | Hin]; [congruence |].
      by apply IH in Hin.
Qed.

(** With a dot in the name, [extension] is the dot followed by the
    lower-cased text after the last dot. *)
Lemma extension_with_dot (f : File) (e : jsstring) :
  after_last_dot (name f) = Some e →
  extension f = lit "." ++ toLowerCase e.
Proof.
  intros He. pose proof (split_after_last_dot (name f)) as H.
  rewrite He in H. destruct H as [Hlast _].
  unfold extension, pop. by rewrite Hlast.
Qed.

(** Without a dot, the whole name is taken for the extension. *)
Lemma extension_without_dot (f : File) :
  after_last_dot (name f) = None →
  extension f = lit "." ++ toLowerCase (name f).
Proof.
  intros He. pose proof (split_after_last_dot (name f)) as H.
  rewrite He in H. unfold extension, pop. by rewrite H.
Qed.

Lemma validateFile_truthy (f : File) (m : jsstring) :
  validateFile f = Some m → truthy m = true.
Proof.
  unfold validateFile.
  destruct (negb (bool_decide (extension f ∈ SUPPORTED_FILE_TYPES))).
  - by intros [= <-].
  - destruct (negb (Qle_bool (fileSizeMB f) (inject_Z MAX_FILE_SIZE_MB)));
      [by intros [= <-] | discriminate].
Qed.

Lemma validateFile_None (f : File) :
  "."%char ∈ name f → (validateFile f = None ↔ acceptable f).
Proof.
  intros Hdot. unfold validateFile, acceptable.
  destruct (after_last_dot (name f)) as [e |] eqn:He;
    [| by apply after_last_dot_None in He].
  rewrite (extension_with_dot f e He).
  case_bool_decide as Hin; cbn [negb].
  - destruct (Qle_bool (fileSizeMB f) (inject_Z MAX_FILE_SIZE_MB)) eqn:Hq;
      cbn [negb].
    + apply Qle_bool_iff in Hq. split; [| done]. intros _.
      split; [by exists e | done].
    + split; [done |]. intros [_ Hle]. apply Qle_bool_iff in Hle. congruence.
  - split; [done |]. intros [(e' & [= <-] & Hin') _]. done.
Qed.

Lemma acceptable_dec (f : File) : acceptable f ∨ ¬ acceptable f.
Proof.
  destruct (after_last_dot (name f)) as [e |] eqn:He.
  - destruct (validateFile f) eqn:Hv.
    + right. intros Ha. apply validateFile_None in Ha; [congruence |].
      destruct (decide ("."%char ∈ name f)) as [Hin | Hnin]; [done |].
      apply after_last_dot_None in Hnin. congruence.
    + left. apply validateFile_None; [| done].
      destruct (decide ("."%char ∈ name f)) as [Hin | Hnin]; [done |].
      apply after_last_dot_None in Hnin. congruence.
  - right. unfold acceptable. rewrite He. by intros [(e & [=] & _) _].
Qed.

Lemma handleFile_spec (f : File) (s : FileUpload.State) :
  "."%char ∈ name f →
  (acceptable f →
     (handleFile f s).2 = [f] ∧ FileUpload.error (handleFile f s).1 = None)
  ∧ (¬ acceptable f →
     (handleFile f s).2 = []
     ∧ ∃ m, FileUpload.error (handleFile f s).1 = Some m ∧ m ≠ []).
Proof.
  intros Hdot. pose proof (validateFile_None f Hdot) as Hiff.
  unfold handleFile. destruct (validateFile f) as [m |] eqn:Hv.
  - rewrite (validateFile_truthy f m Hv). split.
    + intros Ha. apply Hiff in Ha. discriminate.
    + intros _. split; [done |]. exists m. split; [done |].
      apply validateFile_truthy in Hv. by destruct m.
  - split; [done |]. intros Hn. exfalso. by apply Hn, Hiff.
Qed.

Lemma offer_first (o : Offer) (f : File) (rest : list File)
    (s : FileUpload.State) :
  (o = Drop (f :: rest) ∧ disabled s = false) ∨ o = Pick (Some (f :: rest)) →
  ∃ s1, offer o s = handleFile f s1.
Proof.
  intros [[-> Hen] | ->]; cbn; unfold handleDrop; [rewrite Hen |]; eauto.
Qed.

(** C10, as stated, fails: a file that passes both checks and is dropped on
    the zone while the component is disabled is not handed to
    [onFileSelect]. *)
Lemma disabled_drop_not_propagated :
  ¬ (∀ (s : FileUpload.State) (f : File),
       acceptable f → (offer (Drop [f]) s).2 = [f]).
Proof.
  intros H.
  specialize (H {| isDragging := true; error := None; disabled := true |}
                {| name := lit "essay.txt"; size := 1024 |}).
  assert (Ha : acceptable {| name := lit "essay.txt"; size := 1024 |}).
  { apply validateFile_None; [| by vm_compute].
    apply (bool_decide_unpack _). by vm_compute. }
  specialize (H Ha). discriminate H.
Qed.

(** A drop on a disabled component changes nothing but the drag marker. *)
Lemma disabled_drop_ignored (files : list File) (s : FileUpload.State) :
  disabled s = true →
  (offer (Drop files) s).2 = []
  ∧ FileUpload.error (offer (Drop files) s).1 = FileUpload.error s.
Proof. intros Hd. cbn. unfold handleDrop. by rewrite Hd. Qed.

(** C10, amended: for the first file of a drop on an enabled component or of
    a selection in the file picker, when its name has a dot, the file is
    handed to [onFileSelect] if and only if its lower-cased extension is a
    supported type and its size divided by 1024*1024 is at most
    [MAX_FILE_SIZE_MB]; then the error message is cleared and the page
    selects the file; otherwise an error message is set, [onFileSelect] is
    not called and the page state, its selection included, stays as it
    was. A drop on a disabled component is ignored: nothing is handed on
    and the error message stays as it was. *)
Theorem offered_file_validated
    (o : Offer) (f : File) (rest : list File)
    (page : Home.State) (s : FileUpload.State)
    (Hoffer : (o = Drop (f :: rest) ∧ disabled s = false)
              ∨ o = Pick (Some (f :: rest)))
    (Hdot : "."%char ∈ name f) :
  ((offer o s).2 = [f] ↔ acceptable f)
  ∧ (acceptable f →
       FileUpload.error (offer o s).1 = None
       ∧ Home.selectedFile (Home.upload_step o (page, s)).1 = Some f)
  ∧ (¬ acceptable f →
       (offer o s).2 = []
       ∧ (∃ m, FileUpload.error (offer o s).1 = Some m ∧ m ≠ [])
       ∧ (Home.upload_step o (page, s)).1 = page)
  ∧ (∀ files s0, disabled s0 = true →
       (offer (Drop files) s0).2 = []
       ∧ FileUpload.error (offer (Drop files) s0).1 = FileUpload.error s0).
Proof.
  destruct (offer_first o f rest s Hoffer) as [s1 Hs1].
  destruct (handleFile_spec f s1 Hdot) as [Hyes Hno].
  unfold Home.upload_step. cbn [snd fst]. rewrite Hs1.
  destruct (handleFile f s1) as [u calls] eqn:Hh. cbn [fst snd] in *.
  split; [| split; [| split]].
  - split; [| by intros Ha; apply Hyes].
    intros ->. destruct (acceptable_dec f) as [Ha | Hn]; [exact Ha |].
    by destruct (Hno Hn).
  - intros Ha. destruct (Hyes Ha) as [-> ->]. by cbn.
  - intros Hn. destruct (Hno Hn) as [-> Hm]. by cbn.
  - apply disabled_drop_ignored.
Qed.

Lemma offered_file_validated_witness :
  let f := {| name := lit "Report.final.DOCX"; size := 5242880 |} in
  let s := {| isDragging := true; error := Some (lit "earlier message");
              disabled := false |} in
  ((Drop [f] = Drop [f] ∧ disabled s = false) ∨ Drop [f] = Pick (Some [f]))
  ∧ "."%char ∈ name f
  ∧ acceptable f
  ∧ ((offer (Drop [f]) s).2 = [f] ↔ acceptable f).
Proof.
  intros f s.
  assert (Hoffer : (Drop [f] = Drop [f] ∧ disabled s = false)
                   ∨ Drop [f] = Pick (Some [f])) by (left; split; reflexivity).
  assert (Hdot : "."%char ∈ name f)
    by (apply (bool_decide_unpack _); vm_compute; exact I).
  split; [exact Hoffer | split; [exact Hdot | split]].
  - apply validateFile_None; [exact Hdot | vm_compute; reflexivity].
  - destruct (offered_file_validated (Drop [f]) f [] Home.initial s
                Hoffer Hdot) as [H _].
    exact H.
Defined.

(** A name without a dot is taken whole for the extension, so a file named
    [txt] passes the type check. *)
Example dotless_name_passes :
  validateFile {| name := lit "txt"; size := 0 |} = None
  ∧ after_last_dot (lit "txt") = None.
Proof. by vm_compute. Qed.

Example large_file_rejected :
  validateFile {| name := lit "notes.txt"; size := 5242881 |}
  = Some (lit "File too large. Maximum size is 5MB.").
Proof. by vm_compute. Qed.

Example wrong_type_rejected :
  validateFile {| name := lit "notes.pdf"; size := 10 |}
  = Some (lit "Unsupported file type. Please upload .txt or .docx files.").
Proof. by vm_compute. Qed.

End Upload.

(** ** Slices *)

Section Slices.

Lemma relIndex_nonneg (len idx : Z) :
  (0 <= idx)%Z → relIndex len idx = Z.min idx len.
Proof. intros H. unfold relIndex. destruct (Z.ltb_spec idx 0); [lia | done]. Qed.

Lemma slice_prefix (s : jsstring) (a : Z) :
  (0 <= a)%Z → slice s 0 (Some a) = take (Z.to_nat a) s.
Proof.
  intros Ha. unfold slice. rewrite !relIndex_nonneg by lia.
  replace (Z.to_nat (Z.min 0 (Z.of_nat (length s)))) with 0 by lia.
  rewrite drop_0.
  destruct (Z.le_gt_cases a (Z.of_nat (length s))) as [Hle | Hgt].
  - f_equal. lia.
  - rewrite !take_ge by lia. done.
Qed.

Lemma slice_suffix (s : jsstring) (b : Z) :
  (0 <= b)%Z → slice s b None = drop (Z.to_nat b) s.
Proof.
  intros Hb. unfold slice. rewrite relIndex_nonneg by lia.
  rewrite take_ge by (rewrite length_drop; lia).
  destruct (Z.le_gt_cases b (Z.of_nat (length s))) as [Hle | Hgt].
  - f_equal. lia.
  - rewrite !drop_ge by lia. done.
Qed.

Lemma slice_inside (s : jsstring) (a b : Z) :
  (0 <= a <= b)%Z → (b <= Z.of_nat (length s))%Z →
  slice s a (Some b) = take (Z.to_nat b - Z.to_nat a) (drop (Z.to_nat a) s).
Proof.
  intros Hab Hb. unfold slice. rewrite !relIndex_nonneg by lia.
  f_equal; [lia | f_equal; lia].
Qed.

Lemma slice_inside_length (s : jsstring) (a b : Z) :
  (0 <= a <= b)%Z → (b <= Z.of_nat (length s))%Z →
  Z.of_nat (length (slice s a (Some b))) = (b - a)%Z.
Proof.
  intros Hab Hb. rewrite slice_inside by done.
  rewrite length_take, length_drop. lia.
Qed.

(** Consecutive slices join up. *)
Lemma slice_prefix_snoc (s : jsstring) (a b : Z) :
  (0 <= a <= b)%Z → (b <= Z.of_nat (length s))%Z →
  take (Z.to_nat a) s ++ slice s a (Some b) = take (Z.to_nat b) s.
Proof.
  intros Hab Hb. rewrite slice_inside by done.
  rewrite <- (take_drop (Z.to_nat a) (take (Z.to_nat b) s)).
  rewrite take_take, take_drop_commute.
  f_equal; [f_equal; lia | f_equal; f_equal; lia].
Qed.

Example slice_negative : slice (lit "abc") (-1) (Some 0%Z) = [].
Proof. reflexivity. Qed.

Example slice_middle : slice (lit "Ths is") 4 (Some 6%Z) = lit "is".
Proof. reflexivity. Qed.

End Slices.

(** ** The result page *)

Section ResultPageFacts.
Import ResultPage.

Lemma store_extends_refl (h : Store) : store_extends h h.
Proof. by split. Qed.

Lemma store_extends_trans (h1 h2 h3 : Store) :
  store_extends h1 h2 → store_extends h2 h3 → store_extends h1 h3.
Proof. intros [? ?] [? ?]. split; by etrans. Qed.

Lemma alloc_obj_extends (v : GrammarError) (h : Store) :
  store_extends h (alloc_obj v h).2.
Proof. split; cbn; [by apply prefix_app_r | done]. Qed.

Lemma alloc_arr_extends (a : list loc) (h : Store) :
  store_extends h (alloc_arr a h).2.
Proof. split; cbn; [done | by apply prefix_app_r]. Qed.

(** What a store holds stays readable, with the same value, in any store
    that extends it. *)
Lemma store_extends_obj (h h' : Store) (l : loc) (v : GrammarError) :
  store_extends h h' → objs h !! l = Some v → objs h' !! l = Some v.
Proof. intros [Ho _] Hl. by eapply prefix_lookup_Some. Qed.

Lemma store_extends_arr (h h' : Store) (r : aref) (a : list loc) :
  store_extends h h' → arrs h !! r = Some a → arrs h' !! r = Some a.
Proof. intros [_ Ha] Hr. by eapply prefix_lookup_Some. Qed.

Lemma map_shift_spec (pivot offset : Z) (h0 : Store) (ls : list loc) :
  Forall (λ l, l < length (objs h0)) ls →
  ∀ h, objs h0 `prefix_of` objs h →
  ∃ ms h',
    map_shift pivot offset ls h = Some (ms, h')
    ∧ objs h `prefix_of` objs h'
    ∧ arrs h' = arrs h
    ∧ Forall (λ l, l < length (objs h')) ms
    ∧ Forall2
        (λ l l', ∃ v, objs h0 !! l = Some v
                      ∧ if (start (position v) >? pivot)%Z
                        then length (objs h0) ≤ l'
                             ∧ objs h' !! l' = Some (shifted v offset)
                        else l' = l)
        ls ms.
Proof.
  induction ls as [| l rest IH]; intros Hvalid h Hpre.
  - exists [], h. cbn.
    split; [done |]. split; [done |]. split; [done |]. split; constructor.
  - apply Forall_cons in Hvalid as [Hl Hrest].
    destruct (lookup_lt_is_Some_2 _ _ Hl) as [e He].
    assert (Heh : objs h !! l = Some e) by (by eapply prefix_lookup_Some).
    cbn [map_shift]. rewrite Heh. cbn [mbind option_bind].
    destruct (start (position e) >? pivot)%Z eqn:Hcmp.
    + cbn [alloc_obj].
      set (h1 := {| objs := objs h ++ [shifted e offset]; arrs := arrs h |}).
      destruct (IH Hrest h1) as (ms & h' & Hrun & Hp & Ha & Hms & Hrel).
      { cbn. etrans; [exact Hpre | by apply prefix_app_r]. }
      exists (length (objs h) :: ms), h'. rewrite Hrun. cbn.
      assert (Hnew : objs h' !! length (objs h) = Some (shifted e offset)).
      { eapply prefix_lookup_Some; [| exact Hp]. cbn.
        by rewrite list_lookup_middle. }
      split; [done |]. split.
      { etrans; [| exact Hp]. cbn. by apply prefix_app_r. }
      split; [done |]. split.
      { constructor; [| done]. by eapply lookup_lt_Some. }
      constructor; [| done]. exists e. rewrite Hcmp.
      split; [done |]. split; [| done]. by apply prefix_length.
    + destruct (IH Hrest h Hpre) as (ms & h' & Hrun & Hp & Ha & Hms & Hrel).
      exists (l :: ms), h'. rewrite Hrun. cbn.
      split; [done |]. split; [done |]. split; [done |]. split.
      { constructor; [| done].
        eapply Nat.lt_le_trans; [exact Hl |].
        etrans; [by apply prefix_length | by apply prefix_length]. }
      constructor; [| done]. exists e. by rewrite Hcmp.
Qed.

Lemma handleApplyFix_unfold (s : State) (r : AnalysisResult) (error : loc)
    (err : GrammarError) (es : list loc) :
  result s = Some r →
  objs (heap s) !! error = Some err →
  arrs (heap s) !! displayErrors s = Some es →
  handleApplyFix error s =
    '(ms, h2) ← map_shift (start (position err))
                  (Z.of_nat (length (suggestion err))
                   - Z.of_nat (length (original err)))
                  (filter (λ e, e ≠ error) es)
                  (alloc_arr (filter (λ e, e ≠ error) es) (heap s)).2;
    Some {| result := Some r;
            displayText :=
              slice (displayText s) 0 (Some (start (position err)))
              ++ suggestion err
              ++ slice (displayText s) (end_ (position err)) None;
            displayErrors := length (arrs h2);
            heap := {| objs := objs h2; arrs := arrs h2 ++ [ms] |} |}.
Proof.
  intros Hr Herr Hes. unfold handleApplyFix. rewrite Hr, Herr, Hes.
  cbn [mbind option_bind alloc_arr fst snd arrs].
  rewrite list_lookup_middle by done. reflexivity.
Qed.

Lemma state_ok_initial : state_ok initial.
Proof.
  split; cbn; try done; [| lia].
  by repeat constructor.
Qed.

Lemma closed_mono (h h' : Store) (a : list loc) :
  objs h `prefix_of` objs h' →
  Forall (λ l, l < length (objs h)) a → Forall (λ l, l < length (objs h')) a.
Proof.
  intros Hp Ha. eapply Forall_impl; [exact Ha |]. intros l Hl.
  eapply Nat.lt_le_trans; [exact Hl | by apply prefix_length].
Qed.

Lemma closed_lookup (h : Store) (r : aref) (a : list loc) (i : nat) (l : loc) :
  closed h → arrs h !! r = Some a → a !! i = Some l →
  is_Some (objs h !! l).
Proof.
  intros Hc Hr Hi. apply lookup_lt_is_Some_2.
  eapply (Forall_lookup_1 _ _ _ _ Hc) in Hr.
  by eapply (Forall_lookup_1 _ _ _ _ Hr) in Hi.
Qed.

(** The general statement about [handleApplyFix] on a loaded page. *)
Lemma handleApplyFix_spec (s : State) (r : AnalysisResult) (error : loc)
    (err : GrammarError) (es : list loc) :
  state_ok s →
  result s = Some r →
  objs (heap s) !! error = Some err →
  arrs (heap s) !! displayErrors s = Some es →
  ∃ s' es',
    handleApplyFix error s = Some s'
    ∧ state_ok s'
    ∧ result s' = Some r
    ∧ store_extends (heap s) (heap s')
    ∧ displayText s' =
        slice (displayText s) 0 (Some (start (position err)))
        ++ suggestion err
        ++ slice (displayText s) (end_ (position err)) None
    ∧ arrs (heap s') !! displayErrors s' = Some es'
    ∧ Forall2
        (λ l l', ∃ v, objs (heap s) !! l = Some v
                      ∧ if (start (position v) >? start (position err))%Z
                        then length (objs (heap s)) ≤ l'
                             ∧ objs (heap s') !! l'
                               = Some (shifted v
                                         (Z.of_nat (length (suggestion err))
                                          - Z.of_nat (length (original err))))
                        else l' = l)
        (filter (λ e, e ≠ error) es) es'.
Proof.
  intros [Hc Hd Hres _] Hr Herr Hes.
  rewrite (handleApplyFix_unfold s r error err es Hr Herr Hes).
  set (fs := filter (λ e, e ≠ error) es).
  set (h1 := (alloc_arr fs (heap s)).2).
  assert (Hes_ok : Forall (λ l, l < length (objs (heap s))) es)
    by exact (Forall_lookup_1 _ _ _ _ Hc Hes).
  assert (Hfs_ok : Forall (λ l, l < length (objs h1)) fs).
  { apply Forall_forall. intros l Hl. apply list_elem_of_filter in Hl as [_ Hl].
    by eapply Forall_forall in Hes_ok. }
  destruct (map_shift_spec (start (position err))
              (Z.of_nat (length (suggestion err))
               - Z.of_nat (length (original err)))
              h1 fs Hfs_ok h1)
    as (ms & h2 & Hrun & Hp & Ha & Hms & Hrel); [done |].
  rewrite Hrun. cbn [mbind option_bind].
  eexists _, ms. split; [reflexivity |].
  cbn [heap result displayText displayErrors objs arrs].
  assert (Harrs : arrs h2 = arrs (heap s) ++ [fs]) by (by rewrite Ha).
  split; [| split; [done | split; [| split; [done | split]]]].
  - split; cbn [heap result displayErrors objs arrs].
    + unfold closed. cbn [objs arrs]. rewrite Harrs.
      apply Forall_app. split; [apply Forall_app; split |].
      * eapply Forall_impl; [exact Hc |]. intros a. by apply closed_mono.
      * constructor; [| constructor]. by eapply closed_mono.
      * by constructor.
    + rewrite length_app. cbn. lia.
    + intros r' [= <-]. rewrite Harrs, !length_app. cbn.
      specialize (Hres r Hr). lia.
    + congruence.
  - split; cbn [objs arrs]; [exact Hp |].
    rewrite Harrs, <- app_assoc. by apply prefix_app_r.
  - by rewrite list_lookup_middle.
  - exact Hrel.
Qed.

Lemma handleApplyAllFixes_spec (s : State) :
  state_ok s →
  state_ok (handleApplyAllFixes s)
  ∧ result (handleApplyAllFixes s) = result s
  ∧ store_extends (heap s) (heap (handleApplyAllFixes s)).
Proof.
  intros Hok. unfold handleApplyAllFixes.
  destruct (result s) as [r |] eqn:Hr;
    [| split; [done | split; [done | apply store_extends_refl]]].
  cbn [alloc_arr]. destruct Hok as [Hc Hd Hres _].
  split; [| split; [done | apply alloc_arr_extends]].
  split; cbn [heap result displayErrors objs arrs].
  - unfold closed. cbn [objs arrs]. apply Forall_app. split; [exact Hc |].
    by repeat constructor.
  - rewrite length_app. cbn. lia.
  - intros r' [= <-]. specialize (Hres r Hr). rewrite length_app. cbn. lia.
  - congruence.
Qed.

Lemma handleReset_spec (s : State) :
  state_ok s →
  state_ok (handleReset s)
  ∧ result (handleReset s) = result s
  ∧ heap (handleReset s) = heap s.
Proof.
  intros Hok. unfold handleReset.
  destruct (result s) as [r |] eqn:Hr; [| done].
  split; [| done]. destruct Hok as [Hc Hd Hres _].
  split; cbn [heap result displayErrors]; try done.
  - by apply Hres.
  - intros r' [= <-]. by apply Hres.
Qed.

(** Every event is handled, and leaves a well-formed state that holds the
    same result over a store that extends the previous one. *)
Lemma step_spec (ev : Event) (s : State) :
  state_ok s →
  ∃ s', step ev s = Some s'
        ∧ state_ok s'
        ∧ result s' = result s
        ∧ store_extends (heap s) (heap s').
Proof.
  intros Hok. destruct ev as [i | |]; cbn [step].
  - destruct (lookup_lt_is_Some_2 _ _ (ok_display s Hok)) as [es Hes].
    rewrite Hes. cbn [mbind option_bind].
    destruct (es !! i) as [error |] eqn:Hi;
      [| exists s; split; [done | split; [done | split; [done |]]];
         apply store_extends_refl].
    destruct (result s) as [r |] eqn:Hr.
    + destruct (closed_lookup _ _ _ _ _ (ok_closed s Hok) Hes Hi) as [err Herr].
      destruct (handleApplyFix_spec s r error err es Hok Hr Herr Hes)
        as (s' & es' & Hrun & Hok' & Hr' & Hext & _).
      exists s'. by rewrite Hr'.
    + exists s. unfold handleApplyFix. rewrite Hr.
      split; [done | split; [done | split; [done |]]].
      apply store_extends_refl.
  - destruct (handleApplyAllFixes_spec s Hok) as (? & ? & ?). eauto.
  - destruct (handleReset_spec s Hok) as (? & ? & Hh).
    eexists. split; [done |]. split; [done |]. split; [done |].
    rewrite Hh. apply store_extends_refl.
Qed.

Lemma run_spec (evs : list Event) (s : State) :
  state_ok s →
  ∃ s', run evs s = Some s'
        ∧ state_ok s'
        ∧ result s' = result s
        ∧ store_extends (heap s) (heap s').
Proof.
  revert s. induction evs as [| ev evs IH]; intros s Hok.
  - exists s. split; [done | split; [done | split; [done |]]].
    apply store_extends_refl.
  - destruct (step_spec ev s Hok) as (s1 & Hstep & Hok1 & Hr1 & Hext1).
    destruct (IH s1 Hok1) as (s' & Hrun & Hok' & Hr' & Hext').
    exists s'. cbn [run]. rewrite Hstep. cbn [mbind option_bind].
    split; [done | split; [done | split; [congruence |]]].
    by eapply store_extends_trans.
Qed.

Lemma alloc_errors_spec (vs : list GrammarError) (h : Store) :
  closed h →
  closed (alloc_errors vs h).2
  ∧ store_extends h (alloc_errors vs h).2
  ∧ (alloc_errors vs h).1 < length (arrs (alloc_errors vs h).2).
Proof.
  intros Hc. unfold alloc_errors, alloc_arr. cbn [fst snd objs arrs].
  split; [| split].
  - unfold closed. cbn [objs arrs]. apply Forall_app. split.
    + eapply Forall_impl; [exact Hc |]. intros a.
      apply (closed_mono h {| objs := objs h ++ vs; arrs := arrs h |}).
      by apply prefix_app_r.
    + constructor; [| constructor]. apply Forall_forall. intros l Hl.
      apply elem_of_seq in Hl. rewrite length_app. lia.
  - split; cbn; by apply prefix_app_r.
  - rewrite length_app. cbn. lia.
Qed.

Lemma parse_sentences_spec (ds : list SentenceData) (h : Store) :
  closed h →
  closed (parse_sentences ds h).2 ∧ store_extends h (parse_sentences ds h).2.
Proof.
  revert h. induction ds as [| d0 ds IH]; intros h Hc.
  - split; [done | apply store_extends_refl].
  - cbn [parse_sentences].
    destruct (alloc_errors_spec (sd_errors d0) h Hc) as (Hc1 & He1 & _).
    destruct (alloc_errors (sd_errors d0) h) as [a h1]. cbn [snd] in *.
    destruct (IH h1 Hc1) as [Hc2 He2].
    destruct (parse_sentences ds h1) as [ss h2]. cbn [snd] in *.
    split; [done | by eapply store_extends_trans].
Qed.

(** Loading a stored result leaves a well-formed state that displays the
    original text and the errors of the result. *)
Lemma mount_ok (d : ResultData) (s : State) :
  state_ok s →
  state_ok (mount d s)
  ∧ ∃ r, result (mount d s) = Some r
         ∧ displayText (mount d s) = originalText r
         ∧ displayErrors (mount d s) = errors r.
Proof.
  intros Hok. unfold mount, JSON_parse.
  destruct (alloc_errors_spec (rd_errors d) (heap s) (ok_closed s Hok))
    as (Hc1 & He1 & Hlt).
  destruct (alloc_errors (rd_errors d) (heap s)) as [a h1]. cbn [fst snd] in *.
  destruct (parse_sentences_spec (rd_sentences d) h1 Hc1) as [Hc2 He2].
  destruct (parse_sentences (rd_sentences d) h1) as [ss h2]. cbn [snd] in *.
  assert (Ha : a < length (arrs h2)).
  { eapply Nat.lt_le_trans; [exact Hlt |]. apply prefix_length, He2. }
  split; [| eexists; split; [reflexivity | done]].
  split; cbn [heap result displayErrors errors]; try done.
  by intros r [= <-].
Qed.

(** Every state that the page reaches after loading a stored result is
    well formed, and no event gets stuck. *)
Lemma loaded_page_ok (d : ResultData) (evs : list Event) :
  ∃ s', run evs (mount d initial) = Some s' ∧ state_ok s'.
Proof.
  destruct (mount_ok d initial state_ok_initial) as [Hok _].
  destruct (run_spec evs _ Hok) as (s' & Hrun & Hok' & _). eauto.
Qed.

(** C1: on a page that shows a loaded result whose displayed errors have
    safe integers for offsets, before and after a move by the delta,
    applying the fix of a displayed error [e] whose span holds
    [e.original] replaces the text by
    [text.slice(0, start) + e.suggestion + text.slice(end)], which for
    offsets that are not negative is the text up to [start], the suggestion
    and the text from [end] on, and which is longer than the old text by
    the length delta [e.suggestion.length - e.original.length] when the
    span lies in the text; [e] is no longer in the error list; the other
    errors stay in their order and keep their kind, original, suggestion,
    explanation and sentence index; those that start strictly after
    [e.start] are fresh objects whose start is the old start plus the delta
    and whose end is the old end plus the delta, the others are the same
    objects with the same positions. *)
Theorem apply_fix_rewrites_and_shifts
    (s : State) (es : list loc) (error : loc) (err : GrammarError)
    (Hok : state_ok s)
    (Hes : arrs (heap s) !! displayErrors s = Some es)
    (Hin : error ∈ es)
    (Herr : objs (heap s) !! error = Some err)
    (Hspan : slice (displayText s) (start (position err))
                   (Some (end_ (position err))) = original err)
    (Hsafe : ∀ l v, l ∈ es → objs (heap s) !! l = Some v →
                    Fixes.safe_offsets err v) :
  let delta := (Z.of_nat (length (suggestion err))
                - Z.of_nat (length (original err)))%Z in
  ∃ s' es',
    handleApplyFix error s = Some s'
    ∧ displayText s' =
        slice (displayText s) 0 (Some (start (position err)))
        ++ suggestion err
        ++ slice (displayText s) (end_ (position err)) None
    ∧ ((0 <= start (position err))%Z → (0 <= end_ (position err))%Z →
       displayText s' =
         take (Z.to_nat (start (position err))) (displayText s)
         ++ suggestion err
         ++ drop (Z.to_nat (end_ (position err))) (displayText s))
    ∧ ((0 <= start (position err) <= end_ (position err))%Z →
       (end_ (position err) <= Z.of_nat (length (displayText s)))%Z →
       Z.of_nat (length (displayText s'))
       = (Z.of_nat (length (displayText s)) + delta)%Z)
    ∧ arrs (heap s') !! displayErrors s' = Some es'
    ∧ (error ∉ es')
    ∧ Forall2
        (λ l l', ∃ v v',
           objs (heap s) !! l = Some v
           ∧ objs (heap s') !! l' = Some v'
           ∧ type v' = type v
           ∧ original v' = original v
           ∧ suggestion v' = suggestion v
           ∧ explanation v' = explanation v
           ∧ sentenceIndex v' = sentenceIndex v
           ∧ if (start (position v) >? start (position err))%Z
             then start (position v') = (start (position v) + delta)%Z
                  ∧ end_ (position v') = (end_ (position v) + delta)%Z
                  ∧ isSafeInteger (start (position v')) = true
                  ∧ isSafeInteger (end_ (position v')) = true
                  ∧ length (objs (heap s)) ≤ l'
             else l' = l ∧ position v' = position v)
        (filter (λ e, e ≠ error) es) es'.
Proof.
  intros delta.
  destruct (result s) as [r |] eqn:Hr.
  2: { rewrite (ok_loading s Hok Hr) in Hes. injection Hes as <-.
       by apply elem_of_nil in Hin. }
  destruct (handleApplyFix_spec s r error err es Hok Hr Herr Hes)
    as (s' & es' & Hrun & Hok' & Hr' & Hext & Htext & Hes' & Hrel).
  exists s', es'. split; [done |]. split; [done |]. split; [| split].
  - intros Ha Hb. by rewrite Htext, slice_prefix, slice_suffix.
  - intros Hab Hb. rewrite Htext, slice_prefix, slice_suffix by lia.
    pose proof (slice_inside_length (displayText s) _ _ Hab Hb) as Hlen.
    rewrite Hspan in Hlen. subst delta.
    rewrite !length_app, length_take, length_drop. lia.
  - split; [done |].
    assert (Hrel' : Forall2
        (λ l l', l ∈ es ∧ ∃ v,
           objs (heap s) !! l = Some v
           ∧ if (start (position v) >? start (position err))%Z
             then length (objs (heap s)) ≤ l'
                  ∧ objs (heap s') !! l' = Some (shifted v delta)
             else l' = l)
        (filter (λ e, e ≠ error) es) es').
    { apply Forall2_same_length_lookup_2; [by eapply Forall2_length |].
      intros i l l' Hl Hl'.
      split; [| exact (Forall2_lookup_lr _ _ _ _ _ _ Hrel Hl Hl')].
      by apply list_elem_of_lookup_2, list_elem_of_filter in Hl as [_ ?]. }
    split.
    + intros Hin'. apply list_elem_of_lookup in Hin' as [i Hi].
      destruct (Forall2_lookup_r _ _ _ _ _ Hrel' Hi)
        as (l & Hl & _ & v & Hv & Hcase).
      destruct (start (position v) >? start (position err))%Z.
      * destruct Hcase as [Hfresh _]. apply lookup_lt_Some in Herr. lia.
      * subst l.
        apply list_elem_of_lookup_2, list_elem_of_filter in Hl as [Hne _].
        done.
    + eapply Forall2_impl; [exact Hrel' |]. cbn beta.
      intros l l' (Hl & v & Hv & Hcase). exists v.
      destruct (Hsafe l v Hl Hv) as (_ & _ & Hs1 & Hs2).
      destruct (start (position v) >? start (position err))%Z.
      * destruct Hcase as [Hfresh Hv']. exists (shifted v delta).
        by repeat split.
      * subst l'. exists v. split; [done |].
        split; [by eapply store_extends_obj | done].
Qed.

(** C3: on a loaded page, any sequence of single fixes, of "Apply All
    Fixes" and of resets is handled without touching the stored result:
    the state keeps the same [AnalysisResult], every object and every array
    that the store held before is still there with the same contents (the
    handlers only allocate), and a reset after the sequence displays
    [result.originalText] and the array [result.errors], whose errors are
    the ones it held at the start; when the sequence started from the
    display of the loaded result, the reset leads back to that display. *)
Theorem fixes_keep_result_and_reset_restores
    (s : State) (r : AnalysisResult) (evs : list Event)
    (Hok : state_ok s) (Hr : result s = Some r) :
  ∃ s',
    run evs s = Some s'
    ∧ result s' = Some r
    ∧ (∀ l v, objs (heap s) !! l = Some v → objs (heap s') !! l = Some v)
    ∧ (∀ a ls, arrs (heap s) !! a = Some ls → arrs (heap s') !! a = Some ls)
    ∧ displayText (handleReset s') = originalText r
    ∧ displayErrors (handleReset s') = errors r
    ∧ heap (handleReset s') = heap s'
    ∧ shown (handleReset s') = shown (handleReset s)
    ∧ is_Some (shown (handleReset s'))
    ∧ (displayText s = originalText r → displayErrors s = errors r →
       displayText (handleReset s') = displayText s
       ∧ displayErrors (handleReset s') = displayErrors s
       ∧ shown (handleReset s') = shown s).
Proof.
  destruct (run_spec evs s Hok) as (s' & Hrun & Hok' & Hr' & Hext).
  rewrite Hr in Hr'. exists s'.
  split; [done |]. split; [done |].
  split; [intros l v; by apply store_extends_obj |].
  split; [intros a ls; by apply store_extends_arr |].
  unfold shown, handleReset. rewrite Hr, Hr'.
  cbn [displayText displayErrors heap].
  split; [done |]. split; [done |]. split; [done |].
  destruct (lookup_lt_is_Some_2 _ _ (ok_result s Hok r Hr)) as [es Hes].
  rewrite Hes, (store_extends_arr _ _ _ _ Hext Hes). cbn [mbind option_bind].
  assert (Hall : Forall (λ l, is_Some (objs (heap s) !! l)) es).
  { apply Forall_forall. intros l Hl. apply list_elem_of_lookup in Hl as [i Hi].
    by eapply closed_lookup; [apply Hok | exact Hes | exact Hi]. }
  assert (Heq : mapM (λ l, objs (heap s') !! l) es
                = mapM (λ l, objs (heap s) !! l) es).
  { apply Forall_mapM_ext. eapply Forall_impl; [exact Hall |].
    intros l [v Hv]. cbn beta. rewrite Hv. by eapply store_extends_obj. }
  split; [exact Heq |]. rewrite Heq. split; [by apply mapM_is_Some |].
  intros Htext Herrs. rewrite Htext, Herrs, Hes. cbn [mbind option_bind].
  done.
Qed.

Example apply_first_fix :
  (λ s, (displayText s, shown s)) <$> handleApplyFix 0 (mount stored_two_typos initial)
  = Some (lit "This is a tst.",
          Some [ {| type := Spelling;
                    position := {| start := 10; end_ := 13 |};
                    original := lit "tst"; suggestion := lit "test";
                    explanation := lit "Closest word";
                    sentenceIndex := 0 |} ]).
Proof. by vm_compute. Qed.

Lemma apply_fix_rewrites_and_shifts_witness :
  let s := mount stored_two_typos initial in
  ∃ err s' es',
    state_ok s
    ∧ arrs (heap s) !! displayErrors s = Some [0; 1]
    ∧ 0 ∈ [0; 1]
    ∧ objs (heap s) !! 0 = Some err
    ∧ slice (displayText s) (start (position err))
            (Some (end_ (position err))) = original err
    ∧ (∀ l v, l ∈ [0; 1] → objs (heap s) !! l = Some v →
              Fixes.safe_offsets err v)
    ∧ handleApplyFix 0 s = Some s'
    ∧ arrs (heap s') !! displayErrors s' = Some es'
    ∧ (0 ∉ es')
    ∧ fmap (M := option) (fmap (M := list) position) (shown s')
      = Some [ {| start := 10; end_ := 13 |} ].
Proof.
  intros s.
  assert (Hok : state_ok s) by apply mount_ok, state_ok_initial.
  assert (Hes : arrs (heap s) !! displayErrors s = Some [0; 1])
    by reflexivity.
  assert (Hin : 0 ∈ [0; 1]) by (apply (bool_decide_unpack _); exact I).
  destruct (objs (heap s) !! 0) as [err |] eqn:Herr; [| discriminate].
  assert (Hspan : slice (displayText s) (start (position err))
                        (Some (end_ (position err))) = original err)
    by (vm_compute in Herr; injection Herr as <-; reflexivity).
  assert (Hsafe : ∀ l v, l ∈ [0; 1] → objs (heap s) !! l = Some v →
                         Fixes.safe_offsets err v).
  { vm_compute in Herr. injection Herr as <-. intros l v Hl Hv.
    apply elem_of_cons in Hl as [-> | Hl];
      [| apply elem_of_cons in Hl as [-> | Hl];
         [| by apply elem_of_nil in Hl]];
      vm_compute in Hv; injection Hv as <-; by vm_compute. }
  destruct (apply_fix_rewrites_and_shifts s [0; 1] 0 err Hok Hes Hin Herr Hspan
              Hsafe)
    as (s' & es' & Hrun & _ & _ & _ & Hes' & Hnotin & _).
  exists err, s', es'. do 9 (split; [assumption || reflexivity |]).
  vm_compute in Hrun. injection Hrun as <-. reflexivity.
Defined.

Lemma fixes_keep_result_and_reset_restores_witness :
  let s := mount stored_two_typos initial in
  ∃ r s',
    state_ok s
    ∧ result s = Some r
    ∧ run [ApplyFix 1; ApplyFix 0; Reset; ApplyAllFixes] s = Some s'
    ∧ displayText (handleReset s') = originalText r
    ∧ displayErrors (handleReset s') = errors r.
Proof.
  intros s.
  assert (Hok : state_ok s) by apply mount_ok, state_ok_initial.
  destruct (result s) as [r |] eqn:Hr; [| discriminate].
  destruct (fixes_keep_result_and_reset_restores s r
              [ApplyFix 1; ApplyFix 0; Reset; ApplyAllFixes] Hok Hr)
    as (s' & Hrun & _ & _ & _ & Htext & Herrs & _).
  exists r, s'. repeat (split; [assumption || reflexivity |]). exact Herrs.
Defined.

Example fixes_then_reset :
  (λ s, (displayText s, displayText (handleReset s), shown (handleReset s)))
    <$> run [ApplyFix 1; ApplyFix 0] (mount stored_two_typos initial)
  = Some (lit "This is a test.", lit "Ths is a tst.",
          Some (rd_errors stored_two_typos)).
Proof. by vm_compute. Qed.

End ResultPageFacts.

(** ** The highlighted text *)

Section HighlightFacts.
Import HighlightedText.

(** *** The stable sort *)

Lemma insert_sorted_perm {A} (cmp : A → A → Z) (x : A) (l : list A) :
  insert_sorted cmp x l ≡ₚ x :: l.
Proof.
  induction l as [| y l IH]; [done |]. cbn.
  destruct (cmp x y <=? 0)%Z; [done |].
  rewrite IH. apply Permutation_swap.
Qed.

Lemma sort_perm {A} (cmp : A → A → Z) (l : list A) : sort cmp l ≡ₚ l.
Proof.
  induction l as [| x l IH]; [done |].
  unfold sort in *. cbn. by rewrite insert_sorted_perm, IH.
Qed.

Lemma chain_cons (x : loc * GrammarError) (l : list (loc * GrammarError)) :
  chain (x :: l)
  ↔ Forall (λ b, (end_ (position x.2) <= start (position b.2))%Z) l ∧ chain l.
Proof.
  unfold chain. split.
  - intros H. inversion H as [| ? ? Hx Hl]; subst.
    split; done.
  - intros [Hx Hl]. by constructor.
Qed.

Lemma insert_sorted_chain (x : loc * GrammarError)
    (l : list (loc * GrammarError)) :
  proper x.2 →
  Forall (λ y, proper y.2) l →
  Forall (λ y, earlier_ok x.2 y.2) l →
  chain l →
  chain (insert_sorted by_start x l).
Proof.
  intros Hx. induction l as [| y l IH]; intros Hwf Hsep Hch.
  - cbn. apply chain_cons. split; constructor.
  - apply Forall_cons in Hwf as [Hy Hwf].
    apply Forall_cons in Hsep as [Hxy Hsep].
    apply chain_cons in Hch as [Hyl Hch].
    cbn [insert_sorted]. unfold by_start at 1.
    destruct (Z.leb_spec (start (position x.2) - start (position y.2)) 0)
      as [Hle | Hgt].
    + apply chain_cons. split; [| by apply chain_cons].
      constructor.
      * unfold earlier_ok, proper in *. lia.
      * rewrite Forall_forall in Hsep, Hyl. apply Forall_forall.
        intros z Hz. specialize (Hsep z Hz). specialize (Hyl z Hz).
        unfold earlier_ok, proper in *. lia.
    + apply chain_cons. split; [| by apply IH].
      rewrite insert_sorted_perm. constructor; [| done].
      unfold earlier_ok, proper in *. lia.
Qed.

Lemma sort_chain (l : list (loc * GrammarError)) :
  Forall (λ y, proper y.2) l →
  ForallOrdPairs (λ a b, earlier_ok a.2 b.2) l →
  chain (sort by_start l).
Proof.
  induction l as [| x l IH]; intros Hwf Hsep.
  - constructor.
  - apply Forall_cons in Hwf as [Hx Hwf].
    inversion Hsep as [| ? ? Hxl Hl]; subst.
    unfold sort. cbn [foldr]. apply insert_sorted_chain; [done | | |].
    + fold (sort by_start l). by rewrite sort_perm.
    + fold (sort by_start l). by rewrite sort_perm.
    + by apply IH.
Qed.

(** *** The loop *)

Lemma slice_join (s : jsstring) (a b c : Z) :
  (0 <= a <= b)%Z → (b <= c)%Z → (c <= Z.of_nat (length s))%Z →
  slice s a (Some b) ++ slice s b (Some c) = slice s a (Some c).
Proof.
  intros Hab Hbc Hc. rewrite !slice_inside by lia.
  replace (drop (Z.to_nat b) s)
    with (drop (Z.to_nat b - Z.to_nat a) (drop (Z.to_nat a) s))
    by (rewrite drop_drop; f_equal; lia).
  rewrite take_take_drop. f_equal. lia.
Qed.

Lemma slice_to_end (s : jsstring) (a : Z) :
  slice s a None = slice s a (Some (Z.of_nat (length s))).
Proof. unfold slice. rewrite (relIndex_nonneg _ (Z.of_nat (length s))); f_equal; lia. Qed.

Lemma slice_whole (s : jsstring) :
  slice s 0 (Some (Z.of_nat (length s))) = s.
Proof. rewrite slice_prefix by lia. apply take_ge. lia. Qed.

Lemma fold_visit (text : jsstring) (sorted : list (loc * GrammarError))
    (acc : list TextSegment) (cur : Z) :
  fold_left (visit text) sorted (acc, cur)
  = (acc ++ (walk text cur sorted).1, (walk text cur sorted).2).
Proof.
  revert acc cur. induction sorted as [| [l e] rest IH]; intros acc cur.
  - cbn. by rewrite app_nil_r.
  - cbn [fold_left visit walk fst snd]. rewrite IH. f_equal.
    destruct (start (position e) >? cur)%Z; cbn [app];
      by rewrite <- ?app_assoc.
Qed.

Lemma build_walk (text : jsstring) (sorted : list (loc * GrammarError)) :
  build text sorted
  = let w := walk text 0 sorted in
    if (w.2 <? Z.of_nat (length text))%Z
    then w.1 ++ [ {| seg_text := slice text w.2 None; seg_error := None;
                     seg_start := w.2;
                     seg_end := Z.of_nat (length text) |} ]
    else w.1.
Proof. unfold build. by rewrite fold_visit. Qed.

Lemma last_end_app_cons (i : Z) (pre : list TextSegment) (x : TextSegment)
    (l : list TextSegment) :
  last_end i (pre ++ x :: l) = last_end (seg_end x) l.
Proof.
  unfold last_end. rewrite last_app_cons, last_cons.
  by destruct (last l).
Qed.

Lemma last_end_cons (i : Z) (x : TextSegment) (l : list TextSegment) :
  last_end i (x :: l) = last_end (seg_end x) l.
Proof. exact (last_end_app_cons i [] x l). Qed.

Lemma contiguous_from_app (i : Z) (l1 l2 : list TextSegment) :
  contiguous_from i (l1 ++ l2)
  ↔ contiguous_from i l1 ∧ contiguous_from (last_end i l1) l2.
Proof.
  revert i. induction l1 as [| x l1 IH]; intros i.
  - cbn. unfold last_end. cbn. tauto.
  - cbn [app contiguous_from]. rewrite IH.
    rewrite last_end_cons. tauto.
Qed.

(** Contiguous segments, none of negative length, start in ascending
    order. *)
Lemma contiguous_ascending (i : Z) (segs : list TextSegment) :
  contiguous_from i segs →
  Forall (λ sg, (seg_start sg <= seg_end sg)%Z) segs →
  ascending segs ∧ Forall (λ sg, (i <= seg_start sg)%Z) segs.
Proof.
  revert i. induction segs as [| x segs IH]; intros i Hc Hlen.
  - split; constructor.
  - destruct Hc as [Hx Hc]. apply Forall_cons in Hlen as [Hxl Hlen].
    destruct (IH _ Hc Hlen) as [Hasc Hge].
    assert (Hall : Forall (λ sg, (seg_start x <= seg_start sg)%Z) segs).
    { eapply Forall_impl; [exact Hge |]. cbn beta. intros. lia. }
    split.
    + constructor; [exact Hasc | exact Hall].
    + constructor; [lia |]. eapply Forall_impl; [exact Hall |].
      cbn beta. intros. lia.
Qed.

(** The loop over a chain of spans that lie between [cur] and the end of the
    text. *)
Lemma walk_spec (text : jsstring) (sorted : list (loc * GrammarError)) :
  ∀ cur,
    (0 <= cur)%Z →
    Forall (λ y, (cur <= start (position y.2))%Z ∧ proper y.2
                 ∧ (end_ (position y.2) <= Z.of_nat (length text))%Z) sorted →
    chain sorted →
    (cur <= Z.of_nat (length text))%Z →
    let w := walk text cur sorted in
    contiguous_from cur w.1
    ∧ last_end cur w.1 = w.2
    ∧ (cur <= w.2 <= Z.of_nat (length text))%Z
    ∧ concat (map seg_text w.1) = slice text cur (Some w.2)
    ∧ Forall (λ sg, (seg_start sg <= seg_end sg)%Z) w.1.
Proof.
  induction sorted as [| [l e] rest IH]; intros cur Hcur Hall Hch Hlen.
  - cbn. unfold last_end. cbn.
    split; [done |]. split; [done |]. split; [lia |]. split; [| constructor].
    rewrite slice_inside by lia. by rewrite Nat.sub_diag.
  - apply Forall_cons in Hall as [(Hs & Hp & He) Hall].
    apply chain_cons in Hch as [Hnext Hch]. unfold proper in Hp.
    cbn [snd] in *.
    destruct (IH (end_ (position e))) as (Hc & Hl & Hb & Hcat & Hpos);
      [lia | | done | lia |].
    { rewrite Forall_forall in Hall, Hnext. apply Forall_forall.
      intros y Hy. destruct (Hall y Hy) as (_ & ? & ?).
      specialize (Hnext y Hy). by repeat split. }
    cbn [walk fst snd]. cbn zeta in Hc, Hl, Hb, Hcat, Hpos.
    set (w := walk text (end_ (position e)) rest) in *.
    destruct (Z.gtb_spec (start (position e)) cur) as [Hgt | Hle].
    + cbn [app contiguous_from seg_start seg_end map concat seg_text].
      rewrite !last_end_cons. cbn [seg_end].
      split; [done |]. split; [done |]. split; [lia |]. split.
      * rewrite Hcat, slice_join by lia. rewrite slice_join by lia. done.
      * constructor; [cbn; lia |]. constructor; [cbn; lia | done].
    + assert (start (position e) = cur) as Heq by lia.
      cbn [app contiguous_from seg_start seg_end map concat seg_text].
      rewrite last_end_cons. cbn [seg_end].
      split; [done |]. split; [done |]. split; [lia |]. split.
      * rewrite Hcat, Heq, slice_join by lia. done.
      * constructor; [cbn; lia | done].
Qed.

Lemma walk_errors (text : jsstring) (sorted : list (loc * GrammarError))
    (cur : Z) :
  omap seg_error (walk text cur sorted).1 = map fst sorted.
Proof.
  revert cur. induction sorted as [| [l e] rest IH]; intros cur; [done |].
  cbn [walk fst map]. rewrite omap_app.
  destruct (start (position e) >? cur)%Z; cbn; by rewrite IH.
Qed.

Lemma walk_carries (text : jsstring) (sorted : list (loc * GrammarError))
    (cur : Z) (l : loc) (e : GrammarError) :
  (l, e) ∈ sorted →
  {| seg_text := slice text (start (position e)) (Some (end_ (position e)));
     seg_error := Some l;
     seg_start := start (position e);
     seg_end := end_ (position e) |} ∈ (walk text cur sorted).1.
Proof.
  revert cur. induction sorted as [| [l' e'] rest IH]; intros cur Hin.
  - by apply elem_of_nil in Hin.
  - cbn [walk fst]. apply elem_of_app. right.
    apply elem_of_cons in Hin as [[= -> ->] | Hin]; [left |].
    right. by apply IH.
Qed.

(** *** The memoised segments *)

Lemma read_pairs (h : Store) (es : list loc) (vals : list GrammarError) :
  mapM (λ l, objs h !! l) es = Some vals →
  mapM (λ l, (λ v, (l, v)) <$> objs h !! l) es = Some (zip es vals)
  ∧ length es = length vals.
Proof.
  intros H. apply mapM_Some in H. split; [| by eapply Forall2_length].
  apply mapM_Some. induction H as [| l v es vals Hl _ IH]; [constructor |].
  cbn [zip zip_with]. constructor; [by rewrite Hl | exact IH].
Qed.

Lemma segments_unfold (text : jsstring) (errors : aref) (h : Store)
    (es : list loc) (vals : list GrammarError) :
  arrs h !! errors = Some es →
  mapM (λ l, objs h !! l) es = Some vals →
  segments text errors h
  = Some (if length es =? 0
          then ([ {| seg_text := text; seg_error := None; seg_start := 0;
                     seg_end := Z.of_nat (length text) |} ], h)
          else (build text (sort by_start (zip es vals)),
                {| objs := objs h;
                   arrs := arrs h
                           ++ [map fst (sort by_start (zip es vals))] |})).
Proof.
  intros Hes Hvals. unfold segments. rewrite Hes. cbn [mbind option_bind].
  destruct (length es =? 0); [done |].
  cbn [alloc_arr objs arrs]. rewrite list_lookup_middle by done.
  cbn [mbind option_bind]. destruct (read_pairs h es vals Hvals) as [-> _].
  cbn [mbind option_bind]. unfold write_arr. cbn [objs arrs].
  rewrite insert_app_r_alt by done. by rewrite Nat.sub_diag.
Qed.

Lemma ForallOrdPairs_zip {A} (R : GrammarError → GrammarError → Prop)
    (ks : list A) (vals : list GrammarError) :
  length ks = length vals →
  ForallOrdPairs R vals →
  ForallOrdPairs (λ a b : A * GrammarError, R a.2 b.2) (zip ks vals).
Proof.
  revert ks. induction vals as [| v vals IH]; intros [| k ks] Hlen H;
    try discriminate; [constructor |].
  inversion H as [| ? ? Hv Hvals]; subst. cbn [zip zip_with].
  constructor; [| apply IH; [by injection Hlen | done]].
  apply Forall_forall. intros [k' v'] Hin.
  apply elem_of_zip_r in Hin. cbn. by eapply Forall_forall in Hv.
Qed.

(** Spans that are separated do not overlap, and spans that do not overlap
    are separated when none of them is empty. *)
Lemma separated_non_overlapping (vals : list GrammarError) :
  separated vals → non_overlapping vals.
Proof.
  unfold separated, non_overlapping.
  induction 1 as [| v vals Hv _ IH]; constructor; [| exact IH].
  eapply List.Forall_impl; [| exact Hv]. unfold earlier_ok. cbn beta.
  intros. lia.
Qed.

Lemma separated_iff (vals : list GrammarError) :
  Forall proper vals →
  separated vals ↔ non_overlapping vals ∧ no_insertion_after vals.
Proof.
  unfold separated, non_overlapping, no_insertion_after.
  induction vals as [| v vals IH]; intros Hp.
  - split; [intros _; split; constructor | constructor].
  - apply Forall_cons in Hp as [Hv Hp]. specialize (IH Hp).
    rewrite Forall_forall in Hp. unfold proper in Hv, Hp. split.
    + intros H. inversion H as [| ? ? Hvb Hrest]; subst.
      apply IH in Hrest as [Hn Hi]. rewrite Forall_forall in Hvb.
      split; (constructor; [| done]); apply Forall_forall; intros b Hb;
        specialize (Hvb b Hb); specialize (Hp b Hb);
        unfold earlier_ok in Hvb; lia.
    + intros [Hn Hi].
      inversion Hn as [| ? ? Hn1 Hn2]; inversion Hi as [| ? ? Hi1 Hi2]; subst.
      constructor; [| by apply IH].
      rewrite Forall_forall in Hn1, Hi1. apply Forall_forall. intros b Hb.
      specialize (Hn1 b Hb). specialize (Hi1 b Hb). specialize (Hp b Hb).
      unfold earlier_ok. lia.
Qed.

Lemma non_overlapping_separated (vals : list GrammarError) :
  Forall (λ e, (start (position e) < end_ (position e))%Z) vals →
  non_overlapping vals → separated vals.
Proof.
  unfold separated, non_overlapping. intros Hne H.
  induction H as [| v vals Hv _ IH]; [constructor |].
  apply Forall_cons in Hne as [Hv0 Hne].
  constructor; [| by apply IH].
  apply Forall_forall. intros b Hb.
  pose proof (proj1 (Forall_forall _ _) Hv b Hb) as H1.
  pose proof (proj1 (Forall_forall _ _) Hne b Hb) as H2.
  unfold earlier_ok. cbn beta in *. lia.
Qed.

Lemma walk_nonempty (text : jsstring) (sorted : list (loc * GrammarError))
    (cur : Z) :
  sorted ≠ [] → (walk text cur sorted).1 ≠ [].
Proof.
  destruct sorted as [| [l e] rest]; [done |]. intros _. cbn [walk fst].
  by destruct (start (position e) >? cur)%Z.
Qed.

(** The segments built from a chain of spans inside the text. *)
Lemma build_spec (text : jsstring) (sorted : list (loc * GrammarError)) :
  sorted ≠ [] →
  Forall (λ y, (0 <= start (position y.2))%Z ∧ proper y.2
               ∧ (end_ (position y.2) <= Z.of_nat (length text))%Z) sorted →
  chain sorted →
  covers (Z.of_nat (length text)) (build text sorted)
  ∧ ascending (build text sorted)
  ∧ concat (map seg_text (build text sorted)) = text
  ∧ omap seg_error (build text sorted) = map fst sorted
  ∧ ∀ l e, (l, e) ∈ sorted →
      {| seg_text := slice text (start (position e))
                           (Some (end_ (position e)));
         seg_error := Some l;
         seg_start := start (position e);
         seg_end := end_ (position e) |} ∈ build text sorted.
Proof.
  intros Hne Hall Hch.
  destruct (walk_spec text sorted 0 ltac:(lia) Hall Hch ltac:(lia))
    as (Hc & Hl & Hb & Hcat & Hpos).
  pose proof (walk_nonempty text sorted 0 Hne) as Hw.
  pose proof (walk_errors text sorted 0) as Herrs.
  pose proof (walk_carries text sorted 0) as Hcarry.
  rewrite build_walk. cbn zeta in *.
  set (w := walk text 0 sorted) in *.
  set (tail := {| seg_text := slice text w.2 None; seg_error := None;
                  seg_start := w.2; seg_end := Z.of_nat (length text) |}).
  assert (Hsegs :
    (if (w.2 <? Z.of_nat (length text))%Z then w.1 ++ [tail] else w.1)
    = w.1 ++ (if (w.2 <? Z.of_nat (length text))%Z then [tail] else []))
    by (destruct (w.2 <? Z.of_nat (length text))%Z; by rewrite ?app_nil_r).
  rewrite Hsegs. clear Hsegs.
  destruct (Z.ltb_spec w.2 (Z.of_nat (length text))) as [Hlt | Hge].
  - split; [split; [| split] | split; [| split; [| split]]].
    + intros H. by apply app_eq_nil in H as [_ [=]].
    + apply contiguous_from_app. split; [done |]. by rewrite Hl.
    + by rewrite last_end_app_cons.
    + eapply proj1, (contiguous_ascending 0).
      * apply contiguous_from_app. split; [done |]. by rewrite Hl.
      * apply Forall_app. split; [done |]. constructor; [cbn; lia | done].
    + rewrite map_app, concat_app, Hcat. cbn [map concat seg_text tail].
      rewrite app_nil_r, slice_to_end, slice_join by lia.
      apply slice_whole.
    + rewrite omap_app, Herrs. cbn. by rewrite app_nil_r.
    + intros l e Hin. apply elem_of_app. left. by apply Hcarry.
  - rewrite app_nil_r. assert (w.2 = Z.of_nat (length text)) as Hend by lia.
    split; [split; [| split] | split; [| split; [| split]]].
    + done.
    + done.
    + by rewrite Hl.
    + by eapply proj1, (contiguous_ascending 0).
    + rewrite Hcat, Hend. apply slice_whole.
    + done.
    + intros l e Hin. by apply Hcarry.
Qed.

(** C9, as stated, fails: over ["abcde"], a replacement of ["de"] followed
    in the array by an insertion at offset 3 are two spans that do not
    overlap and lie in the text, yet the segments spell ["abcdede"]. *)
Lemma insertion_after_replacement_repeats_text :
  ¬ (∀ (text : jsstring) (errors : aref) (h : Store)
       (es : list loc) (vals : list GrammarError),
       arrs h !! errors = Some es →
       mapM (λ l, objs h !! l) es = Some vals →
       non_overlapping vals →
       contained text vals →
       ∃ segs h',
         segments text errors h = Some (segs, h')
         ∧ concat (map seg_text segs) = text).
Proof.
  intros H.
  destruct (H (lit "abcde") 0 insertion_after_replacement [0; 1]
              (objs insertion_after_replacement))
    as (segs & h' & Hrun & Hcat).
  - reflexivity.
  - reflexivity.
  - constructor; [| constructor; [constructor | constructor]].
    constructor; [cbn; lia | constructor].
  - repeat constructor; cbn; lia.
  - vm_compute in Hrun. injection Hrun as <- _. discriminate Hcat.
Qed.

Example insertion_after_replacement_segments :
  (λ r, map (λ sg, (seg_text sg, seg_start sg, seg_end sg)) r.1)
    <$> segments (lit "abcde") 0 insertion_after_replacement
  = Some [ (lit "abc", 0%Z, 3%Z); (lit "de", 3%Z, 5%Z); (lit "", 3%Z, 3%Z);
           (lit "de", 3%Z, 5%Z) ].
Proof. reflexivity. Qed.

(** C9, amended: for a display text and an array of errors whose spans lie
    within [[0, text.length]], do not overlap and have no empty span placed
    later in the array than a non-empty span with the same start, the
    segments are contiguous from 0 to [text.length], in ascending order of
    their starts, and their texts concatenate to the display text; the
    segments that carry an error are the errors of the array, each with its
    own span and the text of that span; and the array handed in holds the
    same references afterwards, the sort having worked on a copy. *)
Theorem segments_tile_text
    (text : jsstring) (errors : aref) (h : Store)
    (es : list loc) (vals : list GrammarError)
    (Hes : arrs h !! errors = Some es)
    (Hvals : mapM (λ l, objs h !! l) es = Some vals)
    (Hin : contained text vals)
    (Hno : non_overlapping vals)
    (Hins : no_insertion_after vals) :
  ∃ segs h',
    segments text errors h = Some (segs, h')
    ∧ covers (Z.of_nat (length text)) segs
    ∧ ascending segs
    ∧ concat (map seg_text segs) = text
    ∧ omap seg_error segs ≡ₚ es
    ∧ (∀ i l e, es !! i = Some l → vals !! i = Some e →
         {| seg_text := slice text (start (position e))
                              (Some (end_ (position e)));
            seg_error := Some l;
            seg_start := start (position e);
            seg_end := end_ (position e) |} ∈ segs)
    ∧ arrs h' !! errors = Some es
    ∧ objs h' = objs h
    ∧ arrs h `prefix_of` arrs h'.
Proof.
  assert (Hsep : separated vals).
  { apply separated_iff; [| done].
    eapply Forall_impl; [exact Hin |]. unfold proper. cbn beta. lia. }
  rewrite (segments_unfold text errors h es vals Hes Hvals).
  destruct (read_pairs h es vals Hvals) as [_ Hlen].
  destruct es as [| l0 es'].
  - destruct vals; [| discriminate]. cbn [length Nat.eqb].
    eexists _, h. split; [reflexivity |].
    split; [by repeat split |]. split; [repeat constructor |].
    split; [cbn; by rewrite app_nil_r |]. split; [done |].
    split; [intros i l e Hi; by rewrite lookup_nil in Hi |]. done.
  - set (es := l0 :: es') in *. cbn [length Nat.eqb].
    set (sorted := sort by_start (zip es vals)).
    assert (Hperm : sorted ≡ₚ zip es vals) by apply sort_perm.
    assert (Hzip : Forall (λ y : loc * GrammarError,
                     (0 <= start (position y.2))%Z ∧ proper y.2
                     ∧ (end_ (position y.2) <= Z.of_nat (length text))%Z)
                   (zip es vals)).
    { apply Forall_forall. intros [l e] Hle. apply elem_of_zip_r in Hle.
      eapply Forall_forall in Hin; [| exact Hle]. unfold proper. cbn. lia. }
    assert (Hch : chain sorted).
    { apply sort_chain.
      - eapply Forall_impl; [exact Hzip |]. cbn beta. tauto.
      - by apply ForallOrdPairs_zip. }
    assert (Hne : sorted ≠ []).
    { intros Hnil. rewrite Hnil in Hperm. apply Permutation_length in Hperm.
      destruct vals; discriminate. }
    destruct (build_spec text sorted Hne) as (Hcov & Hasc & Hcat & Herrs & Hcarry);
      [by rewrite Hperm | done |].
    eexists _, _. split; [reflexivity |].
    split; [done |]. split; [done |]. split; [done |]. split; [| split].
    + rewrite Herrs, Hperm, fst_zip; [done | lia].
    + intros i l e Hi He. apply Hcarry. rewrite Hperm.
      apply list_elem_of_lookup. exists i. by apply lookup_zip_Some.
    + cbn [arrs objs]. split; [| split; [done | by apply prefix_app_r]].
      by apply lookup_app_l_Some.
Qed.

Lemma segments_tile_text_witness :
  let s := ResultPage.mount ResultPage.stored_two_typos ResultPage.initial in
  let text := ResultPage.displayText s in
  let h := ResultPage.heap s in
  let vals := ResultPage.rd_errors ResultPage.stored_two_typos in
  arrs h !! 1 = Some [0; 1]
  ∧ mapM (λ l, objs h !! l) [0; 1] = Some vals
  ∧ contained text vals
  ∧ non_overlapping vals
  ∧ no_insertion_after vals
  ∧ ∃ segs h',
      segments text 1 h = Some (segs, h')
      ∧ concat (map seg_text segs) = text
      ∧ arrs h' !! 1 = Some [0; 1].
Proof.
  intros s text h vals.
  assert (Hes : arrs h !! 1 = Some [0; 1]) by reflexivity.
  assert (Hvals : mapM (λ l, objs h !! l) [0; 1] = Some vals) by reflexivity.
  assert (Hin : contained text vals) by (repeat constructor; cbn; lia).
  assert (Hno : non_overlapping vals).
  { constructor; [| constructor; [constructor | constructor]].
    constructor; [left; cbn; lia | constructor]. }
  assert (Hins : no_insertion_after vals).
  { constructor; [| constructor; [constructor | constructor]].
    constructor; [cbn; lia | constructor]. }
  split; [exact Hes | split; [exact Hvals | split; [exact Hin |]]].
  split; [exact Hno | split; [exact Hins |]].
  destruct (segments_tile_text text 1 h [0; 1] vals Hes Hvals Hin Hno Hins)
    as (segs & h' & Hrun & _ & _ & Hcat & _ & _ & Hsame & _).
  by exists segs, h'.
Defined.

End HighlightFacts.

(** ** The analysis engine *)

Section KneserNey.
Import Engine.

(** C5: for every context [c] and word [w] the estimate is the discounted
    term plus [lambda(c)] times the continuation probability, with
    [d = 0.75]; when [count(c) > 0] the discounted term is
    [max(count(c,w) - d, 0) / count(c)] and
    [lambda(c) = d * distinct_continuations(c) / count(c)]; when
    [count(c) = 0] the discounted term is 0 and [lambda(c) = 1], so the
    estimate is the continuation probability; this holds whatever the
    length of the context, and at the unigram order the continuation
    probability is the relative frequency of the word. *)
Theorem kneser_ney_formula (lm : LanguageModel) (c : list word) (w : word) :
  (P_KN lm c w
   == discounted_term lm c w
      + lambda lm c * P_continuation lm (S (length c)) w)%Q
  ∧ (d == 3 # 4)%Q
  ∧ (0 < count_context lm c →
     discounted_term lm c w
     = (Qmax (Qnat (count_joint lm c w) - d) 0 / Qnat (count_context lm c))%Q
     ∧ lambda lm c
       = (d * Qnat (distinct_continuations lm c)
          / Qnat (count_context lm c))%Q)
  ∧ (count_context lm c = 0 →
     discounted_term lm c w = 0%Q
     ∧ lambda lm c = 1%Q
     ∧ (P_KN lm c w == P_continuation lm (S (length c)) w)%Q)
  ∧ P_continuation lm 1 w
    = (Qnat (count_ngram lm [w]) / Qnat (total_words lm))%Q.
Proof.
  unfold P_KN, discounted_term, lambda.
  split; [| split; [reflexivity | split; [| split; [| reflexivity]]]].
  - destruct (count_context lm c) as [| n]; cbn [Nat.eqb].
    + rewrite Qplus_0_l, Qmult_1_l. reflexivity.
    + reflexivity.
  - intros Hpos. destruct (count_context lm c); [lia | done].
  - intros ->. cbn [Nat.eqb]. repeat split; reflexivity.
Qed.

(** A small model: "he goes" and "he go" seen once each. *)
Example kneser_ney_small :
  let lm := {| unigrams := {[ [lit "he"] := 2; [lit "goes"] := 1;
                              [lit "go"] := 1 ]};
               bigrams := {[ [lit "he"; lit "goes"] := 1;
                             [lit "he"; lit "go"] := 1 ]};
               trigrams := ∅;
               vocabulary := {[ lit "he"; lit "goes"; lit "go" ]} |} in
  Qeq_bool (P_KN lm [lit "he"] (lit "goes")) (1 # 2) = true
  ∧ Qeq_bool (P_KN lm [lit "she"] (lit "goes")) (1 # 2) = true
  ∧ Qeq_bool (P_KN lm [] (lit "he")) (19 # 32) = true.
Proof. by vm_compute. Qed.

End KneserNey.

Section StableSort.
Context {A : Type} (key : A → Z).

Lemma insert_sorted_sorted (x : A) (l : list A) :
  StronglySorted (λ a b, (key a <= key b)%Z) l →
  StronglySorted (λ a b, (key a <= key b)%Z) (insert_sorted (by_key key) x l).
Proof.
  induction l as [| y l IH]; intros Hs; cbn [insert_sorted].
  - repeat constructor.
  - apply StronglySorted_inv in Hs as [Hl Hy]. unfold by_key at 1.
    destruct (Z.leb_spec (key x - key y) 0).
    + constructor; [by constructor |]. constructor; [lia |].
      eapply List.Forall_impl; [| exact Hy]. cbn beta. intros. lia.
    + constructor; [by apply IH |].
      rewrite insert_sorted_perm. constructor; [lia | done].
Qed.

Lemma sort_sorted (l : list A) :
  StronglySorted (λ a b, (key a <= key b)%Z) (sort (by_key key) l).
Proof.
  induction l as [| x l IH]; [constructor |].
  unfold sort. cbn [foldr]. by apply insert_sorted_sorted.
Qed.

Lemma filter_insert_sorted (P : A → Prop) `{!∀ a, Decision (P a)}
    (x : A) (l : list A) :
  StronglySorted (λ a b, (key a <= key b)%Z) l →
  filter P (insert_sorted (by_key key) x l)
  = if decide (P x) then insert_sorted (by_key key) x (filter P l) else filter P l.
Proof.
  induction l as [| y l IH]; intros Hs; cbn [insert_sorted].
  - rewrite filter_cons, filter_nil. by destruct (decide (P x)).
  - apply StronglySorted_inv in Hs as [Hl Hy]. unfold by_key at 1.
    destruct (Z.leb_spec (key x - key y) 0) as [Hle | Hgt].
    + rewrite (filter_cons _ x). destruct (decide (P x)) as [Hx | Hx]; [| done].
      rewrite (filter_cons _ y). destruct (decide (P y)) as [Hp | Hp].
      * cbn [insert_sorted]. unfold by_key at 1.
        destruct (Z.leb_spec (key x - key y) 0); [done | lia].
      * destruct (filter P l) as [| z l'] eqn:Hf; [done |].
        cbn [insert_sorted]. unfold by_key at 1.
        assert (Hz : z ∈ l).
        { eapply (list_elem_of_filter P). rewrite Hf. left. }
        eapply Forall_forall in Hy; [| exact Hz].
        destruct (Z.leb_spec (key x - key z) 0); [done | lia].
    + rewrite !(filter_cons _ y), IH by done.
      destruct (decide (P y)) as [Hp | Hp]; [| done].
      destruct (decide (P x)) as [Hx | Hx]; [| done].
      cbn [insert_sorted]. unfold by_key at 2.
      destruct (Z.leb_spec (key x - key y) 0); [lia | done].
Qed.

(** Filtering commutes with the stable sort. *)
Lemma filter_sort (P : A → Prop) `{!∀ a, Decision (P a)} (l : list A) :
  filter P (sort (by_key key) l) = sort (by_key key) (filter P l).
Proof.
  induction l as [| x l IH]; [done |].
  unfold sort at 1. cbn [foldr]. fold (sort (by_key key) l).
  rewrite filter_insert_sorted by apply sort_sorted.
  rewrite filter_cons, IH. by destruct (decide (P x)).
Qed.

End StableSort.

Section Orchestration.
Import Engine.

Variable probability : list word → word → Q.
Variable in_vocabulary : word → bool.
Variable candidates : word → list word.
Variable spell_suggestion : word → option word.
Variable punctuation_rules :
  jsstring → list (Z * Z * jsstring * jsstring * jsstring).
Variable segment : jsstring → list (jsstring * list Token).
Variable fluency : list Token → Q.

Local Abbreviation grammar := (grammar_pass probability in_vocabulary candidates).
Local Abbreviation spelling := (spelling_pass in_vocabulary spell_suggestion).
Local Abbreviation punctuation := (punctuation_pass punctuation_rules).
Local Abbreviation sentence_flags cfg m idx sentence toks :=
  (s_errors (analyze_sentence probability in_vocabulary candidates
               spell_suggestion punctuation_rules fluency
               cfg m idx sentence toks)).

Lemma should_flag_room (cfg : Config) (N corrected : nat)
    (p_original p_best : Q) :
  should_flag cfg N corrected p_original p_best = true →
  (Z.of_nat (S corrected) <= Qfloor (cap cfg * Qnat N))%Z.
Proof.
  unfold should_flag. intros H. apply andb_true_iff in H as [_ H].
  apply Qle_bool_iff, Qfloor_resp_le in H. unfold Qnat in H.
  by rewrite Qfloor_Z in H.
Qed.

Lemma grammar_pass_kind (cfg : Config) (m : Mode) (idx : Z) (N : nat)
    (toks : list Token) :
  ∀ prev corrected,
    Forall (λ f, kind f = KGrammar) (grammar cfg m idx N prev corrected toks).
Proof.
  induction toks as [| t toks IH]; intros prev corrected; [constructor |].
  cbn [grammar_pass]. destruct (isWord t); [| apply IH].
  destruct (in_vocabulary _); [| apply IH].
  destruct (best_candidate _ _ _ _) as [b |]; [| apply IH].
  destruct (should_flag _ _ _ _ _); [| apply IH].
  constructor; [done | apply IH].
Qed.

(** The running count never passes the cap. *)
Lemma grammar_pass_bound (cfg : Config) (m : Mode) (idx : Z) (N : nat)
    (toks : list Token) :
  ∀ prev corrected,
    (Z.of_nat corrected <= Qfloor (cap cfg * Qnat N))%Z →
    (Z.of_nat (corrected + length (grammar cfg m idx N prev corrected toks))
     <= Qfloor (cap cfg * Qnat N))%Z.
Proof.
  induction toks as [| t toks IH]; intros prev corrected Hc.
  - cbn. by rewrite Nat.add_0_r.
  - cbn [grammar_pass]. destruct (isWord t); [| by apply IH].
    destruct (in_vocabulary _); [| by apply IH].
    destruct (best_candidate _ _ _ _) as [b |]; [| by apply IH].
    destruct (should_flag _ _ _ _ _) eqn:Hflag; [| by apply IH].
    apply should_flag_room in Hflag. cbn [length].
    rewrite Nat.add_succ_r, <- Nat.add_succ_l. by apply IH.
Qed.

(** Once the cap is reached, nothing more is flagged. *)
Lemma grammar_pass_full (cfg : Config) (m : Mode) (idx : Z) (N : nat)
    (toks : list Token) :
  ∀ prev corrected,
    (Qfloor (cap cfg * Qnat N) <= Z.of_nat corrected)%Z →
    grammar cfg m idx N prev corrected toks = [].
Proof.
  induction toks as [| t toks IH]; intros prev corrected Hc; [done |].
  cbn [grammar_pass]. destruct (isWord t); [| by apply IH].
  destruct (in_vocabulary _); [| by apply IH].
  destruct (best_candidate _ _ _ _) as [b |]; [| by apply IH].
  destruct (should_flag _ _ _ _ _) eqn:Hflag; [| by apply IH].
  apply should_flag_room in Hflag. lia.
Qed.

Lemma spelling_pass_kind (idx : Z) (toks : list Token) :
  Forall (λ f, kind f = KSpelling) (spelling idx toks).
Proof.
  unfold spelling_pass.
  induction toks as [| t toks IH]; [constructor |]. cbn [omap list_omap].
  destruct (isWord t && negb (in_vocabulary (toLowerCase (tok_text t))));
    [| exact IH].
  destruct (spell_suggestion (toLowerCase (tok_text t))); cbn;
    [by constructor | exact IH].
Qed.

Lemma punctuation_pass_kind (idx : Z) (sentence : jsstring) :
  Forall (λ f, kind f = KPunctuation) (punctuation idx sentence).
Proof.
  unfold punctuation_pass. apply Forall_map.
  apply Forall_forall. by intros [[[[a b] o] s] e] _.
Qed.

Lemma filter_all {B} (P : B → Prop) `{!∀ a, Decision (P a)} (l : list B) :
  Forall P l → filter P l = l.
Proof.
  induction 1 as [| x l Hx _ IH]; [done |].
  rewrite filter_cons, IH. by destruct (decide (P x)).
Qed.

Lemma filter_none {B} (P : B → Prop) `{!∀ a, Decision (P a)} (l : list B) :
  Forall (λ x, ¬ P x) l → filter P l = [].
Proof.
  induction 1 as [| x l Hx _ IH]; [done |].
  rewrite filter_cons, IH. by destruct (decide (P x)).
Qed.

Lemma sentence_flags_grammar (cfg : Config) (m : Mode) (idx : Z)
    (sentence : jsstring) (toks : list Token) :
  filter (λ f, kind f = KGrammar) (sentence_flags cfg m idx sentence toks)
  = sort (by_key f_start)
         (grammar cfg m idx (sentence_word_count toks) [] 0 toks).
Proof.
  unfold analyze_sentence. cbn [s_errors].
  rewrite (filter_sort f_start), !filter_app.
  rewrite (filter_none _ (spelling_pass _ _ _ _)),
          (filter_none _ (punctuation_pass _ _ _)),
          (filter_all _ (grammar_pass _ _ _ _ _ _ _ _ _ _)).
  - by rewrite app_nil_r.
  - apply grammar_pass_kind.
  - eapply Forall_impl; [apply punctuation_pass_kind |]. cbn beta. congruence.
  - eapply Forall_impl; [apply spelling_pass_kind |]. cbn beta. congruence.
Qed.

Lemma sentence_flags_other (cfg : Config) (m : Mode) (idx : Z)
    (sentence : jsstring) (toks : list Token) :
  filter (λ f, kind f ≠ KGrammar) (sentence_flags cfg m idx sentence toks)
  = sort (by_key f_start)
         (spelling idx toks ++ punctuation idx sentence).
Proof.
  unfold analyze_sentence. cbn [s_errors].
  rewrite (filter_sort f_start), !filter_app.
  rewrite (filter_all _ (spelling_pass _ _ _ _)),
          (filter_all _ (punctuation_pass _ _ _)),
          (filter_none _ (grammar_pass _ _ _ _ _ _ _ _ _ _)).
  - done.
  - eapply Forall_impl; [apply grammar_pass_kind |]. cbn beta.
    intros f Hf Hn. by apply Hn.
  - eapply Forall_impl; [apply punctuation_pass_kind |]. cbn beta. congruence.
  - eapply Forall_impl; [apply spelling_pass_kind |]. cbn beta. congruence.
Qed.

(** C4: in the analysis of a sentence with [N] word tokens under the
    default policy, the grammar flags number at most [floor(0.30 * N)],
    whatever the candidates and their probabilities; once the running
    count has reached that cap the grammar pass raises nothing more; and
    the spelling and punctuation flags of the sentence are the same under
    every policy, hence untouched by the cap. *)
Theorem grammar_corrections_capped (cfg : Config) (m : Mode) (idx : Z)
    (sentence : jsstring) (toks : list Token) :
  let N := sentence_word_count toks in
  (Z.of_nat (length (filter (λ f, kind f = KGrammar)
                            (sentence_flags default_config m idx sentence toks)))
   <= Qfloor ((30 # 100) * Qnat N))%Z
  ∧ (∀ prev corrected rest,
       (Qfloor ((30 # 100) * Qnat N) <= Z.of_nat corrected)%Z →
       grammar default_config m idx N prev corrected rest = [])
  ∧ filter (λ f, kind f ≠ KGrammar) (sentence_flags cfg m idx sentence toks)
    = filter (λ f, kind f ≠ KGrammar)
             (sentence_flags default_config m idx sentence toks).
Proof.
  intros N. split; [| split].
  - rewrite sentence_flags_grammar.
    rewrite (Permutation_length (sort_perm _ _)).
    apply (grammar_pass_bound default_config m idx N toks [] 0).
    cbn [cap default_config].
    change (Qfloor (inject_Z 0) <= Qfloor ((30 # 100) * Qnat N))%Z.
    apply Qfloor_resp_le. unfold Qle, Qmult, Qnat, inject_Z.
    cbn [Qnum Qden]. lia.
  - intros prev corrected rest.
    apply (grammar_pass_full default_config m idx N rest prev corrected).
  - by rewrite !sentence_flags_other.
Qed.

Lemma trimStart_blank (text : jsstring) :
  Forall (λ c, isWhiteSpace c = true) text → trimStart text = [].
Proof.
  induction 1 as [| c text Hc _ IH]; [done |]. cbn. by rewrite Hc.
Qed.

Lemma trim_blank (text : jsstring) :
  Forall (λ c, isWhiteSpace c = true) text → trim text = [].
Proof. intros H. unfold trim. by rewrite (trimStart_blank text H). Qed.

(** C8: for an input that is empty or made of white space only, the
    analysis has no sentence and no error and reports the confidence
    100. *)
Theorem blank_input_yields_nothing (cfg : Config) (m : Mode) (text : jsstring)
    (Hblank : Forall (λ c, isWhiteSpace c = true) text) :
  let r := analyze probability in_vocabulary candidates spell_suggestion
             punctuation_rules segment fluency cfg m text in
  r_sentences r = [] ∧ r_errors r = [] ∧ r_confidenceScore r = 100%Q.
Proof.
  unfold analyze, is_blank. by rewrite (trim_blank text Hblank).
Qed.

End Orchestration.

Section OrchestrationExamples.
Import Engine.

(** Four words, each of them worth a correction: the cap [floor(1.2) = 1]
    leaves one flag, on the first word. *)
Example four_words_one_flag :
  map (λ f, (f_start f, f_suggestion f))
      (grammar_pass demo_probability (λ _, true) demo_candidates
         default_config MTrigram 0 4 [] 0
         [demo_word 0; demo_word 1; demo_word 2; demo_word 3])
  = [(0%Z, lit "goes")].
Proof. by vm_compute. Qed.

(** Without the cap (a cap of 100%) all four are flagged. *)
Example four_words_uncapped :
  length (grammar_pass demo_probability (λ _, true) demo_candidates
            {| ratio := 2; cap := 1 |} MTrigram 0 4 [] 0
            [demo_word 0; demo_word 1; demo_word 2; demo_word 3])
  = 4.
Proof. by vm_compute. Qed.

Lemma blank_input_yields_nothing_witness :
  let text := [" "%char; ascii_of_nat 9; ascii_of_nat 10; " "%char] in
  let r := analyze demo_probability (λ _, true) demo_candidates (λ _, None)
             demo_rules demo_segment (λ _, 50%Q)
             default_config MTrigram text in
  Forall (λ c, isWhiteSpace c = true) text
  ∧ r_sentences r = [] ∧ r_errors r = [] ∧ r_confidenceScore r = 100%Q.
Proof.
  intros text r.
  assert (Hblank : Forall (λ c, isWhiteSpace c = true) text)
    by (repeat constructor).
  split; [exact Hblank |].
  exact (blank_input_yields_nothing demo_probability (λ _, true)
           demo_candidates (λ _, None) demo_rules demo_segment (λ _, 50%Q)
           default_config MTrigram text Hblank).
Defined.

(** The same components on an input that is not blank: one sentence, with
    its punctuation flag. *)
Example one_sentence_one_flag :
  let r := analyze demo_probability (λ _, true) demo_candidates (λ _, None)
             demo_rules demo_segment (λ _, 50%Q)
             default_config MTrigram (lit "He go") in
  length (r_sentences r) = 1 ∧ map kind (r_errors r) = [KPunctuation].
Proof. by vm_compute. Qed.

(** On the page, a text of white space only cannot be submitted. *)
Lemma blank_text_not_submitted (s : Home.State) :
  Home.inputMode s = Home.TextMode →
  Forall (λ c, isWhiteSpace c = true) (Home.text s) →
  Home.canSubmit s = false ∧ Home.handleSubmit s = (s, None).
Proof.
  intros Hmode Hblank. unfold Home.handleSubmit, Home.canSubmit.
  by rewrite Hmode, (trim_blank _ Hblank).
Qed.

End OrchestrationExamples.

(** * Further properties of the front end *)

(** ** Slices of a text with a replaced middle *)

Section Splicing.
Import ResultPage Fixes.

Lemma slice_app_l (X W : jsstring) (a b : Z) :
  (0 <= a <= b)%Z → (b <= Z.of_nat (length X))%Z →
  slice (X ++ W) a (Some b) = slice X a (Some b).
Proof.
  intros Hab Hb. rewrite !slice_inside by (rewrite ?length_app; lia).
  rewrite drop_app_le by lia. apply take_app_le. rewrite length_drop. lia.
Qed.

Lemma slice_app_r (X W : jsstring) (a b : Z) :
  (Z.of_nat (length X) <= a <= b)%Z →
  (b <= Z.of_nat (length X) + Z.of_nat (length W))%Z →
  slice (X ++ W) a (Some b)
  = slice W (a - Z.of_nat (length X)) (Some (b - Z.of_nat (length X))%Z).
Proof.
  intros Hab Hb. rewrite !slice_inside by (rewrite ?length_app; lia).
  rewrite drop_app_ge by lia. f_equal; [lia | f_equal; lia].
Qed.

Lemma slice_app_mid (X W : jsstring) (a b : Z) :
  (0 <= a <= Z.of_nat (length X))%Z →
  (Z.of_nat (length X) <= b)%Z →
  (b <= Z.of_nat (length X) + Z.of_nat (length W))%Z →
  slice (X ++ W) a (Some b)
  = slice X a (Some (Z.of_nat (length X)))
    ++ slice W 0 (Some (b - Z.of_nat (length X))%Z).
Proof.
  intros Ha Hb Hlen.
  rewrite <- (slice_join (X ++ W) a (Z.of_nat (length X)) b)
    by (rewrite ?length_app; lia).
  rewrite slice_app_l, slice_app_r by lia. do 3 f_equal. lia.
Qed.

Lemma slice3_l (X M Y : jsstring) (a b : Z) :
  (0 <= a <= b)%Z → (b <= Z.of_nat (length X))%Z →
  slice (X ++ M ++ Y) a (Some b) = slice X a (Some b).
Proof. apply slice_app_l. Qed.

Lemma slice3_r (X M Y : jsstring) (a b : Z) :
  (Z.of_nat (length X) + Z.of_nat (length M) <= a <= b)%Z →
  (b <= Z.of_nat (length X) + Z.of_nat (length M) + Z.of_nat (length Y))%Z →
  slice (X ++ M ++ Y) a (Some b)
  = slice Y (a - Z.of_nat (length X) - Z.of_nat (length M))
            (Some (b - Z.of_nat (length X) - Z.of_nat (length M))%Z).
Proof.
  intros Hab Hb. rewrite app_assoc, slice_app_r by (rewrite length_app; lia).
  rewrite length_app. f_equal; [lia | f_equal; lia].
Qed.

Lemma slice3_mid (X M Y : jsstring) (a b : Z) :
  (0 <= a <= Z.of_nat (length X))%Z →
  (Z.of_nat (length X) + Z.of_nat (length M) <= b)%Z →
  (b <= Z.of_nat (length X) + Z.of_nat (length M) + Z.of_nat (length Y))%Z →
  slice (X ++ M ++ Y) a (Some b)
  = slice X a (Some (Z.of_nat (length X))) ++ M
    ++ slice Y 0 (Some (b - Z.of_nat (length X) - Z.of_nat (length M))%Z).
Proof.
  intros Ha Hb Hlen.
  rewrite slice_app_mid by (rewrite ?length_app; lia). f_equal.
  rewrite slice_app_mid by lia. by rewrite slice_whole.
Qed.

(** A text around the span of an error that it holds, and the text after
    the fix. *)
Lemma fix_text_parts (T : jsstring) (e : GrammarError) :
  holds T e →
  ∃ X Y,
    T = X ++ original e ++ Y
    ∧ fix_text T e = X ++ suggestion e ++ Y
    ∧ Z.of_nat (length X) = span_start e
    ∧ (Z.of_nat (length X) + Z.of_nat (length (original e)))%Z = span_end e.
Proof.
  intros (Hse & Hlen & Horig).
  exists (take (Z.to_nat (span_start e)) T), (drop (Z.to_nat (span_end e)) T).
  assert (HX : Z.of_nat (length (take (Z.to_nat (span_start e)) T))
               = span_start e) by (rewrite length_take; lia).
  assert (HO : Z.of_nat (length (original e))
               = (span_end e - span_start e)%Z)
    by (rewrite <- Horig, slice_inside_length; lia).
  split; [| split; [| split; [done | lia]]].
  - rewrite <- Horig, app_assoc, slice_prefix_snoc by lia.
    by rewrite take_drop.
  - unfold fix_text. by rewrite slice_prefix, slice_suffix by lia.
Qed.

Lemma fix_text_length (T : jsstring) (e : GrammarError) :
  holds T e →
  Z.of_nat (length (fix_text T e)) = (Z.of_nat (length T) + delta e)%Z.
Proof.
  intros H. destruct (fix_text_parts T e H) as (X & Y & HT & -> & _ & _).
  rewrite HT. unfold delta. rewrite !length_app. lia.
Qed.

(** Left of the fixed span nothing moves. *)
Lemma fix_text_left (T : jsstring) (e : GrammarError) (a b : Z) :
  holds T e → (0 <= a <= b)%Z → (b <= span_start e)%Z →
  slice (fix_text T e) a (Some b) = slice T a (Some b).
Proof.
  intros H Hab Hb. destruct (fix_text_parts T e H) as (X & Y & HT & -> & HX & _).
  rewrite HT. rewrite !slice3_l by lia. done.
Qed.

(** Right of the fixed span everything moves by [delta e]. *)
Lemma fix_text_right (T : jsstring) (e : GrammarError) (a b : Z) :
  holds T e → (span_end e <= a <= b)%Z → (b <= Z.of_nat (length T))%Z →
  slice (fix_text T e) (a + delta e) (Some (b + delta e)%Z) = slice T a (Some b).
Proof.
  intros H Hab Hb.
  destruct (fix_text_parts T e H) as (X & Y & HT & -> & HX & HO).
  rewrite HT, !length_app in Hb. rewrite HT. unfold delta.
  rewrite !slice3_r by lia. f_equal; [lia | f_equal; lia].
Qed.

(** Across the fixed span the suggestion takes the place of the original. *)
Lemma fix_text_across (T : jsstring) (e : GrammarError) (a b : Z) :
  holds T e → (0 <= a <= span_start e)%Z → (span_end e <= b)%Z →
  (b <= Z.of_nat (length T))%Z →
  slice (fix_text T e) a (Some (b + delta e)%Z)
  = slice T a (Some (span_start e)) ++ suggestion e
    ++ slice T (span_end e) (Some b).
Proof.
  intros H Ha Hb Hlen.
  destruct (fix_text_parts T e H) as (X & Y & HT & -> & HX & HO).
  rewrite HT, !length_app in Hlen. rewrite HT. unfold delta.
  rewrite slice3_mid by lia. rewrite slice3_l by lia.
  rewrite slice3_r by lia. rewrite <- HX.
  do 3 f_equal; [lia | f_equal; lia].
Qed.

End Splicing.

(** ** Single fixes on the result page *)

Section FixValues.
Import ResultPage Fixes.

Lemma shown_unfold (s : State) (es : list loc) :
  arrs (heap s) !! displayErrors s = Some es →
  shown s = mapM (λ l, objs (heap s) !! l) es.
Proof. intros H. unfold shown. by rewrite H. Qed.

Lemma fix_errors_read (h h' : Store) (error : loc) (err : GrammarError)
    (es : list loc) (vals : list GrammarError) :
  store_extends h h' →
  Forall2 (λ l v, objs h !! l = Some v) es vals →
  ∀ es',
    Forall2
      (λ l l', ∃ v, objs h !! l = Some v
                    ∧ if (start (position v) >? start (position err))%Z
                      then length (objs h) ≤ l'
                           ∧ objs h' !! l' = Some (shifted v (delta err))
                      else l' = l)
      (filter (λ e, e ≠ error) es) es' →
    Forall2 (λ l' v', objs h' !! l' = Some v') es'
            (fix_errors error err (zip es vals)).
Proof.
  intros Hext Hread. unfold fix_errors.
  induction Hread as [| l v es vals Hl _ IH]; intros es' Hrel.
  - rewrite filter_nil in Hrel. inversion Hrel. constructor.
  - cbn [zip zip_with]. rewrite filter_cons in Hrel. rewrite filter_cons.
    cbn [fst]. destruct (decide (l ≠ error)) as [Hne | Heq].
    + inversion Hrel as [| ? l' ? es'' (v0 & Hv0 & Hcase) Hrest]; subst.
      rewrite Hl in Hv0. injection Hv0 as <-.
      cbn [fmap list_fmap snd]. constructor; [| by apply IH].
      unfold bump, span_start.
      destruct (start (position v) >? start (position err))%Z.
      * by destruct Hcase.
      * subst l'. by eapply store_extends_obj.
    + by apply IH.
Qed.

(** [handleApplyFix] on the displayed values. *)
Lemma apply_fix_values (s : State) (r : AnalysisResult) (error : loc)
    (err : GrammarError) (es : list loc) (vals : list GrammarError) :
  state_ok s →
  result s = Some r →
  arrs (heap s) !! displayErrors s = Some es →
  mapM (λ l, objs (heap s) !! l) es = Some vals →
  objs (heap s) !! error = Some err →
  ∃ s',
    handleApplyFix error s = Some s'
    ∧ state_ok s'
    ∧ result s' = Some r
    ∧ store_extends (heap s) (heap s')
    ∧ displayText s' = fix_text (displayText s) err
    ∧ shown s' = Some (fix_errors error err (zip es vals)).
Proof.
  intros Hok Hr Hes Hvals Herr.
  destruct (handleApplyFix_spec s r error err es Hok Hr Herr Hes)
    as (s' & es' & Hrun & Hok' & Hr' & Hext & Htext & Hes' & Hrel).
  exists s'. split; [done |]. split; [done |]. split; [done |].
  split; [done |]. split; [done |].
  rewrite (shown_unfold s' es' Hes'). apply mapM_Some.
  eapply fix_errors_read; [exact Hext | by apply mapM_Some | exact Hrel].
Qed.

Lemma bump_fields (e v : GrammarError) :
  type (bump e v) = type v
  ∧ original (bump e v) = original v
  ∧ suggestion (bump e v) = suggestion v
  ∧ explanation (bump e v) = explanation v
  ∧ sentenceIndex (bump e v) = sentenceIndex v
  ∧ (span_end (bump e v) - span_start (bump e v)
     = span_end v - span_start v)%Z.
Proof.
  unfold bump. destruct (span_start v >? span_start e)%Z; cbn;
    unfold span_end, span_start; cbn; repeat split; lia.
Qed.

(** An error clear of the fixed span keeps its characters. *)
Lemma holds_bump (T : jsstring) (e v : GrammarError) :
  holds T e → holds T v → clear_of e v → holds (fix_text T e) (bump e v).
Proof.
  intros He (Hv1 & Hv2 & Hv3) Hclear.
  pose proof (fix_text_length T e He) as Hlen.
  assert (Hd : (span_start e + Z.of_nat (length (suggestion e))
                = span_end e + delta e)%Z).
  { destruct (fix_text_parts T e He) as (X & Y & _ & _ & HX & HO).
    unfold delta. lia. }
  pose proof He as (He1 & He2 & He3). unfold bump.
  destruct (Z.gtb_spec (span_start v) (span_start e)) as [Hgt | Hle].
  - destruct Hclear as [[Hc _] | Hc]; [| lia].
    unfold holds, span_start, span_end. cbn.
    fold (span_start v) (span_end v).
    split; [lia |]. split; [lia |].
    rewrite fix_text_right; [done | done | lia | lia].
  - destruct Hclear as [[_ Hc] | Hc]; [lia |].
    unfold holds. split; [lia |]. split; [lia |].
    rewrite fix_text_left; [done | done | lia | lia].
Qed.

End FixValues.

Section SingleFix.
Import ResultPage Fixes.

Lemma displayed_loaded (s : State) (es : list loc) (error : loc) :
  state_ok s → arrs (heap s) !! displayErrors s = Some es → error ∈ es →
  ∃ r, result s = Some r.
Proof.
  intros Hok Hes Hin. destruct (result s) as [r |] eqn:Hr; [by exists r |].
  rewrite (ok_loading s Hok Hr) in Hes. injection Hes as <-.
  by apply elem_of_nil in Hin.
Qed.

(** X1: when [handleApplyFix] replaces an error whose span lies in the text
    and holds its original, the displayed errors become the other ones,
    moved by the callback, and each of them whose span held its original
    and was clear of the fixed span (before it, or after it and starting
    after its start) has its span in the new text, over its original. *)
Theorem fix_keeps_clear_spans
    (s : State) (es : list loc) (vals : list GrammarError)
    (error : loc) (err : GrammarError)
    (Hok : state_ok s)
    (Hes : arrs (heap s) !! displayErrors s = Some es)
    (Hvals : mapM (λ l, objs (heap s) !! l) es = Some vals)
    (Hin : error ∈ es)
    (Herr : objs (heap s) !! error = Some err)
    (Hholds : holds (displayText s) err) :
  ∃ s',
    handleApplyFix error s = Some s'
    ∧ shown s'
      = Some (bump err
              <$> (filter (λ p : loc * GrammarError, p.1 ≠ error)
                          (zip es vals)).*2)
    ∧ ∀ v, holds (displayText s) v → clear_of err v →
           holds (displayText s') (bump err v).
Proof.
  destruct (displayed_loaded s es error Hok Hes Hin) as [r Hr].
  destruct (apply_fix_values s r error err es vals Hok Hr Hes Hvals Herr)
    as (s' & Hrun & _ & _ & _ & Htext & Hshown).
  exists s'. split; [done |]. split; [done |].
  intros v Hv Hclear. rewrite Htext. by apply holds_bump.
Qed.

Lemma fix_keeps_clear_spans_witness :
  let s := mount stored_two_typos initial in
  ∃ err s',
    state_ok s
    ∧ arrs (heap s) !! displayErrors s = Some [0; 1]
    ∧ mapM (λ l, objs (heap s) !! l) [0; 1] = Some (rd_errors stored_two_typos)
    ∧ 0 ∈ [0; 1]
    ∧ objs (heap s) !! 0 = Some err
    ∧ holds (displayText s) err
    ∧ handleApplyFix 0 s = Some s'
    ∧ Forall (holds (displayText s')) (default [] (shown s')).
Proof.
  intros s.
  assert (Hok : state_ok s) by apply mount_ok, state_ok_initial.
  assert (Hes : arrs (heap s) !! displayErrors s = Some [0; 1]) by reflexivity.
  assert (Hvals : mapM (λ l, objs (heap s) !! l) [0; 1]
                  = Some (rd_errors stored_two_typos)) by reflexivity.
  assert (Hin : 0 ∈ [0; 1]) by (apply (bool_decide_unpack _); exact I).
  destruct (objs (heap s) !! 0) as [err |] eqn:Herr; [| discriminate].
  assert (Hholds : holds (displayText s) err).
  { vm_compute in Herr. injection Herr as <-.
    split; [vm_compute; split; discriminate |].
    split; [vm_compute; discriminate | reflexivity]. }
  destruct (fix_keeps_clear_spans s [0; 1] (rd_errors stored_two_typos) 0 err
              Hok Hes Hvals Hin Herr Hholds) as (s' & Hrun & Hshown & Hkeep).
  exists err, s'. repeat (split; [assumption || reflexivity |]).
  rewrite Hshown. cbn [default].
  apply Forall_fmap, Forall_fmap, Forall_forall. intros [l v] Hp.
  apply list_elem_of_filter in Hp as [Hne Hp]. cbn in Hne.
  apply elem_of_cons in Hp as [[= -> ->] | Hp]; [done |].
  apply elem_of_cons in Hp as [[= -> ->] | Hp]; [| by apply elem_of_nil in Hp].
  vm_compute in Herr. injection Herr as <-.
  apply Hkeep.
  - split; [vm_compute; split; discriminate |].
    split; [vm_compute; discriminate | reflexivity].
  - left. vm_compute. split; [discriminate | reflexivity].
Defined.

(** X2: [handleApplyFix] on a displayed error, when the offsets of the
    displayed errors are safe integers before and after a move by the
    delta, only removes and moves: the errors it leaves are a strictly
    shorter sub-list of the ones displayed, in the same order; each of
    them keeps its kind, original, suggestion, explanation, sentence index
    and the width of its span, and has safe integers for offsets again;
    the ones that started after the fixed error have start and end moved
    by the delta, the others keep their position. *)
Theorem fix_only_removes_and_moves
    (s : State) (es : list loc) (vals : list GrammarError)
    (error : loc) (err : GrammarError)
    (Hok : state_ok s)
    (Hes : arrs (heap s) !! displayErrors s = Some es)
    (Hvals : mapM (λ l, objs (heap s) !! l) es = Some vals)
    (Hin : error ∈ es)
    (Herr : objs (heap s) !! error = Some err)
    (Hsafe : Forall (safe_offsets err) vals) :
  ∃ s' rest vals',
    handleApplyFix error s = Some s'
    ∧ shown s' = Some vals'
    ∧ rest `sublist_of` vals
    ∧ length rest < length vals
    ∧ Forall2
        (λ v v',
           type v' = type v
           ∧ original v' = original v
           ∧ suggestion v' = suggestion v
           ∧ explanation v' = explanation v
           ∧ sentenceIndex v' = sentenceIndex v
           ∧ (span_end v' - span_start v' = span_end v - span_start v)%Z
           ∧ isSafeInteger (span_start v') = true
           ∧ isSafeInteger (span_end v') = true
           ∧ if (span_start v >? span_start err)%Z
             then span_start v' = (span_start v + delta err)%Z
                  ∧ span_end v' = (span_end v + delta err)%Z
             else position v' = position v)
        rest vals'.
Proof.
  destruct (displayed_loaded s es error Hok Hes Hin) as [r Hr].
  destruct (apply_fix_values s r error err es vals Hok Hr Hes Hvals Herr)
    as (s' & Hrun & _ & _ & _ & _ & Hshown).
  destruct (read_pairs (heap s) es vals Hvals) as [_ Hlen].
  set (rest := (filter (λ p : loc * GrammarError, p.1 ≠ error)
                       (zip es vals)).*2).
  assert (Hsub : rest `sublist_of` vals).
  { unfold rest. rewrite <- (snd_zip es vals) at 2 by lia.
    apply fmap_sublist, sublist_filter. }
  exists s', rest, (bump err <$> rest).
  split; [done |]. split; [done |]. split; [done |]. split.
  - unfold rest. rewrite length_fmap.
    apply list_elem_of_lookup in Hin as [i Hi].
    destruct (lookup_lt_is_Some_2 vals i) as [v Hv];
      [rewrite <- Hlen; by eapply lookup_lt_Some |].
    eapply Nat.lt_le_trans.
    + eapply (length_filter_lt _ _ (error, v)); [| cbn; tauto].
      apply list_elem_of_lookup. exists i. by apply lookup_zip_Some.
    + rewrite length_zip. lia.
  - apply Forall2_fmap_r, Forall_Forall2_diag, Forall_forall.
    intros v Hv.
    assert (Hs : safe_offsets err v).
    { rewrite Forall_forall in Hsafe. apply Hsafe.
      by eapply elem_of_sublist. }
    destruct Hs as (Hs1 & Hs2 & Hs3 & Hs4).
    destruct (bump_fields err v) as (? & ? & ? & ? & ? & ?).
    do 6 (split; [done |]). unfold bump.
    destruct (span_start v >? span_start err)%Z; by repeat split.
Qed.

Lemma fix_only_removes_and_moves_witness :
  let s := mount stored_two_typos initial in
  ∃ err s' vals',
    state_ok s
    ∧ arrs (heap s) !! displayErrors s = Some [0; 1]
    ∧ mapM (λ l, objs (heap s) !! l) [0; 1] = Some (rd_errors stored_two_typos)
    ∧ 0 ∈ [0; 1]
    ∧ objs (heap s) !! 0 = Some err
    ∧ Forall (safe_offsets err) (rd_errors stored_two_typos)
    ∧ handleApplyFix 0 s = Some s'
    ∧ shown s' = Some vals'
    ∧ fmap (M := list) position vals' = [ {| start := 10; end_ := 13 |} ].
Proof.
  intros s.
  assert (Hok : state_ok s) by apply mount_ok, state_ok_initial.
  assert (Hes : arrs (heap s) !! displayErrors s = Some [0; 1]) by reflexivity.
  assert (Hvals : mapM (λ l, objs (heap s) !! l) [0; 1]
                  = Some (rd_errors stored_two_typos)) by reflexivity.
  assert (Hin : 0 ∈ [0; 1]) by (apply (bool_decide_unpack _); exact I).
  destruct (objs (heap s) !! 0) as [err |] eqn:Herr; [| discriminate].
  assert (Hsafe : Forall (safe_offsets err) (rd_errors stored_two_typos)).
  { vm_compute in Herr. injection Herr as <-.
    repeat constructor. }
  destruct (fix_only_removes_and_moves s [0; 1] (rd_errors stored_two_typos)
              0 err Hok Hes Hvals Hin Herr Hsafe)
    as (s' & rest & vals' & Hrun & Hshown & _ & Hlen & _).
  exists err, s', vals'. do 8 (split; [assumption || reflexivity |]).
  vm_compute in Hrun. injection Hrun as <-. vm_compute in Hshown.
  injection Hshown as <-. reflexivity.
Defined.

End SingleFix.

(** ** Sequences of fixes *)

Section Runs.
Import ResultPage Fixes.

Lemma sorted_perm_eq (S1 S2 : list GrammarError) :
  StronglySorted (λ a b, (span_start a <= span_start b)%Z) S1 →
  strict_starts S2 → S1 ≡ₚ S2 → S1 = S2.
Proof.
  intros H1 H2. revert S1 H1.
  induction H2 as [| x S2 Hs IH Hx]; intros S1 H1 Hp.
  - by apply Permutation_nil_r in Hp.
  - destruct S1 as [| y S1]; [by apply Permutation_nil_cons in Hp |].
    apply StronglySorted_inv in H1 as [H1 Hy].
    assert (y = x) as ->.
    { assert (Hyin : y ∈ x :: S2) by (rewrite <- Hp; left).
      assert (Hxin : x ∈ y :: S1) by (rewrite Hp; left).
      apply elem_of_cons in Hyin as [-> | Hyin]; [done |].
      apply elem_of_cons in Hxin as [-> | Hxin]; [done |].
      rewrite Forall_forall in Hx, Hy.
      specialize (Hx y Hyin). specialize (Hy x Hxin). cbn beta in *. lia. }
    f_equal. apply IH; [done |]. by apply Permutation_cons_inv in Hp.
Qed.

(** A list with pairwise different starts has one order by start. *)
Lemma sort_unique (vals S : list GrammarError) :
  strict_starts S → vals ≡ₚ S → sort (by_key span_start) vals = S.
Proof.
  intros HS Hp. apply sorted_perm_eq; [apply sort_sorted | done |].
  by rewrite sort_perm.
Qed.

Lemma strict_starts_NoDup (S : list GrammarError) :
  strict_starts S → NoDup S.
Proof.
  induction 1 as [| x S _ IH Hx]; constructor; [| done].
  intros Hin. rewrite Forall_forall in Hx. specialize (Hx x Hin).
  cbn beta in Hx. lia.
Qed.

Lemma runs_weaken (n c c' : Z) (S : list GrammarError) :
  (c' <= c)%Z → runs n c S → runs n c' S.
Proof. destruct S; cbn; lia || (intros ? (? & ? & ?); repeat split; [lia | done..]). Qed.

Lemma runs_bound (n c : Z) (S : list GrammarError) :
  runs n c S → (c <= n)%Z.
Proof.
  revert c. induction S as [| v S IH]; intros c; cbn; [done |].
  intros (? & ? & H). specialize (IH _ H). lia.
Qed.

Lemma runs_lower (n c : Z) (S : list GrammarError) :
  runs n c S →
  Forall (λ v, (c <= span_start v ∧ span_start v <= span_end v
                ∧ span_end v <= n)%Z) S.
Proof.
  revert c. induction S as [| v S IH]; intros c; cbn; [constructor |].
  intros (Hc & Hv & H). constructor.
  - pose proof (runs_bound _ _ _ H). lia.
  - eapply Forall_impl; [apply IH, H |]. cbn beta. intros. lia.
Qed.

Lemma runs_app (n c : Z) (L R : list GrammarError) (e : GrammarError) :
  runs n c (L ++ e :: R) →
  Forall (λ v, (c <= span_start v ∧ span_end v <= span_start e)%Z) L
  ∧ (c <= span_start e)%Z
  ∧ (span_start e <= span_end e)%Z
  ∧ runs n (span_end e) R.
Proof.
  revert c. induction L as [| l L IH]; intros c; cbn.
  - intros (? & ? & ?). split; [constructor | done].
  - intros (Hc & Hl & H). destruct (IH _ H) as (HL & Hce & He & HR).
    split; [| split; [lia | done]]. constructor; [lia |].
    eapply Forall_impl; [exact HL |]. cbn beta. intros. lia.
Qed.

Lemma runs_shift (n c δ : Z) (R : list GrammarError) :
  runs n c R → runs (n + δ) (c + δ) ((λ v, shifted v δ) <$> R).
Proof.
  revert c. induction R as [| v R IH]; intros c; cbn; [lia |].
  intros (Hc & Hv & H). unfold span_start, span_end in *. cbn.
  split; [lia |]. split; [lia |]. by apply IH.
Qed.

Lemma runs_replace (n n' c : Z) (L R R' : list GrammarError)
    (e : GrammarError) :
  runs n c (L ++ e :: R) → runs n' (span_start e) R' → runs n' c (L ++ R').
Proof.
  revert c. induction L as [| l L IH]; intros c; cbn.
  - intros (Hc & _) H. by eapply runs_weaken.
  - intros (Hc & Hl & H) H'. split; [done |]. split; [done |]. by apply IH.
Qed.

Lemma bump_left (e v : GrammarError) :
  (span_start v <= span_start e)%Z → bump e v = v.
Proof.
  intros H. unfold bump.
  by destruct (Z.gtb_spec (span_start v) (span_start e)); [lia |].
Qed.

Lemma bump_right (e v : GrammarError) :
  (span_start e < span_start v)%Z → bump e v = shifted v (delta e).
Proof.
  intros H. unfold bump.
  by destruct (Z.gtb_spec (span_start v) (span_start e)); [| lia].
Qed.

Lemma holds_width (T : jsstring) (e : GrammarError) :
  holds T e →
  (span_start e + Z.of_nat (length (suggestion e)) = span_end e + delta e)%Z.
Proof.
  intros He. destruct (fix_text_parts T e He) as (X & Y & _ & _ & HX & HO).
  unfold delta. lia.
Qed.

(** The displayed values around the fixed one, once it is fixed. *)
Lemma bump_around (e : GrammarError) (L R : list GrammarError) :
  strict_starts (L ++ e :: R) →
  bump e <$> (L ++ R) = L ++ ((λ v, shifted v (delta e)) <$> R).
Proof.
  intros Hs. apply sorting.StronglySorted_app in Hs as (HL & _ & HeR).
  apply StronglySorted_inv in HeR as [_ HR].
  rewrite fmap_app. f_equal.
  - rewrite <- (list_fmap_id L) at 2. apply list_fmap_ext.
    intros i v Hv. apply bump_left.
    specialize (HL v e). cbn beta in HL. apply Z.lt_le_incl, HL.
    + by eapply list_elem_of_lookup_2.
    + left.
  - apply list_fmap_ext. intros i v Hv. apply bump_right.
    rewrite Forall_forall in HR. apply HR.
    by eapply list_elem_of_lookup_2.
Qed.

Lemma strict_shift (δ : Z) (R : list GrammarError) :
  strict_starts R → strict_starts ((λ v, shifted v δ) <$> R).
Proof.
  induction 1 as [| x R' _ IH Hx]; cbn; constructor; [done |].
  apply Forall_fmap. eapply Forall_impl; [exact Hx |].
  cbn beta. unfold span_start. cbn. intros. lia.
Qed.

Lemma strict_after_fix (T : jsstring) (n c : Z) (e : GrammarError)
    (L R : list GrammarError) :
  holds T e →
  strict_starts (L ++ e :: R) →
  runs n c (L ++ e :: R) →
  strict_starts (L ++ ((λ v, shifted v (delta e)) <$> R)).
Proof.
  intros He Hs Hr. pose proof (holds_width T e He) as Hw.
  destruct (runs_app _ _ _ _ _ Hr) as (_ & _ & _ & HrR).
  apply runs_lower in HrR.
  apply sorting.StronglySorted_app in Hs as (HLR & HsL & HeR).
  apply StronglySorted_inv in HeR as [HsR HR].
  apply sorting.StronglySorted_app. split; [| split; [done |]].
  2: by apply strict_shift.
  intros x1 x2 H1 H2. apply list_elem_of_fmap in H2 as (v & -> & Hv).
    rewrite Forall_forall in HrR. specialize (HrR v Hv). cbn beta in HrR.
    specialize (HLR x1 e H1 ltac:(left)). cbn beta in HLR.
    unfold span_start in *. cbn. unfold span_end in *. lia.
Qed.

(** What [handleApplyFix] removes from the displayed values is the fixed
    value, once. *)
Lemma filter_removes_one (h : Store) (error : loc) (e : GrammarError)
    (es : list loc) (vals : list GrammarError) :
  Forall2 (λ l v, objs h !! l = Some v) es vals →
  objs h !! error = Some e →
  NoDup vals →
  error ∈ es →
  vals ≡ₚ e :: (filter (λ p : loc * GrammarError, p.1 ≠ error) (zip es vals)).*2.
Proof.
  intros Hread He. induction Hread as [| l v es vals Hl Hread IH];
    intros Hnd Hin; [by apply elem_of_nil in Hin |].
  apply NoDup_cons in Hnd as [Hv Hnd]. cbn [zip zip_with].
  rewrite filter_cons. cbn [fst].
  destruct (decide (l ≠ error)) as [Hne | Heq].
  - apply elem_of_cons in Hin as [-> | Hin]; [done |].
    cbn [fmap list_fmap snd]. rewrite (IH Hnd Hin) at 1. apply Permutation_swap.
  - assert (l = error) as -> by (destruct (decide (l = error)); tauto).
    rewrite Hl in He. injection He as ->. constructor.
    assert (Hout : error ∉ es).
    { intros Hin'. apply list_elem_of_lookup in Hin' as [j Hj].
      destruct (Forall2_lookup_l _ _ _ _ _ Hread Hj) as (v' & Hv' & Hlv).
      rewrite Hl in Hlv. injection Hlv as <-.
      apply Hv. by eapply list_elem_of_lookup_2. }
    rewrite filter_all.
    + rewrite snd_zip; [done |]. apply Forall2_length in Hread. lia.
    + apply Forall_forall. intros [l' v'] Hp. cbn. intros ->.
      apply Hout. by eapply elem_of_zip_l.
Qed.

Lemma slice_empty (T : jsstring) (a : Z) :
  (0 <= a)%Z → (a <= Z.of_nat (length T))%Z → slice T a (Some a) = [].
Proof. intros. rewrite slice_inside by lia. by rewrite Nat.sub_diag. Qed.

Lemma splice_from (T : jsstring) (c a : Z) (S : list GrammarError) :
  (0 <= c <= a)%Z → runs (Z.of_nat (length T)) a S →
  splice T c S = slice T c (Some a) ++ splice T a S.
Proof.
  intros Hc Hr. destruct S as [| v S]; cbn [splice runs] in *.
  - rewrite !slice_to_end. by rewrite slice_join by lia.
  - destruct Hr as (Ha & Hv & Hr). apply runs_bound in Hr.
    by rewrite (app_assoc (slice T c (Some a))), slice_join by lia.
Qed.

Lemma splice_shift (T : jsstring) (e : GrammarError) (c : Z)
    (R : list GrammarError) :
  holds T e → (span_end e <= c)%Z → runs (Z.of_nat (length T)) c R →
  splice (fix_text T e) (c + delta e) ((λ v, shifted v (delta e)) <$> R)
  = splice T c R.
Proof.
  intros He. pose proof (fix_text_length T e He) as Hlen.
  revert c. induction R as [| v R IH]; intros c Hc Hr;
    cbn [splice runs fmap list_fmap] in *.
  - rewrite !slice_to_end, Hlen. by apply fix_text_right; [| lia | lia].
  - destruct Hr as (Ha & Hv & Hr). pose proof (runs_bound _ _ _ Hr).
    unfold span_start at 1, span_end at 1. cbn.
    fold (span_start v) (span_end v).
    rewrite fix_text_right by (done || lia). do 2 f_equal.
    apply IH; [lia | done].
Qed.

(** Fixing [e] leaves the text with all fixes applied as it was. *)
Lemma splice_fix (T : jsstring) (e : GrammarError) (c : Z)
    (L R : list GrammarError) :
  holds T e → (0 <= c)%Z →
  runs (Z.of_nat (length T)) c (L ++ e :: R) →
  splice (fix_text T e) c (L ++ ((λ v, shifted v (delta e)) <$> R))
  = splice T c (L ++ e :: R).
Proof.
  intros He. pose proof (fix_text_length T e He) as Hlen.
  pose proof (holds_width T e He) as Hw.
  revert c. induction L as [| l L IH]; intros c Hc Hr.
  - cbn [app] in *. cbn [runs] in Hr. destruct Hr as (Hce & Hse & Hr).
    pose proof (runs_bound _ _ _ Hr) as Hn. cbn [splice].
    rewrite (splice_from _ c (span_end e + delta e)).
    + rewrite fix_text_across by (done || lia).
      rewrite slice_empty by lia. rewrite app_nil_r.
      rewrite splice_shift by (done || lia). by rewrite <- app_assoc.
    + lia.
    + rewrite Hlen. by apply runs_shift.
  - cbn [app runs] in Hr. destruct Hr as (Hcl & Hl & Hr).
    destruct (runs_app _ _ _ _ _ Hr) as (_ & Hle & _).
    cbn [app splice]. rewrite fix_text_left by (done || lia).
    do 2 f_equal. apply IH; [lia | done].
Qed.

Lemma fully_corrected_nil (T : jsstring) : fully_corrected T [] = T.
Proof.
  unfold fully_corrected. cbn. rewrite slice_to_end. apply slice_whole.
Qed.

(** One fix on values that fit the text. *)
Lemma fix_spans_ok (h : Store) (T : jsstring) (error : loc) (e : GrammarError)
    (es : list loc) (vals : list GrammarError) :
  Forall2 (λ l v, objs h !! l = Some v) es vals →
  objs h !! error = Some e →
  error ∈ es →
  spans_ok T vals →
  spans_ok (fix_text T e) (fix_errors error e (zip es vals))
  ∧ fully_corrected (fix_text T e) (fix_errors error e (zip es vals))
    = fully_corrected T vals
  ∧ S (length (fix_errors error e (zip es vals))) = length vals.
Proof.
  intros Hread He Hin (Hruns & Hstrict & Hholds).
  assert (Hnd : NoDup vals).
  { rewrite <- (sort_perm (by_key span_start)).
    by apply strict_starts_NoDup. }
  pose proof (filter_removes_one h error e es vals Hread He Hnd Hin) as Hperm.
  set (rest := (filter (λ p : loc * GrammarError, p.1 ≠ error)
                       (zip es vals)).*2) in *.
  assert (Hev : e ∈ vals) by (rewrite Hperm; left).
  assert (HTe : holds T e) by (rewrite Forall_forall in Hholds; by apply Hholds).
  assert (HeS : e ∈ sort (by_key span_start) vals) by by rewrite sort_perm.
  apply list_elem_of_split in HeS as (L & R & HS).
  rewrite HS in Hruns, Hstrict.
  assert (Hrest : rest ≡ₚ L ++ R).
  { apply (Permutation_cons_inv (a := e)).
    rewrite <- Hperm, <- (sort_perm (by_key span_start) vals), HS.
    by rewrite Permutation_middle. }
  pose proof (strict_after_fix T _ _ e L R HTe Hstrict Hruns) as Hstrict'.
  assert (Hsort : sort (by_key span_start) (fix_errors error e (zip es vals))
                  = L ++ ((λ v, shifted v (delta e)) <$> R)).
  { apply sort_unique; [done |]. unfold fix_errors. fold rest.
    rewrite Hrest. by rewrite bump_around. }
  pose proof (holds_width T e HTe) as Hw.
  destruct (runs_app _ _ _ _ _ Hruns) as (HL & Hce & Hse & HrR).
  split; [split; [| split] | split].
  - rewrite Hsort, fix_text_length by done.
    eapply runs_replace; [exact Hruns |].
    eapply runs_weaken; [| by apply runs_shift]. lia.
  - by rewrite Hsort.
  - unfold fix_errors. fold rest. apply Forall_fmap, Forall_forall.
    intros v Hv. cbn. apply holds_bump; [done | |].
    + rewrite Forall_forall in Hholds. apply Hholds. rewrite Hperm.
      by right.
    + rewrite Hrest in Hv. apply elem_of_app in Hv as [Hv | Hv].
      * right. rewrite Forall_forall in HL. by apply HL.
      * left. apply runs_lower in HrR. rewrite Forall_forall in HrR.
        split; [by apply HrR |].
        apply sorting.StronglySorted_app in Hstrict as (_ & _ & HeR).
        apply StronglySorted_inv in HeR as [_ HR].
        rewrite Forall_forall in HR. by apply HR.
  - unfold fully_corrected. rewrite Hsort, HS. by apply splice_fix.
  - apply Permutation_length in Hperm. unfold fix_errors. fold rest.
    rewrite length_fmap. by rewrite Hperm.
Qed.

End Runs.

Section FixSequences.
Import ResultPage Fixes.

Lemma read_extends (h h' : Store) (es : list loc) (vals : list GrammarError) :
  store_extends h h' →
  mapM (λ l, objs h !! l) es = Some vals →
  mapM (λ l, objs h' !! l) es = Some vals.
Proof.
  intros Hext H. apply mapM_Some. apply mapM_Some in H.
  eapply Forall2_impl; [exact H |]. intros l v Hl.
  by eapply store_extends_obj.
Qed.

Lemma result_fits_extends (s s' : State) :
  result s' = result s → store_extends (heap s) (heap s') →
  result_fits s → result_fits s'.
Proof.
  intros Hr Hext Hfit r Hr'. rewrite Hr in Hr'.
  destruct (Hfit r Hr') as (res & rvals & Hres & Hrvals & Hok).
  exists res, rvals. split; [by eapply store_extends_arr |].
  split; [by eapply read_extends | done].
Qed.

Lemma spans_ok_nil (T : jsstring) : spans_ok T [].
Proof.
  split; [cbn; lia |]. split; [constructor | constructor].
Qed.

(** A click on the [i]-th displayed error and on "Apply Fix", on a page
    whose errors fit its text. *)
Lemma click_fix (i : nat) (s : State) (vals : list GrammarError) :
  state_ok s → shown s = Some vals → spans_ok (displayText s) vals →
  ∃ s' vals',
    step (ApplyFix i) s = Some s'
    ∧ state_ok s'
    ∧ result s' = result s
    ∧ store_extends (heap s) (heap s')
    ∧ shown s' = Some vals'
    ∧ spans_ok (displayText s') vals'
    ∧ fully_corrected (displayText s') vals'
      = fully_corrected (displayText s) vals
    ∧ length vals' = length vals - (if decide (i < length vals) then 1 else 0)
    ∧ displayText s' = match vals !! i with
                       | Some err => fix_text (displayText s) err
                       | None => displayText s
                       end.
Proof.
  intros Hok Hshown Hfit. pose proof Hshown as Hvals. unfold shown in Hvals.
  destruct (arrs (heap s) !! displayErrors s) as [es |] eqn:Hes; [| done].
  cbn [mbind option_bind] in Hvals.
  pose proof Hvals as Hread. apply mapM_Some in Hread.
  pose proof (Forall2_length _ _ _ Hread) as Hlen.
  cbn [step]. rewrite Hes. cbn [mbind option_bind].
  destruct (es !! i) as [error |] eqn:Hi.
  - destruct (Forall2_lookup_l _ _ _ _ _ Hread Hi) as (err & Hv & Herr).
    assert (Hin : error ∈ es) by by eapply list_elem_of_lookup_2.
    destruct (displayed_loaded s es error Hok Hes Hin) as [r Hr].
    destruct (apply_fix_values s r error err es vals Hok Hr Hes Hvals Herr)
      as (s' & Hrun & Hok' & Hr' & Hext & Htext & Hshown').
    destruct (fix_spans_ok (heap s) (displayText s) error err es vals
                Hread Herr Hin Hfit) as (Hfit' & Hfull & Hlen').
    exists s', (fix_errors error err (zip es vals)).
    rewrite Htext, Hv. split; [done |]. split; [done |].
    split; [congruence |]. split; [done |]. split; [done |].
    split; [done |]. split; [done |]. split; [| done].
    apply lookup_lt_Some in Hv. destruct (decide (i < length vals)); lia.
  - exists s, vals. split; [done |]. split; [done |]. split; [done |].
    split; [apply store_extends_refl |]. split; [done |]. split; [done |].
    split; [done |]. apply lookup_ge_None in Hi.
    split; [destruct (decide (i < length vals)); lia |].
    rewrite (proj2 (lookup_ge_None vals i)); [done | lia].
Qed.

Lemma apply_all_shown (s : State) (r : AnalysisResult) :
  result s = Some r →
  shown (handleApplyAllFixes s) = Some []
  ∧ displayText (handleApplyAllFixes s) = correctedText r.
Proof.
  intros Hr. unfold handleApplyAllFixes, shown. rewrite Hr.
  cbn [alloc_arr heap displayErrors displayText arrs objs].
  by rewrite list_lookup_middle.
Qed.

Lemma reset_shown (s : State) (r : AnalysisResult) :
  result s = Some r →
  shown (handleReset s)
  = (res ← arrs (heap s) !! errors r; mapM (λ l, objs (heap s) !! l) res)
  ∧ displayText (handleReset s) = originalText r.
Proof. intros Hr. unfold handleReset, shown. by rewrite Hr. Qed.

Lemma step_fits (ev : Event) (s : State) :
  state_ok s → fits s → result_fits s →
  ∃ s', step ev s = Some s' ∧ state_ok s' ∧ fits s' ∧ result_fits s'.
Proof.
  intros Hok (vals & Hshown & Hfit) Hres. destruct ev as [i | |].
  - destruct (click_fix i s vals Hok Hshown Hfit)
      as (s' & vals' & Hstep & Hok' & Hr' & Hext & Hshown' & Hfit' & _).
    exists s'. split; [done |]. split; [done |].
    split; [by exists vals' | by eapply result_fits_extends].
  - exists (handleApplyAllFixes s). split; [done |].
    destruct (handleApplyAllFixes_spec s Hok) as (Hok' & Hr' & Hext).
    split; [done |]. split; [| by eapply result_fits_extends].
    destruct (result s) as [r |] eqn:Hr.
    + destruct (apply_all_shown s r Hr) as [Hs _]. exists [].
      split; [done | apply spans_ok_nil].
    + unfold handleApplyAllFixes. rewrite Hr. by exists vals.
  - exists (handleReset s). split; [done |].
    destruct (handleReset_spec s Hok) as (Hok' & Hr' & Hh).
    split; [done |]. split.
    + destruct (result s) as [r |] eqn:Hr.
      * destruct (reset_shown s r Hr) as [Hs Ht].
        destruct (Hres r Hr) as (res & rvals & Ha & Hread & Hfits).
        exists rvals. rewrite Hs, Ht, Ha. done.
      * unfold handleReset. rewrite Hr. by exists vals.
    + eapply result_fits_extends; [done | | done]. rewrite Hh.
      apply store_extends_refl.
Qed.

Lemma run_fits (evs : list Event) (s : State) :
  state_ok s → fits s → result_fits s →
  ∃ s', run evs s = Some s' ∧ state_ok s' ∧ fits s' ∧ result_fits s'.
Proof.
  revert s. induction evs as [| ev evs IH]; intros s Hok Hfit Hres.
  - by exists s.
  - destruct (step_fits ev s Hok Hfit Hres) as (s1 & Hstep & Hok1 & Hfit1 & Hres1).
    destruct (IH s1 Hok1 Hfit1 Hres1) as (s' & Hrun & H').
    exists s'. cbn [run]. rewrite Hstep. done.
Qed.

Lemma read_fresh (objs0 vs : list GrammarError) :
  Forall2 (λ l v, (objs0 ++ vs) !! l = Some v)
          (seq (length objs0) (length vs)) vs.
Proof.
  revert objs0. induction vs as [| v vs IH]; intros objs0; [constructor |].
  cbn [length seq]. constructor; [by apply list_lookup_middle |].
  specialize (IH (objs0 ++ [v])). rewrite <- app_assoc in IH. cbn in IH.
  rewrite length_app in IH. cbn in IH.
  by replace (length objs0 + 1) with (S (length objs0)) in IH by lia.
Qed.

(** What the mount effect leaves on the page. *)
Lemma mount_shown (d : ResultData) (s : State) :
  state_ok s →
  ∃ r res,
    state_ok (mount d s)
    ∧ result (mount d s) = Some r
    ∧ originalText r = rd_originalText d
    ∧ correctedText r = rd_correctedText d
    ∧ displayText (mount d s) = rd_originalText d
    ∧ displayErrors (mount d s) = errors r
    ∧ arrs (heap (mount d s)) !! errors r = Some res
    ∧ mapM (λ l, objs (heap (mount d s)) !! l) res = Some (rd_errors d)
    ∧ shown (mount d s) = Some (rd_errors d).
Proof.
  intros Hok. destruct (mount_ok d s Hok) as [Hok' _].
  revert Hok'. unfold shown, mount, JSON_parse.
  destruct (alloc_errors_spec (rd_errors d) (heap s) (ok_closed s Hok))
    as (Hc1 & _ & _).
  assert (Ha : arrs (alloc_errors (rd_errors d) (heap s)).2
               !! (alloc_errors (rd_errors d) (heap s)).1
               = Some (seq (length (objs (heap s))) (length (rd_errors d))))
    by (cbn; by apply list_lookup_middle).
  assert (Hread : mapM (λ l, objs (alloc_errors (rd_errors d) (heap s)).2 !! l)
                       (seq (length (objs (heap s))) (length (rd_errors d)))
                  = Some (rd_errors d))
    by (apply mapM_Some; cbn; apply read_fresh).
  destruct (alloc_errors (rd_errors d) (heap s)) as [a h1]. cbn [fst snd] in *.
  destruct (parse_sentences_spec (rd_sentences d) h1 Hc1) as [_ He2].
  destruct (parse_sentences (rd_sentences d) h1) as [ss h2]. cbn [snd] in *.
  intros Hok'. eexists _, _. split; [exact Hok' |].
  split; [reflexivity |]. cbn [originalText correctedText errors displayText
                              displayErrors heap].
  split; [done |]. split; [done |]. split; [done |]. split; [done |].
  assert (Ha2 := store_extends_arr _ _ _ _ He2 Ha).
  assert (Hr2 := read_extends _ _ _ _ He2 Hread).
  split; [exact Ha2 |]. split; [exact Hr2 |]. by rewrite Ha2.
Qed.

Lemma mount_fits (d : ResultData) :
  well_formed d →
  state_ok (mount d initial) ∧ fits (mount d initial)
  ∧ result_fits (mount d initial).
Proof.
  intros Hd. destruct (mount_shown d initial state_ok_initial)
    as (r & res & Hok & Hr & Ho & _ & Ht & _ & Ha & Hread & Hshown).
  split; [done |]. split.
  - exists (rd_errors d). split; [done |]. by rewrite Ht.
  - intros r' Hr'. rewrite Hr in Hr'. injection Hr' as <-.
    exists res, (rd_errors d). by rewrite Ho.
Qed.

(** X3: on a page that loaded a result whose errors fit its original text
    (every span lies in the text and holds its original, no two spans
    start at the same offset or overlap), every sequence of clicks on
    "Apply Fix", "Apply All Fixes" and "Reset" is handled, and the errors
    shown afterwards fit the text shown afterwards in the same sense. *)
Theorem loaded_page_errors_fit
    (d : ResultData) (evs : list Event) (Hd : well_formed d) :
  ∃ s vals,
    run evs (mount d initial) = Some s
    ∧ state_ok s
    ∧ shown s = Some vals
    ∧ spans_ok (displayText s) vals.
Proof.
  destruct (mount_fits d Hd) as (Hok & Hfit & Hres).
  destruct (run_fits evs _ Hok Hfit Hres)
    as (s & Hrun & Hok' & (vals & Hshown & Hfits) & _).
  by exists s, vals.
Qed.

Lemma stored_two_typos_well_formed : well_formed stored_two_typos.
Proof.
  split; [| split].
  - vm_compute. repeat split; discriminate.
  - repeat constructor.
  - repeat constructor; vm_compute; discriminate.
Qed.

Lemma loaded_page_errors_fit_witness :
  well_formed stored_two_typos
  ∧ ∃ s vals,
      run [ApplyFix 1; Reset; ApplyFix 0; ApplyAllFixes; Reset; ApplyFix 0]
          (mount stored_two_typos initial) = Some s
      ∧ state_ok s
      ∧ shown s = Some vals
      ∧ spans_ok (displayText s) vals.
Proof.
  split; [apply stored_two_typos_well_formed |].
  apply (loaded_page_errors_fit stored_two_typos
           [ApplyFix 1; Reset; ApplyFix 0; ApplyAllFixes; Reset; ApplyFix 0]).
  split; [| split].
  - vm_compute. repeat split; discriminate.
  - repeat constructor.
  - repeat constructor; vm_compute; discriminate.
Defined.

Lemma clicks_fit (clicks : list nat) (s : State) (vals : list GrammarError) :
  state_ok s → shown s = Some vals → spans_ok (displayText s) vals →
  ∃ s' vals',
    run (ApplyFix <$> clicks) s = Some s'
    ∧ state_ok s'
    ∧ result s' = result s
    ∧ store_extends (heap s) (heap s')
    ∧ shown s' = Some vals'
    ∧ spans_ok (displayText s') vals'
    ∧ fully_corrected (displayText s') vals'
      = fully_corrected (displayText s) vals
    ∧ length vals' ≤ length vals
    ∧ ((∀ k i, clicks !! k = Some i → i + k < length vals) →
       length vals' = length vals - length clicks).
Proof.
  revert s vals. induction clicks as [| i clicks IH]; intros s vals Hok Hs Hfit.
  - exists s, vals. cbn. split; [done |]. split; [done |]. split; [done |].
    split; [apply store_extends_refl |]. split; [done |]. split; [done |].
    split; [done |]. split; [done |]. intros _. lia.
  - destruct (click_fix i s vals Hok Hs Hfit)
      as (s1 & vals1 & Hstep & Hok1 & Hr1 & Hext1 & Hs1 & Hfit1 & Hfull1 & Hlen1
          & _).
    destruct (IH s1 vals1 Hok1 Hs1 Hfit1)
      as (s' & vals' & Hrun & Hok' & Hr' & Hext' & Hs' & Hfit' & Hfull' & Hle & Hlen').
    exists s', vals'. cbn [fmap list_fmap run]. rewrite Hstep.
    cbn [mbind option_bind].
    split; [done |]. split; [done |]. split; [congruence |].
    split; [by eapply store_extends_trans |]. split; [done |].
    split; [done |]. split; [congruence |].
    split; [destruct (decide (i < length vals)); lia |].
    intros Hhit. pose proof (Hhit 0 i eq_refl) as H0.
    destruct (decide (i < length vals)); [| lia].
    rewrite Hlen'; [cbn [length]; lia |].
    intros k j Hk. specialize (Hhit (S k) j Hk). lia.
Qed.

(** X4: on a page that loaded a result whose errors fit its original
    text, single fixes commute: after any sequence of clicks on displayed
    errors, in any order, applying the suggestions of the errors still
    displayed to the displayed text gives the text that applying all the
    suggestions to the original text gives; so whenever the list has
    become empty this way the displayed text, which is then also what the
    comparison view gets as corrected text, is that text. *)
Theorem single_fixes_commute
    (d : ResultData) (clicks : list nat) (Hd : well_formed d) :
  ∃ s vals,
    run (ApplyFix <$> clicks) (mount d initial) = Some s
    ∧ shown s = Some vals
    ∧ fully_corrected (displayText s) vals
      = fully_corrected (rd_originalText d) (rd_errors d)
    ∧ length vals ≤ length (rd_errors d)
    ∧ (vals = [] →
       displayText s = fully_corrected (rd_originalText d) (rd_errors d)
       ∧ comparisonCorrected s = Some (displayText s)).
Proof.
  destruct (mount_shown d initial state_ok_initial)
    as (r & res & Hok & Hr & _ & _ & Ht & _ & _ & _ & Hshown).
  assert (Hfit : spans_ok (displayText (mount d initial)) (rd_errors d))
    by by rewrite Ht.
  destruct (clicks_fit clicks _ _ Hok Hshown Hfit)
    as (s & vals & Hrun & Hok' & Hr' & _ & Hs & _ & Hfull & Hle & _).
  rewrite Ht in Hfull.
  exists s, vals. split; [done |]. split; [done |]. split; [done |].
  split; [done |]. intros ->. rewrite fully_corrected_nil in Hfull.
  split; [done |]. unfold comparisonCorrected. rewrite Hr', Hr.
  cbn [mbind option_bind]. unfold shown in Hs.
  destruct (arrs (heap s) !! displayErrors s) as [es |]; [| done].
  cbn [mbind option_bind] in *. apply mapM_Some, Forall2_length in Hs.
  destruct es; [done | discriminate].
Qed.

Lemma single_fixes_commute_witness :
  well_formed stored_two_typos
  ∧ ∃ s,
      run (ApplyFix <$> [1; 0]) (mount stored_two_typos initial) = Some s
      ∧ shown s = Some []
      ∧ displayText s = lit "This is a test.".
Proof.
  split; [apply stored_two_typos_well_formed |].
  destruct (single_fixes_commute stored_two_typos [1; 0])
    as (s & vals & Hrun & Hs & Hfull & _ & Hnil).
  { split; [| split].
    - vm_compute. repeat split; discriminate.
    - repeat constructor.
    - repeat constructor; vm_compute; discriminate. }
  exists s. split; [done |].
  assert (Hv : vals = []).
  { vm_compute in Hrun. injection Hrun as <-. vm_compute in Hs. congruence. }
  subst vals. split; [done |]. destruct (Hnil eq_refl) as [-> _].
  reflexivity.
Defined.

(** X5: on a page that loaded a result with [n] errors that fit its
    original text, [n] clicks that each hit a displayed error, whichever
    ones, leave no error displayed and the text with every suggestion
    applied; the "All fixes applied" badge then shows when [n > 0], and
    the comparison view gets the displayed text as corrected text. *)
Theorem all_single_fixes_apply_everything
    (d : ResultData) (clicks : list nat) (Hd : well_formed d)
    (Hn : length clicks = length (rd_errors d))
    (Hhit : ∀ k i, clicks !! k = Some i → i + k < length (rd_errors d)) :
  ∃ s,
    run (ApplyFix <$> clicks) (mount d initial) = Some s
    ∧ shown s = Some []
    ∧ displayText s = fully_corrected (rd_originalText d) (rd_errors d)
    ∧ comparisonCorrected s = Some (displayText s)
    ∧ allFixesApplied s = Some (0 <? length (rd_errors d)).
Proof.
  destruct (mount_shown d initial state_ok_initial)
    as (r & res & Hok & Hr & _ & _ & Ht & _ & Ha & Hread & Hshown).
  assert (Hfit : spans_ok (displayText (mount d initial)) (rd_errors d))
    by by rewrite Ht.
  destruct (clicks_fit clicks _ _ Hok Hshown Hfit)
    as (s & vals & Hrun & Hok' & Hr' & Hext & Hs & _ & Hfull & _ & Hlen).
  rewrite Ht in Hfull. specialize (Hlen Hhit).
  assert (vals = []) as -> by (apply nil_length_inv; lia).
  rewrite fully_corrected_nil in Hfull.
  exists s. split; [done |]. split; [done |]. split; [done |].
  unfold comparisonCorrected, allFixesApplied. rewrite Hr', Hr.
  cbn [mbind option_bind]. unfold shown in Hs.
  destruct (arrs (heap s) !! displayErrors s) as [es |]; [| done].
  cbn [mbind option_bind] in *. apply mapM_Some, Forall2_length in Hs.
  destruct es; [| discriminate]. split; [done |].
  rewrite (store_extends_arr _ _ _ _ Hext Ha). cbn [mbind option_bind].
  apply mapM_Some, Forall2_length in Hread. by rewrite Hread.
Qed.

Lemma all_single_fixes_apply_everything_witness :
  well_formed stored_two_typos
  ∧ length [1; 0] = length (rd_errors stored_two_typos)
  ∧ (∀ k i, [1; 0] !! k = Some i → i + k < length (rd_errors stored_two_typos))
  ∧ ∃ s,
      run (ApplyFix <$> [1; 0]) (mount stored_two_typos initial) = Some s
      ∧ shown s = Some []
      ∧ displayText s = lit "This is a test."
      ∧ allFixesApplied s = Some true.
Proof.
  assert (Hhit : ∀ k i, [1; 0] !! k = Some i →
                        i + k < length (rd_errors stored_two_typos)).
  { intros [| [| k]] i [=]; subst; cbn; lia. }
  split; [apply stored_two_typos_well_formed |]. split; [reflexivity |].
  split; [exact Hhit |].
  destruct (all_single_fixes_apply_everything stored_two_typos [1; 0])
    as (s & Hrun & Hs & Ht & _ & Hall); [| reflexivity | exact Hhit |].
  { split; [| split].
    - vm_compute. repeat split; discriminate.
    - repeat constructor.
    - repeat constructor; vm_compute; discriminate. }
  exists s. split; [done |]. split; [done |]. split; [| done].
  rewrite Ht. reflexivity.
Defined.

End FixSequences.

(** ** The highlighted text of the result page *)

Section Highlights.
Import ResultPage HighlightedText Fixes Rendering.

Lemma insert_sorted_fmap {A B} (f : A → B) (k : B → Z) (x : A) (l : list A) :
  f <$> insert_sorted (by_key (λ a, k (f a))) x l
  = insert_sorted (by_key k) (f x) (f <$> l).
Proof.
  induction l as [| y l IH]; [done |]. cbn [insert_sorted fmap list_fmap].
  unfold by_key at 1 3. destruct (k (f x) - k (f y) <=? 0)%Z; [done |].
  cbn [fmap list_fmap]. f_equal. exact IH.
Qed.

(** Sorting the references by the start of their objects sorts the
    objects by their start. *)
Lemma sort_fmap {A B} (f : A → B) (k : B → Z) (l : list A) :
  f <$> sort (by_key (λ a, k (f a))) l = sort (by_key k) (f <$> l).
Proof.
  induction l as [| x l IH]; [done |]. unfold sort in *.
  cbn [foldr fmap list_fmap]. by rewrite insert_sorted_fmap, IH.
Qed.

Lemma sort_by_start (es : list loc) (vals : list GrammarError) :
  length es = length vals →
  (sort by_start (zip es vals)).*2 = sort (by_key span_start) vals.
Proof.
  intros Hlen.
  change by_start with (by_key (λ p : loc * GrammarError, span_start p.2)).
  rewrite (sort_fmap snd span_start). by rewrite snd_zip by lia.
Qed.

Lemma runs_chain (n c : Z) (sorted : list (loc * GrammarError)) :
  runs n c sorted.*2 →
  chain sorted
  ∧ Forall (λ y, (c <= start (position y.2))%Z ∧ proper y.2
                 ∧ (end_ (position y.2) <= n)%Z) sorted.
Proof.
  revert c. induction sorted as [| [l e] rest IH]; intros c Hr.
  - split; constructor.
  - cbn [fmap list_fmap snd runs] in Hr. destruct Hr as (Hc & He & Hr).
    destruct (IH _ Hr) as [Hch Hall]. pose proof (runs_bound _ _ _ Hr) as Hn.
    unfold span_start, span_end in *. split.
    + apply chain_cons. split; [| done].
      eapply Forall_impl; [exact Hall |]. cbn. tauto.
    + constructor; [done |]. eapply Forall_impl; [exact Hall |].
      cbn. intros y (? & ? & ?). split; [lia | done].
Qed.

(** A segment that carries an error was pushed for it. *)
Lemma walk_only (text : jsstring) (sorted : list (loc * GrammarError))
    (cur : Z) (sg : TextSegment) (l : loc) :
  sg ∈ (walk text cur sorted).1 → seg_error sg = Some l →
  ∃ e, (l, e) ∈ sorted
       ∧ seg_text sg = slice text (start (position e))
                             (Some (end_ (position e)))
       ∧ seg_start sg = start (position e)
       ∧ seg_end sg = end_ (position e).
Proof.
  revert cur. induction sorted as [| [l' e'] rest IH]; intros cur Hin Hl.
  - by apply elem_of_nil in Hin.
  - cbn [walk fst] in Hin. apply elem_of_app in Hin as [Hin | Hin].
    + destruct (start (position e') >? cur)%Z.
      * apply list_elem_of_singleton in Hin. subst sg. discriminate.
      * by apply elem_of_nil in Hin.
    + apply elem_of_cons in Hin as [-> | Hin].
      * cbn in Hl. injection Hl as ->. exists e'. split; [left | done].
      * destruct (IH _ Hin Hl) as (e & He & H). exists e.
        split; [by right | done].
Qed.

Lemma build_only (text : jsstring) (sorted : list (loc * GrammarError))
    (sg : TextSegment) (l : loc) :
  sg ∈ build text sorted → seg_error sg = Some l →
  ∃ e, (l, e) ∈ sorted
       ∧ seg_text sg = slice text (start (position e))
                             (Some (end_ (position e)))
       ∧ seg_start sg = start (position e)
       ∧ seg_end sg = end_ (position e).
Proof.
  rewrite build_walk. cbn zeta. intros Hin Hl.
  destruct (_ <? _)%Z.
  - apply elem_of_app in Hin as [Hin | Hin]; [by eapply walk_only |].
    apply list_elem_of_singleton in Hin. subst sg. discriminate.
  - by eapply walk_only.
Qed.

Lemma walk_texts (text : jsstring) (sorted : list (loc * GrammarError))
    (cur : Z) :
  Forall (λ sg, seg_text sg = slice text (seg_start sg) (Some (seg_end sg)))
         (walk text cur sorted).1
  ∧ length (walk text cur sorted).1 ≤ 2 * length sorted.
Proof.
  revert cur. induction sorted as [| [l e] rest IH]; intros cur.
  - split; [constructor | done].
  - destruct (IH (end_ (position e))) as [Ht Hn]. cbn [walk fst length].
    destruct (start (position e) >? cur)%Z; cbn [app length].
    + split; [by repeat constructor | lia].
    + split; [by repeat constructor | lia].
Qed.

(** The keys of the segments pushed by the loop go up. *)
Lemma walk_keys (text : jsstring) (sorted : list (loc * GrammarError)) :
  ∀ cur,
    Forall (λ y, (cur <= start (position y.2))%Z ∧ proper y.2) sorted →
    chain sorted →
    StronglySorted (λ a b, (start (position a.2) < start (position b.2))%Z)
                   sorted →
    let w := walk text cur sorted in
    StronglySorted key_lt w.1
    ∧ Forall (λ sg, (cur <= seg_start sg ∧ seg_start sg <= seg_end sg
                     ∧ seg_end sg <= w.2)%Z) w.1
    ∧ (cur <= w.2)%Z
    ∧ (Forall (λ y, (cur < start (position y.2))%Z) sorted →
       Forall (λ sg, (cur < seg_end sg)%Z) w.1).
Proof.
  induction sorted as [| [l e] rest IH]; intros cur Hall Hch Hst.
  - cbn. split; [constructor |]. split; [constructor |]. split; [lia |].
    constructor.
  - apply Forall_cons in Hall as [[Hce Hpe] Hall].
    apply chain_cons in Hch as [Hnext Hch].
    apply StronglySorted_inv in Hst as [Hst Hlt].
    unfold proper in Hpe. cbn [snd] in *.
    destruct (IH (end_ (position e))) as (Hs & Hb & Hw & Hgt); [| done | done |].
    { rewrite Forall_forall in Hall, Hnext. apply Forall_forall.
      intros y Hy. destruct (Hall y Hy). specialize (Hnext y Hy). done. }
    cbn [walk fst snd]. cbn zeta in Hs, Hb, Hw, Hgt.
    set (w := walk text (end_ (position e)) rest) in *.
    set (here := {| seg_text := slice text (start (position e))
                                      (Some (end_ (position e)));
                    seg_error := Some l;
                    seg_start := start (position e);
                    seg_end := end_ (position e) |}).
    assert (Hhere : Forall (key_lt here) w.1).
    { destruct (Z.eq_dec (start (position e)) (end_ (position e))) as [Heq | Hne].
      - assert (Hafter : Forall (λ sg, (end_ (position e) < seg_end sg)%Z) w.1).
        { apply Hgt. eapply Forall_impl; [exact Hlt |]. cbn beta. lia. }
        rewrite Forall_forall in Hb, Hafter. apply Forall_forall.
        intros sg Hsg. specialize (Hb sg Hsg). specialize (Hafter sg Hsg).
        unfold key_lt. cbn. lia.
      - eapply Forall_impl; [exact Hb |]. unfold key_lt. cbn. intros. lia. }
    assert (Hbounds : Forall (λ sg, (cur <= seg_start sg
                                     ∧ seg_start sg <= seg_end sg
                                     ∧ seg_end sg <= w.2)%Z) (here :: w.1)).
    { constructor; [cbn; lia |]. eapply Forall_impl; [exact Hb |].
      cbn beta. intros. lia. }
    destruct (Z.gtb_spec (start (position e)) cur) as [Hgap | Hnogap];
      cbn [app].
    + split; [| split; [| split]].
      * constructor; [by constructor |]. constructor; [left; cbn; lia |].
        eapply Forall_impl; [exact Hb |]. unfold key_lt. cbn. intros. lia.
      * constructor; [cbn; lia | done].
      * lia.
      * intros _. constructor; [cbn; lia |]. constructor; [cbn; lia |].
        eapply Forall_impl; [exact Hb |]. cbn beta. intros. lia.
    + split; [| split; [| split]].
      * by constructor.
      * done.
      * lia.
      * intros Hcur. apply Forall_cons in Hcur as [Hcur _]. cbn in Hcur. lia.
Qed.

Lemma key_lt_NoDup (segs : list TextSegment) :
  StronglySorted key_lt segs → NoDup (key <$> segs).
Proof.
  induction 1 as [| sg segs _ IH Hsg]; cbn; constructor; [| done].
  intros Hin. apply list_elem_of_fmap in Hin as (sg' & Hk & Hin).
  rewrite Forall_forall in Hsg. specialize (Hsg sg' Hin).
  unfold key in Hk. injection Hk as Hs He. unfold key_lt in Hsg. lia.
Qed.

Lemma build_keys (text : jsstring) (sorted : list (loc * GrammarError)) :
  Forall (λ y, (0 <= start (position y.2))%Z ∧ proper y.2) sorted →
  chain sorted →
  StronglySorted (λ a b, (start (position a.2) < start (position b.2))%Z)
                 sorted →
  NoDup (key <$> build text sorted).
Proof.
  intros Hall Hch Hst. apply key_lt_NoDup.
  destruct (walk_keys text sorted 0 Hall Hch Hst) as (Hs & Hb & _ & _).
  rewrite build_walk. cbn zeta in *.
  destruct (Z.ltb_spec (walk text 0 sorted).2 (Z.of_nat (length text)));
    [| done].
  apply sorting.StronglySorted_app. split; [| split; [done |]].
  - intros x1 x2 H1 H2. apply list_elem_of_singleton in H2. subst x2.
    rewrite Forall_forall in Hb. specialize (Hb x1 H1).
    unfold key_lt. cbn. lia.
  - repeat constructor.
Qed.

(** The segments of a text and errors that fit it. *)
Lemma segments_of_fit (text : jsstring) (errors : aref) (h : Store)
    (es : list loc) (vals : list GrammarError) :
  arrs h !! errors = Some es →
  mapM (λ l, objs h !! l) es = Some vals →
  spans_ok text vals →
  ∃ segs h',
    segments text errors h = Some (segs, h')
    ∧ covers (Z.of_nat (length text)) segs
    ∧ concat (map seg_text segs) = text
    ∧ (∀ sg l, sg ∈ segs → seg_error sg = Some l →
         ∃ v, objs h !! l = Some v ∧ seg_text sg = original v
              ∧ seg_start sg = span_start v ∧ seg_end sg = span_end v)
    ∧ NoDup (key <$> segs).
Proof.
  intros Hes Hvals (Hruns & Hstrict & Hholds).
  rewrite (segments_unfold text errors h es vals Hes Hvals).
  destruct (read_pairs h es vals Hvals) as [_ Hlen].
  pose proof Hvals as Hread. apply mapM_Some in Hread.
  destruct es as [| l0 es'].
  - cbn [length Nat.eqb]. eexists _, h. split; [reflexivity |].
    split; [by repeat split |]. split; [cbn; by rewrite app_nil_r |].
    split; [| repeat constructor; by intros ?%elem_of_nil].
    intros sg l Hin Hl. apply list_elem_of_singleton in Hin. by subst sg.
  - set (es := l0 :: es') in *. cbn [length Nat.eqb].
    set (sorted := sort by_start (zip es vals)).
    assert (Hperm : sorted ≡ₚ zip es vals) by apply sort_perm.
    assert (Hsnd : sorted.*2 = sort (by_key span_start) vals)
      by by apply sort_by_start.
    rewrite <- Hsnd in Hruns, Hstrict.
    destruct (runs_chain _ _ _ Hruns) as [Hch Hall].
    assert (Hne : sorted ≠ []).
    { intros Hnil. rewrite Hnil in Hperm. apply Permutation_length in Hperm.
      destruct vals; discriminate. }
    destruct (build_spec text sorted Hne Hall Hch)
      as (Hcov & _ & Hcat & _ & _).
    eexists _, _. split; [reflexivity |]. split; [done |]. split; [done |].
    split.
    + intros sg l Hin Hl.
      destruct (build_only text sorted sg l Hin Hl) as (e & He & Ht & Hs & Hen).
      exists e. rewrite Hperm in He.
      apply list_elem_of_lookup in He as [i Hi].
      apply lookup_zip_Some in Hi as [Hi1 Hi2].
      destruct (Forall2_lookup_l _ _ _ _ _ Hread Hi1) as (v & Hv & Hlv).
      rewrite Hi2 in Hv. injection Hv as <-. split; [done |].
      rewrite Forall_forall in Hholds.
      destruct (Hholds e) as (_ & _ & Horig);
        [by eapply list_elem_of_lookup_2 |].
      rewrite Ht. done.
    + apply build_keys; [| done |].
      * eapply Forall_impl; [exact Hall |]. cbn beta. tauto.
      * unfold strict_starts in Hstrict. clearbody sorted. clear -Hstrict.
        induction sorted as [| y sorted IH]; [constructor |].
        cbn [fmap list_fmap] in Hstrict.
        apply StronglySorted_inv in Hstrict as [Hs Hy].
        constructor; [by apply IH |]. rewrite Forall_fmap in Hy.
        eapply Forall_impl; [exact Hy |]. done.
Qed.

(** X6: in every state that the page reaches after loading a result whose
    errors fit its original text, [HighlightedText] gets a text and errors
    for which its segments tile the displayed text and spell it; every
    highlighted segment shows the original of the error it carries, over
    its span; and no two segments have the same start and end, the two
    numbers their React keys are made of. *)
Theorem loaded_page_highlights
    (d : ResultData) (evs : list Event) (Hd : well_formed d) :
  ∃ s segs h',
    run evs (mount d initial) = Some s
    ∧ segments (displayText s) (displayErrors s) (heap s) = Some (segs, h')
    ∧ covers (Z.of_nat (length (displayText s))) segs
    ∧ concat (map seg_text segs) = displayText s
    ∧ (∀ sg l, sg ∈ segs → seg_error sg = Some l →
         ∃ v, objs (heap s) !! l = Some v ∧ seg_text sg = original v
              ∧ seg_start sg = span_start v ∧ seg_end sg = span_end v)
    ∧ NoDup (key <$> segs).
Proof.
  destruct (mount_fits d Hd) as (Hok & Hfit & Hres).
  destruct (run_fits evs _ Hok Hfit Hres)
    as (s & Hrun & Hok' & (vals & Hshown & Hfits) & _).
  unfold shown in Hshown.
  destruct (arrs (heap s) !! displayErrors s) as [es |] eqn:Hes; [| done].
  cbn [mbind option_bind] in Hshown.
  destruct (segments_of_fit _ _ _ es vals Hes Hshown Hfits)
    as (segs & h' & Hsegs & H).
  by exists s, segs, h'.
Qed.

Lemma loaded_page_highlights_witness :
  well_formed stored_two_typos
  ∧ ∃ s segs h',
      run [ApplyFix 0] (mount stored_two_typos initial) = Some s
      ∧ segments (displayText s) (displayErrors s) (heap s) = Some (segs, h')
      ∧ concat (map seg_text segs) = lit "This is a tst."
      ∧ NoDup (key <$> segs).
Proof.
  split; [apply stored_two_typos_well_formed |].
  destruct (loaded_page_highlights stored_two_typos [ApplyFix 0])
    as (s & segs & h' & Hrun & Hsegs & _ & Hcat & _ & Hkeys).
  { split; [| split].
    - vm_compute. repeat split; discriminate.
    - repeat constructor.
    - repeat constructor; vm_compute; discriminate. }
  exists s, segs, h'. split; [done |]. split; [done |]. split; [| done].
  rewrite Hcat. vm_compute in Hrun. injection Hrun as <-. reflexivity.
Defined.

(** X7: whatever the spans of the errors are, overlapping or outside the
    text, [segments] returns for an array of valid references: between one
    and [2 * errors.length + 1] segments, each with the text that
    [text.slice(start, end)] gives for its own start and end; every error
    of the array carried by exactly one segment; and the array handed in
    with the same references in the same order. *)
Theorem segments_keep_every_error
    (text : jsstring) (errors : aref) (h : Store)
    (es : list loc) (vals : list GrammarError)
    (Hes : arrs h !! errors = Some es)
    (Hvals : mapM (λ l, objs h !! l) es = Some vals) :
  ∃ segs h',
    segments text errors h = Some (segs, h')
    ∧ omap seg_error segs ≡ₚ es
    ∧ Forall (λ sg, seg_text sg
                    = slice text (seg_start sg) (Some (seg_end sg))) segs
    ∧ 0 < length segs ≤ 2 * length es + 1
    ∧ arrs h' !! errors = Some es
    ∧ objs h' = objs h.
Proof.
  rewrite (segments_unfold text errors h es vals Hes Hvals).
  destruct (read_pairs h es vals Hvals) as [_ Hlen].
  destruct es as [| l0 es'].
  - cbn [length Nat.eqb]. eexists _, h. split; [reflexivity |].
    split; [done |]. split; [| cbn; split; [lia | done]].
    repeat constructor. cbn. by rewrite slice_whole.
  - set (es := l0 :: es') in *. cbn [length Nat.eqb].
    set (sorted := sort by_start (zip es vals)).
    assert (Hperm : sorted ≡ₚ zip es vals) by apply sort_perm.
    assert (Hn : length sorted = length es).
    { rewrite Hperm, length_zip. lia. }
    assert (Hne : sorted ≠ []) by (intros E; by rewrite E in Hn).
    clearbody sorted.
    destruct (walk_texts text sorted 0) as [Ht Hl].
    pose proof (walk_errors text sorted 0) as Herrs.
    pose proof (walk_nonempty text sorted 0 Hne) as Hw.
    eexists _, _. split; [reflexivity |]. rewrite build_walk. cbn zeta.
    assert (Hpos : 0 < length (walk text 0 sorted).1)
      by (destruct (walk text 0 sorted).1; [done | cbn; lia]).
    cbn [arrs objs].
    rewrite (lookup_app_l_Some _ _ _ _ Hes).
    destruct (_ <? _)%Z.
    + split; [| split; [| split; [| done]]].
      * rewrite omap_app, Herrs. cbn. rewrite app_nil_r.
        change (map fst sorted) with (sorted.*1).
        rewrite Hperm, fst_zip; [done | lia].
      * apply Forall_app. split; [done |]. repeat constructor. cbn.
        by rewrite slice_to_end.
      * rewrite length_app. cbn [length]. lia.
    + split; [| split; [| split; [| done]]].
      * rewrite Herrs. change (map fst sorted) with (sorted.*1).
        rewrite Hperm, fst_zip; [done | lia].
      * done.
      * lia.
Qed.

Lemma segments_keep_every_error_witness :
  arrs insertion_after_replacement !! 0 = Some [0; 1]
  ∧ mapM (λ l, objs insertion_after_replacement !! l) [0; 1]
    = Some (objs insertion_after_replacement)
  ∧ ∃ segs h',
      segments (lit "abcde") 0 insertion_after_replacement = Some (segs, h')
      ∧ omap seg_error segs ≡ₚ [0; 1]
      ∧ length segs = 4.
Proof.
  split; [reflexivity |]. split; [reflexivity |].
  destruct (segments_keep_every_error (lit "abcde") 0
              insertion_after_replacement [0; 1]
              (objs insertion_after_replacement) eq_refl eq_refl)
    as (segs & h' & Hsegs & Hperm & _).
  exists segs, h'. split; [done |]. split; [done |].
  vm_compute in Hsegs. by injection Hsegs as <- _.
Defined.

End Highlights.

(** ** The sentence navigator *)

Section Navigation.
Import SentenceNavigator.

Lemma navigate_in_range (sentences : list SentenceAnalysis) (i : Z)
    (c : Click) :
  (0 <= i)%Z ∧ (1 < length sentences → (i < Z.of_nat (length sentences))%Z)
  ∧ (length sentences ≤ 1 → i = 0%Z) →
  (0 <= navigate sentences i c)%Z
  ∧ (1 < length sentences →
     (navigate sentences i c < Z.of_nat (length sentences))%Z)
  ∧ (length sentences ≤ 1 → navigate sentences i c = 0%Z).
Proof.
  intros (H0 & Hlt & Hone). unfold navigate.
  destruct (Nat.ltb_spec 1 (length sentences)) as [Hn | Hn];
    [| split; [done | split; [lia | done]]].
  specialize (Hlt Hn). unfold click, rendered, hasPrev, hasNext.
  destruct (Nat.leb_spec (length sentences) 1) as [| _]; [lia |].
  cbn [negb]. destruct c as [| | j].
  - destruct (Z.gtb_spec i 0); cbn; split; try split; intros; lia.
  - destruct (Z.ltb_spec i (Z.of_nat (length sentences) - 1)); cbn;
      split; try split; intros; lia.
  - destruct (Nat.ltb_spec j (length sentences)); cbn;
      split; try split; intros; lia.
Qed.

(** X8: on the result page the sentence index starts at 0 and, whatever
    is clicked in the navigator, stays an index of a sentence whenever the
    navigator is shown, so that [sentences[currentIndex]] is never
    [undefined] there; with at most one sentence it stays 0. *)
Theorem sentence_index_stays_in_range
    (sentences : list SentenceAnalysis) (clicks : list Click) :
  let i := navigate_all sentences clicks in
  (0 <= i)%Z
  ∧ (1 < length sentences →
     (i < Z.of_nat (length sentences))%Z
     ∧ is_Some (currentSentence sentences i))
  ∧ (length sentences ≤ 1 → i = 0%Z).
Proof.
  cbn zeta.
  assert (H : (0 <= navigate_all sentences clicks)%Z
              ∧ (1 < length sentences →
                 (navigate_all sentences clicks
                  < Z.of_nat (length sentences))%Z)
              ∧ (length sentences ≤ 1 → navigate_all sentences clicks = 0%Z)).
  { unfold navigate_all. induction clicks as [| c clicks IH] using rev_ind.
    - cbn. split; [lia | split; [lia | done]].
    - rewrite fold_left_app. cbn [fold_left]. by apply navigate_in_range. }
  destruct H as (H0 & Hlt & Hone). split; [done |]. split; [| done].
  intros Hn. specialize (Hlt Hn). split; [done |]. unfold currentSentence.
  destruct (Z.ltb_spec (navigate_all sentences clicks) 0); [lia |].
  apply lookup_lt_is_Some_2. lia.
Qed.

(** X9: from an index of a sentence, "next" followed by "previous" and
    "previous" followed by "next" come back to it whenever the first
    button is enabled; the buttons do nothing at the two ends; and the dot
    of a sentence goes to that sentence. *)
Theorem navigator_round_trips
    (sentences : list SentenceAnalysis) (i : Z)
    (Hi : (0 <= i < Z.of_nat (length sentences))%Z) :
  (hasNext sentences i = true →
   navigate sentences (navigate sentences i Next) Prev = i)
  ∧ (hasPrev i = true →
     navigate sentences (navigate sentences i Prev) Next = i)
  ∧ (hasNext sentences i = false → navigate sentences i Next = i)
  ∧ (hasPrev i = false → navigate sentences i Prev = i)
  ∧ (∀ j, j < length sentences →
          navigate sentences i (Dot j) = Z.of_nat j).
Proof.
  unfold navigate, click, rendered, hasPrev, hasNext.
  destruct (Nat.ltb_spec 1 (length sentences)) as [Hn | Hn].
  - destruct (Nat.leb_spec (length sentences) 1) as [| _]; [lia |].
    cbn [negb]. split; [| split; [| split; [| split]]].
    + intros ->. cbn [negb default]. unfold id.
      destruct (Z.gtb_spec (i + 1) 0); [cbn; lia | lia].
    + intros ->. cbn [negb default]. unfold id.
      destruct (Z.ltb_spec (i - 1) (Z.of_nat (length sentences) - 1));
        [cbn; lia | lia].
    + by intros ->.
    + by intros ->.
    + intros j Hj. by destruct (Nat.ltb_spec j (length sentences)); [| lia].
  - split; [| split; [| split; [done | split; [done |]]]].
    + intros H. apply Z.ltb_lt in H. lia.
    + intros H. apply Z.gtb_lt in H. lia.
    + intros j Hj. lia.
Qed.

Lemma navigator_round_trips_witness :
  let sentences :=
    replicate 3 {| index := 0; sa_original := []; sa_corrected := [];
                   sa_errors := 0; fluencyScore := 0 |} in
  (0 <= 1 < Z.of_nat (length sentences))%Z
  ∧ navigate sentences (navigate sentences 1 Next) Prev = 1%Z
  ∧ navigate sentences 1 (Dot 2) = 2%Z.
Proof.
  intros sentences.
  assert (Hi : (0 <= 1 < Z.of_nat (length sentences))%Z) by (cbn; lia).
  destruct (navigator_round_trips sentences 1 Hi) as (Hnp & _ & _ & _ & Hdot).
  split; [exact Hi |]. split; [by apply Hnp |]. apply Hdot. cbn. lia.
Defined.

End Navigation.

(** ** The home page *)

Section HomePageFacts.
Import Home HomePage.

Lemma trimStart_nil (t : jsstring) :
  trimStart t = [] → Forall (λ c, isWhiteSpace c = true) t.
Proof.
  induction t as [| c t IH]; [constructor |]. cbn [trimStart].
  destruct (isWhiteSpace c) eqn:Hc; [| discriminate].
  intros H. constructor; [done | by apply IH].
Qed.

Lemma trimStart_head (t : jsstring) :
  match trimStart t with
  | [] => True
  | c :: _ => isWhiteSpace c = false
  end.
Proof.
  induction t as [| c t IH]; [done |]. cbn [trimStart].
  by destruct (isWhiteSpace c) eqn:Hc.
Qed.

(** [trim] leaves nothing exactly of the texts made of white space. *)
Lemma trim_nil (t : jsstring) :
  trim t = [] ↔ Forall (λ c, isWhiteSpace c = true) t.
Proof.
  split; [| apply trim_blank]. unfold trim. intros H.
  assert (H1 : trimStart (rev (trimStart t)) = []).
  { destruct (trimStart (rev (trimStart t))) as [| a l]; [done |].
    cbn [rev] in H. by apply app_eq_nil in H as [_ [=]]. }
  apply trimStart_nil, List.Forall_rev in H1. rewrite rev_involutive in H1.
  pose proof (trimStart_head t) as Hh.
  destruct (trimStart t) as [| c l] eqn:Ht; [by apply trimStart_nil |].
  apply Forall_cons in H1 as [Hc _]. congruence.
Qed.

Lemma blank_or_not (t : jsstring) :
  ¬ Forall (λ c, isWhiteSpace c = true) t
  ↔ Exists (λ c, isWhiteSpace c = false) t.
Proof.
  induction t as [| c t IH].
  - split; [intros H; destruct H; constructor | by intros ?%Exists_nil].
  - rewrite Forall_cons, Exists_cons, <- IH.
    destruct (isWhiteSpace c); split.
    + intros H. right. intros Ht. by apply H.
    + intros [? | H] [_ Ht]; [done | by apply H].
    + by left.
    + by intros _ [? _].
Qed.

(** X10: the "Check Grammar" button is enabled, as far as the input goes,
    exactly when, in text mode, the text has a character that is not white
    space and, in file mode, a file is selected. *)
Theorem canSubmit_iff (s : Home.State) :
  canSubmit s = true
  ↔ match inputMode s with
    | TextMode => Exists (λ c, isWhiteSpace c = false) (text s)
    | FileMode => ∃ f, selectedFile s = Some f
    end.
Proof.
  unfold canSubmit. destruct (inputMode s).
  - rewrite <- blank_or_not, <- trim_nil.
    destruct (trim (text s)); cbn; split; done.
  - rewrite bool_decide_eq_true. split; [intros [f Hf]; eauto |].
    intros [f ->]. eauto.
Qed.

(** X11: [handleSubmit] does nothing when [canSubmit] is false; otherwise
    it sets the loading flag, clears the error and issues one call: in
    text mode [checkText] with the text as it is, not trimmed, in file
    mode [checkFile] with the selected file, both with the current n-gram
    mode. Its ['No input provided'] branch is never taken. *)
Theorem submit_issues_call_iff_enabled (s : Home.State) :
  (canSubmit s = false ∧ handleSubmit s = (s, None)
   ∨ canSubmit s = true
     ∧ ∃ c,
         handleSubmit s
         = ({| inputMode := inputMode s; ngramMode := ngramMode s;
               text := text s; selectedFile := selectedFile s;
               isLoading := true; error := None |}, Some c)
         ∧ match inputMode s with
           | TextMode => c = checkText (text s) (ngramMode s)
           | FileMode =>
               ∃ f, selectedFile s = Some f ∧ c = checkFile f (ngramMode s)
           end)
  ∧ (error (handleSubmit s).1 = Some (lit "No input provided") →
     error s = Some (lit "No input provided")).
Proof.
  unfold handleSubmit. destruct (canSubmit s) eqn:Hc; cbn [negb].
  - unfold canSubmit in Hc. destruct (inputMode s).
    + split; [| discriminate]. right. split; [done |]. by eexists.
    + apply bool_decide_eq_true in Hc as [f ->]. split; [| discriminate].
      right.
      split; [done |]. eexists. split; [done |]. by exists f.
  - split; [by left | done].
Qed.

Lemma handleSubmit_enabled (h : Home.State) :
  canSubmit h = true →
  ∃ c, handleSubmit h
       = ({| inputMode := inputMode h; ngramMode := ngramMode h;
             text := text h; selectedFile := selectedFile h;
             isLoading := true; error := None |}, Some c)
       ∧ match c with
         | checkText t _ => t = text h ∧ trim t ≠ []
         | checkFile f _ => selectedFile h = Some f
         end.
Proof.
  intros Hc. pose proof Hc as Hc'. unfold handleSubmit. rewrite Hc.
  cbn [negb]. unfold canSubmit in Hc'. destruct (inputMode h).
  - eexists. split; [done |]. split; [done |].
    by destruct (trim (text h)).
  - apply bool_decide_eq_true in Hc' as [f Hf]. rewrite Hf.
    eexists. by split.
Qed.

Lemma select_all (calls : list File) (h : Home.State) :
  let h' := fold_left (λ s f, handleFileSelect f s) calls h in
  text h' = text h ∧ isLoading h' = isLoading h
  ∧ inputMode h' = inputMode h ∧ ngramMode h' = ngramMode h
  ∧ (calls = [] ∧ h' = h ∨ ∃ f, f ∈ calls ∧ selectedFile h' = Some f).
Proof.
  cbn zeta. induction calls as [| f calls IH] using rev_ind.
  - cbn. repeat split; by left.
  - rewrite fold_left_app. cbn [fold_left handleFileSelect text isLoading
                                inputMode ngramMode selectedFile].
    destruct IH as (? & ? & ? & ? & _). repeat split; try done.
    right. exists f. split; [| done]. apply elem_of_app. right. left.
Qed.

(** The upload component hands on validated files only. *)
Lemma offer_calls (o : FileUpload.Offer) (s : FileUpload.State) (f : File) :
  f ∈ (FileUpload.offer o s).2 → FileUpload.validateFile f = None.
Proof.
  assert (Hfile : ∀ g s0, f ∈ (FileUpload.handleFile g s0).2 →
                          FileUpload.validateFile f = None).
  { intros g s0. unfold FileUpload.handleFile.
    destruct (FileUpload.validateFile g) as [m |] eqn:Hg.
    - rewrite (validateFile_truthy g m Hg). by intros ?%elem_of_nil.
    - intros Hin. apply list_elem_of_singleton in Hin. by subst. }
  destruct o as [files | files]; cbn [FileUpload.offer].
  - unfold FileUpload.handleDrop. destruct (FileUpload.disabled s);
      [by intros ?%elem_of_nil |].
    destruct files; [by intros ?%elem_of_nil | apply Hfile].
  - unfold FileUpload.handleInputChange.
    destruct files as [[| g files] |]; try by intros ?%elem_of_nil.
    apply Hfile.
Qed.

Lemma text_step_rest (ev : TextEvent) (h : Home.State) :
  selectedFile (text_step ev h) = selectedFile h
  ∧ isLoading (text_step ev h) = isLoading h.
Proof.
  destruct ev as [v |]; cbn; [| done].
  by destruct (TextInput.handleChange v).
Qed.

Lemma loading_freezes
    (u : UserEvent) (h : Home.State) (up : FileUpload.State)
    (Hloading : isLoading h = true) :
  (user_step u (h, up)).1.1 = h
  ∧ FileUpload.error (user_step u (h, up)).1.2 = FileUpload.error up
  ∧ (user_step u (h, up)).2 = None.
Proof.
  destruct u as [m | m | v | | o | |]; cbn [user_step]; rewrite ?Hloading;
    try done.
  - by destruct (inputMode h).
  - by destruct (inputMode h).
  - destruct (inputMode h); [done |]. destruct o as [files | files]; [| done].
    unfold upload_step. cbn [FileUpload.offer snd fst].
    unfold FileUpload.handleDrop. cbn [render_upload FileUpload.disabled].
    by rewrite Hloading.
  - by destruct (inputMode h), (selectedFile h).
  - by rewrite orb_true_r.
Qed.

(** A user event on a page that is not loading either issues a call and
    sets the loading flag, or does neither. *)
Lemma user_step_idle (u : UserEvent) (h : Home.State)
    (up : FileUpload.State) :
  isLoading h = false →
  match (user_step u (h, up)).2 with
  | Some _ => isLoading (user_step u (h, up)).1.1 = true
  | None => isLoading (user_step u (h, up)).1.1 = false
  end.
Proof.
  intros Hl.
  destruct u as [m | m | v | | o | |]; cbn [user_step]; rewrite ?Hl;
    cbn [fst snd setInputMode setNgramMode isLoading orb]; try done.
  - destruct (inputMode h); cbn [fst snd]; [| done].
    by rewrite (proj2 (text_step_rest _ _)).
  - destruct (inputMode h); cbn [fst snd]; [| done].
    destruct (negb _); cbn [fst snd]; [done |].
    by rewrite (proj2 (text_step_rest _ _)).
  - destruct (inputMode h); cbn [fst snd]; [done |].
    assert (H : ∀ o', isLoading (upload_step o' (h, render_upload h up)).1
                      = false).
    { intros o'. unfold upload_step.
      destruct (FileUpload.offer o' (h, render_upload h up).2) as [u' calls].
      cbn [fst snd].
      pose proof (select_all calls h) as Hall. cbn zeta in Hall.
      by destruct Hall as (_ & -> & _). }
    destruct o; cbn [fst snd]; apply H.
  - by destruct (inputMode h), (selectedFile h).
  - rewrite orb_false_r. destruct (canSubmit h) eqn:Hc; cbn [negb fst snd];
      [| done].
    destruct (handleSubmit_enabled h Hc) as (c & -> & _). done.
Qed.

Lemma step_in_flight (ev : Event) (p : Page) :
  isLoading (home p) = bool_decide (inflight p = 1) ∧ inflight p ≤ 1 →
  isLoading (home (step ev p).1) = bool_decide (inflight (step ev p).1 = 1)
  ∧ inflight (step ev p).1 ≤ 1
  ∧ (inflight p = 1 → (step ev p).2 = None).
Proof.
  intros [Hl Hle]. destruct ev as [u | failure]; cbn [step].
  - destruct (isLoading (home p)) eqn:Hload.
    + symmetry in Hl. apply bool_decide_eq_true in Hl.
      destruct (loading_freezes u (home p) (upload p) Hload)
        as (Hh & _ & Hc).
      destruct (user_step u (home p, upload p)) as [[h up] c].
      cbn [fst snd] in *. subst. cbn [home inflight fst snd].
      rewrite Hload, Hl. by rewrite bool_decide_eq_true_2 by lia.
    + symmetry in Hl. apply bool_decide_eq_false in Hl.
      pose proof (user_step_idle u (home p) (upload p) Hload) as Hidle.
      destruct (user_step u (home p, upload p)) as [[h up] [c |]];
        cbn [fst snd home inflight] in *; rewrite Hidle.
      * split; [| split; [lia | lia]].
        by rewrite bool_decide_eq_true_2 by lia.
      * split; [| split; [lia | done]].
        by rewrite bool_decide_eq_false_2 by lia.
  - destruct (inflight p) as [| n] eqn:Hn; cbn [fst snd home inflight settle
                                               isLoading].
    + rewrite Hn. split; [done |]. split; [lia | done].
    + split; [| split; [lia | done]].
      by rewrite bool_decide_eq_false_2 by lia.
Qed.

Lemma run_cons (ev : Event) (evs : list Event) (p : Page) :
  run (ev :: evs) p
  = ((run evs (step ev p).1).1,
     match (step ev p).2 with
     | Some c => c :: (run evs (step ev p).1).2
     | None => (run evs (step ev p).1).2
     end).
Proof.
  cbn [run]. destruct (step ev p) as [p1 c]. cbn [fst snd].
  by destruct (run evs p1) as [p2 cs].
Qed.

(** X12: while a request is under way ([isLoading]) the page is frozen:
    whatever the user clicks, types, drops or picks, and however often, the
    state of the page and the message of the upload zone stay as they are
    and no call is issued. *)
Theorem frozen_while_loading
    (us : list UserEvent) (p : Page)
    (Hloading : isLoading (home p) = true) :
  home (run (User <$> us) p).1 = home p
  ∧ FileUpload.error (upload (run (User <$> us) p).1)
    = FileUpload.error (upload p)
  ∧ inflight (run (User <$> us) p).1 = inflight p
  ∧ (run (User <$> us) p).2 = [].
Proof.
  revert p Hloading. induction us as [| u us IH]; intros p Hl; [done |].
  cbn [fmap list_fmap]. rewrite run_cons. cbn [fst snd step].
  destruct (loading_freezes u (home p) (upload p) Hl) as (Hh & He & Hc).
  destruct (user_step u (home p, upload p)) as [[h up] c].
  cbn [fst snd] in *. subst h c.
  destruct (IH {| home := home p; upload := up; inflight := inflight p + 0 |})
    as (IH1 & IH2 & IH3 & IH4); [done |].
  cbn [home upload inflight] in *.
  rewrite IH1, IH2, IH3, IH4, He. repeat split; lia.
Qed.

Lemma frozen_while_loading_witness :
  let f := {| name := lit "essay.txt"; size := 1024 |} in
  let p := (run [User (Typing (lit "Ths is a tst.")); User ClickSubmit]
                initial).1 in
  let us := [Typing (lit "more"); ClickInputMode FileMode;
             Offering (FileUpload.Drop [f]); ClickSubmit; ClickClear] in
  isLoading (home p) = true
  ∧ home (run (User <$> us) p).1 = home p
  ∧ (run (User <$> us) p).2 = [].
Proof.
  intros f p us. assert (Hl : isLoading (home p) = true) by reflexivity.
  destruct (frozen_while_loading us p Hl) as (Hh & _ & _ & Hc).
  split; [exact Hl |]. split; [exact Hh | exact Hc].
Defined.

Lemma run_in_flight (evs : list Event) (p : Page) :
  isLoading (home p) = bool_decide (inflight p = 1) ∧ inflight p ≤ 1 →
  isLoading (home (run evs p).1) = bool_decide (inflight (run evs p).1 = 1)
  ∧ inflight (run evs p).1 ≤ 1.
Proof.
  revert p. induction evs as [| ev evs IH]; intros p Hp; [done |].
  rewrite run_cons. cbn [fst]. apply IH.
  destruct (step_in_flight ev p Hp) as (? & ? & _). done.
Qed.

Lemma user_run_one_call (us : list UserEvent) (p : Page) :
  isLoading (home p) = bool_decide (inflight p = 1) ∧ inflight p ≤ 1 →
  length (run (User <$> us) p).2 + inflight p ≤ 1.
Proof.
  revert p. induction us as [| u us IH]; intros p Hp; [cbn; lia |].
  cbn [fmap list_fmap]. rewrite run_cons. cbn [snd].
  destruct (step_in_flight (User u) p Hp) as (Hl & Hle & Hnone).
  specialize (IH (step (User u) p).1 (conj Hl Hle)).
  cbn [step] in *.
  destruct (user_step u (home p, upload p)) as [[h up] [c |]];
    cbn [fst snd inflight length] in *; lia.
Qed.

(** X13: at most one request is under way at any time: after any sequence
    of user events and finished calls from the first render, the loading
    flag is set exactly when one call has been issued and has not
    finished, and there is never a second one; without a finished call,
    the user gets at most one call issued, however often "Check Grammar"
    is clicked. *)
Theorem one_request_in_flight (evs : list Event) (us : list UserEvent) :
  inflight (run evs initial).1 ≤ 1
  ∧ (isLoading (home (run evs initial).1) = true
     ↔ inflight (run evs initial).1 = 1)
  ∧ length (run (User <$> us) initial).2 ≤ 1.
Proof.
  assert (H0 : isLoading (home initial) = bool_decide (inflight initial = 1)
               ∧ inflight initial ≤ 1) by (split; [done | cbn; lia]).
  destruct (run_in_flight evs initial H0) as [Hl Hle].
  split; [done |]. split.
  - rewrite Hl. apply bool_decide_eq_true.
  - pose proof (user_run_one_call us initial H0). lia.
Qed.

(** What every state of the page satisfies. *)
Lemma user_step_sound (u : UserEvent) (h : Home.State)
    (up : FileUpload.State) :
  (Z.of_nat (length (text h)) <= MAX_TEXT_LENGTH)%Z →
  (∀ f, selectedFile h = Some f → FileUpload.validateFile f = None) →
  (Z.of_nat (length (text (user_step u (h, up)).1.1)) <= MAX_TEXT_LENGTH)%Z
  ∧ (∀ f, selectedFile (user_step u (h, up)).1.1 = Some f →
          FileUpload.validateFile f = None)
  ∧ (∀ c, (user_step u (h, up)).2 = Some c → call_ok c).
Proof.
  intros Ht Hf.
  destruct u as [m | m | v | | o | |]; cbn [user_step].
  - by destruct (isLoading h).
  - by destruct (isLoading h).
  - destruct (inputMode h); [| done]. destruct (isLoading h); [done |].
    cbn [fst snd]. split; [by apply text_step_bounded |].
    by rewrite (proj1 (text_step_rest _ _)).
  - destruct (inputMode h); [| done]. destruct (_ || _); [done |].
    cbn [fst snd]. split; [by apply text_step_bounded |].
    by rewrite (proj1 (text_step_rest _ _)).
  - destruct (inputMode h); [done |].
    assert (H : ∀ o',
      (Z.of_nat (length (text (upload_step o' (h, render_upload h up)).1))
       <= MAX_TEXT_LENGTH)%Z
      ∧ ∀ f, selectedFile (upload_step o' (h, render_upload h up)).1 = Some f →
             FileUpload.validateFile f = None).
    { intros o'. unfold upload_step.
      pose proof (offer_calls o' (h, render_upload h up).2) as Hcalls.
      destruct (FileUpload.offer o' (h, render_upload h up).2) as [u' calls].
      cbn [fst snd] in *.
      pose proof (select_all calls h) as Hall. cbn zeta in Hall.
      destruct Hall as (-> & _ & _ & _ & Hsel).
      split; [done |]. intros f Hsome.
      destruct Hsel as [[_ Heq] | (g & Hg & Hsel)];
        [rewrite Heq in Hsome; by apply Hf |].
      rewrite Hsel in Hsome. injection Hsome as <-. by apply Hcalls. }
    destruct o as [files | files]; [| destruct (isLoading h); [done |]];
      cbn [fst snd]; (split; [apply H | split; [apply H | done]]).
  - destruct (inputMode h), (selectedFile h) eqn:Hs, (isLoading h);
      cbn [fst snd handleClearFile text selectedFile]; rewrite ?Hs; done.
  - destruct (negb (canSubmit h) || isLoading h) eqn:Hen; [done |].
    apply orb_false_iff in Hen as [Hc _]. apply negb_false_iff in Hc.
    destruct (handleSubmit_enabled h Hc) as (c & -> & Hcall).
    cbn [fst snd text selectedFile]. split; [done |]. split; [done |].
    intros c' [= <-]. destruct c as [t m | f m]; cbn [call_ok].
    + destruct Hcall as [-> ?]. done.
    + by apply Hf.
Qed.

Lemma run_sound (evs : list Event) (p : Page) :
  (Z.of_nat (length (text (home p))) <= MAX_TEXT_LENGTH)%Z →
  (∀ f, selectedFile (home p) = Some f → FileUpload.validateFile f = None) →
  (Z.of_nat (length (text (home (run evs p).1))) <= MAX_TEXT_LENGTH)%Z
  ∧ (∀ f, selectedFile (home (run evs p).1) = Some f →
          FileUpload.validateFile f = None)
  ∧ Forall call_ok (run evs p).2.
Proof.
  revert p. induction evs as [| ev evs IH]; intros p Ht Hf;
    [by repeat split |].
  rewrite run_cons. cbn [fst snd].
  assert (H1 :
    (Z.of_nat (length (text (home (step ev p).1))) <= MAX_TEXT_LENGTH)%Z
    ∧ (∀ f, selectedFile (home (step ev p).1) = Some f →
            FileUpload.validateFile f = None)
    ∧ (∀ c, (step ev p).2 = Some c → call_ok c)).
  { destruct ev as [u | failure]; cbn [step].
    - pose proof (user_step_sound u (home p) (upload p) Ht Hf) as H.
      by destruct (user_step u (home p, upload p)) as [[h up] c].
    - by destruct (inflight p). }
  destruct H1 as (Ht1 & Hf1 & Hc1).
  destruct (IH _ Ht1 Hf1) as (Ht2 & Hf2 & Hcs).
  split; [done |]. split; [done |].
  destruct (step ev p).2 as [c |]; [| done]. constructor; [by apply Hc1 | done].
Qed.

(** X14: whatever the user does on the home page from its first render,
    and however the calls finish: the text of the page never exceeds the
    limit, so the counter of the text input never turns to its over-limit
    colour; a selected file is always one that passed [validateFile]; and
    every call issued carries a text within the limit that is not blank,
    or a file that passed [validateFile]. *)
Theorem home_page_sound (evs : list Event) :
  let p := (run evs initial).1 in
  (Z.of_nat (length (text (home p))) <= MAX_TEXT_LENGTH)%Z
  ∧ TextInput.isOverLimit (text (home p)) = false
  ∧ (∀ f, selectedFile (home p) = Some f → FileUpload.validateFile f = None)
  ∧ Forall call_ok (run evs initial).2.
Proof.
  cbn zeta. destruct (run_sound evs initial) as (Ht & Hf & Hc);
    [by vm_compute | done |].
  split; [done |]. split; [| done]. unfold TextInput.isOverLimit.
  destruct (Z.gtb_spec (Z.of_nat (length (text (home (run evs initial).1))))
              MAX_TEXT_LENGTH); [lia | done].
Qed.

End HomePageFacts.

(** ** Fixes that change nothing *)

Section NoOpFix.
Import ResultPage Fixes.

Lemma fix_text_same (T : jsstring) (e : GrammarError) :
  holds T e → suggestion e = original e → fix_text T e = T.
Proof.
  intros He Hs. destruct (fix_text_parts T e He) as (X & Y & HT & -> & _).
  by rewrite Hs, <- HT.
Qed.

(** X15: applying the fix of an error whose suggestion is its original,
    on a newly loaded result whose errors fit its text, takes the error
    off the list and leaves the text as it is; [hasAppliedFixes], which
    compares the texts, stays false, so the "Reset" button that would
    bring the error back is not rendered. *)
Theorem noop_fix_hides_reset
    (d : ResultData) (i : nat) (e : GrammarError)
    (Hd : well_formed d)
    (Hi : rd_errors d !! i = Some e)
    (Hsame : suggestion e = original e) :
  ∃ s vals,
    step (ApplyFix i) (mount d initial) = Some s
    ∧ displayText s = rd_originalText d
    ∧ hasAppliedFixes s = Some false
    ∧ shown s = Some vals
    ∧ S (length vals) = length (rd_errors d).
Proof.
  destruct (mount_shown d initial state_ok_initial)
    as (r & res & Hok & Hr & Ho & _ & Ht & _ & _ & _ & Hshown).
  assert (Hfit : spans_ok (displayText (mount d initial)) (rd_errors d))
    by by rewrite Ht.
  destruct (click_fix i _ _ Hok Hshown Hfit)
    as (s & vals & Hstep & _ & Hr' & _ & Hs & _ & _ & Hlen & Htext).
  rewrite Hi, Ht in Htext.
  assert (He : holds (rd_originalText d) e).
  { destruct Hd as (_ & _ & Hall). rewrite Forall_forall in Hall.
    apply Hall. by eapply list_elem_of_lookup_2. }
  rewrite (fix_text_same _ _ He Hsame) in Htext.
  exists s, vals. split; [done |]. split; [done |]. split; [| split; [done |]].
  - unfold hasAppliedFixes. rewrite Hr', Hr. cbn [mbind option_bind].
    rewrite Htext, Ho. by rewrite bool_decide_eq_true_2.
  - apply lookup_lt_Some in Hi.
    destruct (decide (i < length (rd_errors d))); lia.
Qed.

Lemma noop_fix_hides_reset_witness :
  let e := {| type := Punctuation; position := {| start := 2; end_ := 3 |};
              original := lit "c"; suggestion := lit "c";
              explanation := []; sentenceIndex := 0 |} in
  let d := {| rd_originalText := lit "abcde"; rd_correctedText := lit "abcde";
              rd_errors := [e]; rd_confidenceScore := 100;
              rd_sentences := []; rd_ngramMode := RBigram;
              rd_processingTimeMs := 1 |} in
  well_formed d
  ∧ rd_errors d !! 0 = Some e
  ∧ suggestion e = original e
  ∧ ∃ s, step (ApplyFix 0) (mount d initial) = Some s
         ∧ hasAppliedFixes s = Some false
         ∧ shown s = Some [].
Proof.
  intros e d.
  assert (Hd : well_formed d).
  { split; [| split].
    - vm_compute. repeat split; discriminate.
    - repeat constructor.
    - repeat constructor; vm_compute; discriminate. }
  split; [exact Hd |]. split; [reflexivity |]. split; [reflexivity |].
  destruct (noop_fix_hides_reset d 0 e Hd eq_refl eq_refl)
    as (s & vals & Hstep & _ & Hhas & Hs & Hlen).
  exists s. split; [done |]. split; [done |].
  destruct vals; [done | discriminate].
Defined.

End NoOpFix.

(** ** File names and letter case *)

Section UploadCase.
Import FileUpload.

Lemma lower_unit_dot (c : ascii) :
  Ascii.eqb (lower_unit c) "." = Ascii.eqb c ".".
Proof.
  destruct c as [[] [] [] [] [] [] [] []]; reflexivity.
Qed.

Lemma split_lower (n : jsstring) :
  split "." (toLowerCase n) = map toLowerCase (split "." n).
Proof.
  induction n as [| c n IH]; [done |].
  cbn [toLowerCase map split]. fold (toLowerCase n).
  rewrite lower_unit_dot, IH.
  destruct (Ascii.eqb c "."); [done |].
  by destruct (split "." n).
Qed.

Lemma pop_map {A B} (f : A → B) (l : list A) : pop (map f l) = f <$> pop l.
Proof.
  unfold pop. induction l as [| x [| y l] IH]; [done | done |].
  exact IH.
Qed.

(** The extension that [validateFile] looks at is that of the lower-cased
    name. *)
Lemma extension_lower (f : File) :
  extension f
  = lit "." ++ default (lit "undefined")
                       (pop (split "." (toLowerCase (name f)))).
Proof.
  unfold extension. rewrite split_lower, pop_map.
  by destruct (pop (split "." (name f))).
Qed.

(** X16: [validateFile] does not look at the case of the letters of the
    file name: two files whose names differ in case only and whose sizes
    are the same get the same verdict. *)
Theorem validateFile_ignores_case
    (f g : File)
    (Hname : toLowerCase (name f) = toLowerCase (name g))
    (Hsize : size f = size g) :
  validateFile f = validateFile g.
Proof.
  unfold validateFile, fileSizeMB.
  by rewrite !extension_lower, Hname, Hsize.
Qed.

Lemma validateFile_ignores_case_witness :
  let f := {| name := lit "Essay.TXT"; size := 2048 |} in
  let g := {| name := lit "essay.txt"; size := 2048 |} in
  toLowerCase (name f) = toLowerCase (name g)
  ∧ size f = size g
  ∧ validateFile f = None.
Proof.
  intros f g. split; [reflexivity |]. split; [reflexivity |].
  rewrite (validateFile_ignores_case f g eq_refl eq_refl). reflexivity.
Defined.

End UploadCase.

(** ** The error counts of the sentences *)

Section SentenceCounts.
Import ResultPage SentenceNavigator ResultNavigator.

Lemma alloc_errors_array (vs : list GrammarError) (h : Store) :
  store_extends h (alloc_errors vs h).2
  ∧ ∃ a, arrs (alloc_errors vs h).2 !! (alloc_errors vs h).1 = Some a
         ∧ length a = length vs.
Proof.
  unfold alloc_errors, alloc_arr. cbn [fst snd arrs objs]. split.
  - split; cbn; by apply prefix_app_r.
  - eexists. split; [by apply list_lookup_middle | apply length_seq].
Qed.

Lemma parse_sentences_arrays (ds : list SentenceData) (h : Store) :
  store_extends h (parse_sentences ds h).2
  ∧ Forall2 (λ d sa, ∃ a, arrs (parse_sentences ds h).2 !! sa_errors sa = Some a
                          ∧ length a = length (sd_errors d))
            ds (parse_sentences ds h).1.
Proof.
  revert h. induction ds as [| d ds IH]; intros h.
  - split; [apply store_extends_refl | constructor].
  - cbn [parse_sentences].
    destruct (alloc_errors_array (sd_errors d) h) as (He1 & a & Ha & Hlen).
    destruct (alloc_errors (sd_errors d) h) as [r h1]. cbn [fst snd] in *.
    destruct (IH h1) as [He2 Hall].
    destruct (parse_sentences ds h1) as [ss h2]. cbn [fst snd] in *.
    split; [by eapply store_extends_trans |].
    constructor; [| done]. exists a. cbn [sa_errors].
    split; [by eapply store_extends_arr | done].
Qed.

Lemma mount_sentences (d : ResultData) (s : State) :
  ∃ r, result (mount d s) = Some r
       ∧ Forall2 (λ sd sa, ∃ a, arrs (heap (mount d s)) !! sa_errors sa = Some a
                                ∧ length a = length (sd_errors sd))
                 (rd_sentences d) (sentences r).
Proof.
  unfold mount, JSON_parse.
  destruct (alloc_errors (rd_errors d) (heap s)) as [a h1].
  pose proof (parse_sentences_arrays (rd_sentences d) h1) as [_ Hall].
  destruct (parse_sentences (rd_sentences d) h1) as [ss h2].
  cbn [fst snd] in *. eexists. split; [reflexivity | done].
Qed.

(** X17: no handler of the result page touches [result.sentences]: after
    any sequence of fixes, "Apply All Fixes" and "Reset", the number of
    errors that the navigator prints for a sentence is the number that was
    stored for it, also when every error has been fixed. *)
Theorem sentence_error_counts_never_change
    (d : ResultData) (evs : list Event) (i : nat) :
  ∃ s,
    run evs (mount d initial) = Some s
    ∧ errorCount s (Z.of_nat i)
      = (λ sd, length (sd_errors sd)) <$> rd_sentences d !! i.
Proof.
  destruct (mount_ok d initial state_ok_initial) as [Hok _].
  destruct (mount_sentences d initial) as (r & Hr & Hall).
  destruct (run_spec evs _ Hok) as (s & Hrun & _ & Hr' & Hext).
  exists s. split; [done |]. unfold errorCount, currentSentence.
  rewrite Hr', Hr. cbn [mbind option_bind].
  destruct (Z.ltb_spec (Z.of_nat i) 0) as [| _]; [lia |].
  rewrite Nat2Z.id.
  destruct (rd_sentences d !! i) as [sd |] eqn:Hsd.
  - destruct (Forall2_lookup_l _ _ _ _ _ Hall Hsd) as (sa & -> & a & Ha & Hlen).
    cbn [mbind option_bind fmap option_fmap option_map].
    rewrite (store_extends_arr _ _ _ _ Hext Ha). cbn [mbind option_bind].
    by rewrite Hlen.
  - apply lookup_ge_None in Hsd. rewrite (Forall2_length _ _ _ Hall) in Hsd.
    apply lookup_ge_None in Hsd. by rewrite Hsd.
Qed.

End SentenceCounts.

(** ** The tooltip of the highlighted text *)

Section Tooltip.
Import ResultPage HighlightedText Fixes ResultUI.

Lemma segments_errors (text : jsstring) (errors : aref) (h : Store)
    (es : list loc) (vals : list GrammarError) :
  arrs h !! errors = Some es →
  mapM (λ l, objs h !! l) es = Some vals →
  ∃ segs h',
    segments text errors h = Some (segs, h') ∧ omap seg_error segs ≡ₚ es.
Proof.
  intros Hes Hvals.
  rewrite (segments_unfold text errors h es vals Hes Hvals).
  destruct (read_pairs h es vals Hvals) as [_ Hlen].
  destruct es as [| l0 es']; [by eexists _, _ |].
  cbn [length Nat.eqb]. eexists _, _. split; [reflexivity |].
  rewrite build_walk. cbn zeta.
  assert (Hw : omap seg_error
                 (walk text 0 (sort by_start (zip (l0 :: es') vals))).1
               ≡ₚ l0 :: es').
  { rewrite walk_errors.
    change (map fst ?l) with (l.*1). rewrite sort_perm, fst_zip; [done | lia]. }
  destruct (_ <? _)%Z; [| done].
  rewrite omap_app, Hw. cbn. by rewrite app_nil_r.
Qed.

Lemma run_app (evs1 evs2 : list Event) (s : State) :
  run (evs1 ++ evs2) s = s' ← run evs1 s; run evs2 s'.
Proof.
  revert s. induction evs1 as [| ev evs1 IH]; intros s; [done |].
  cbn [app run]. destruct (step ev s) as [s1 |]; [| done].
  cbn [mbind option_bind]. apply IH.
Qed.

(** A page whose errors fit its text renders segments with pairwise
    different keys, one for each displayed error among them. *)
Lemma screen_fits (p : State) :
  fits p →
  ∃ segs es,
    screen p = Some segs
    ∧ arrs (heap p) !! displayErrors p = Some es
    ∧ omap seg_error segs ≡ₚ es.
Proof.
  intros (vals & Hshown & Hfit). unfold shown in Hshown.
  destruct (arrs (heap p) !! displayErrors p) as [es |] eqn:Hes; [| done].
  cbn [mbind option_bind] in Hshown.
  destruct (segments_of_fit _ _ _ es vals Hes Hshown Hfit)
    as (segs & h' & Hsegs & _ & _ & _ & Hkeys).
  destruct (segments_errors (displayText p) _ _ es vals Hes Hshown)
    as (segs' & h'' & Hsegs' & Hperm).
  rewrite Hsegs in Hsegs'. injection Hsegs' as <- <-.
  exists segs, es. split; [| done]. unfold screen. rewrite Hsegs.
  cbn [mbind option_bind]. by rewrite bool_decide_eq_true_2.
Qed.

(** A gesture is an event of the page, or none, and leaves the tooltip
    closed or open on a displayed error. *)
Lemma gesture_event (g : Gesture) (u : UI) :
  state_ok (page u) → fits (page u) → result_fits (page u) → tooltip_ok u →
  ∃ u' evs,
    gesture g u = Some u'
    ∧ run evs (page u) = Some (page u')
    ∧ length evs ≤ 1
    ∧ state_ok (page u') ∧ fits (page u') ∧ result_fits (page u')
    ∧ tooltip_ok u'.
Proof.
  intros Hok Hfit Hres Htip.
  destruct (screen_fits (page u) Hfit) as (segs & es & Hscreen & Hes & Hperm).
  unfold gesture. rewrite Hscreen. cbn [mbind option_bind].
  destruct g as [k | | | | |].
  - eexists _, []. split; [reflexivity |]. split; [done |].
    split; [cbn; lia |]. do 3 (split; [done |]).
    intros l Hl. cbn [activeError page] in *. exists es. split; [done |].
    destruct (segs !! k) as [sg |] eqn:Hk; [| done].
    cbn [mbind option_bind] in Hl. rewrite <- Hperm.
    apply list_elem_of_omap. exists sg. split; [| done].
    by eapply list_elem_of_lookup_2.
  - destruct (activeError u) as [l |] eqn:Hact.
    + destruct (Htip l Hact) as (es' & Hes' & Hin).
      rewrite Hes in Hes'. injection Hes' as <-.
      apply list_elem_of_lookup in Hin as [i Hi].
      destruct (step_fits (ApplyFix i) (page u) Hok Hfit Hres)
        as (s' & Hstep & Hok' & Hfit' & Hres').
      assert (Hfix : handleApplyFix l (page u) = Some s').
      { cbn [step] in Hstep. rewrite Hes in Hstep.
        cbn [mbind option_bind] in Hstep. by rewrite Hi in Hstep. }
      rewrite Hfix. cbn [mbind option_bind].
      eexists _, [ApplyFix i]. split; [reflexivity |].
      cbn [run page]. rewrite Hstep. split; [done |]. split; [cbn; lia |].
      do 3 (split; [done |]). by intros l' [=].
    + exists u, []. split; [done |]. split; [done |]. split; [cbn; lia |].
      do 3 (split; [done |]). by intros l; rewrite Hact.
  - eexists _, []. split; [reflexivity |]. split; [done |].
    split; [cbn; lia |]. do 3 (split; [done |]). by intros l [=].
  - eexists _, []. split; [reflexivity |]. split; [done |].
    split; [cbn; lia |]. do 3 (split; [done |]). by intros l [=].
  - rewrite Hes. cbn [mbind option_bind]. destruct (0 <? length es).
    + destruct (step_fits ApplyAllFixes (page u) Hok Hfit Hres)
        as (s' & Hstep & Hok' & Hfit' & Hres').
      cbn [step] in Hstep. injection Hstep as <-.
      eexists _, [ApplyAllFixes]. split; [reflexivity |].
      split; [done |]. split; [cbn; lia |].
      do 3 (split; [done |]). by intros l [=].
    + eexists _, []. split; [reflexivity |]. split; [done |].
      split; [cbn; lia |]. do 3 (split; [done |]). by intros l [=].
  - destruct (default false (hasAppliedFixes (page u))).
    + destruct (step_fits Reset (page u) Hok Hfit Hres)
        as (s' & Hstep & Hok' & Hfit' & Hres').
      cbn [step] in Hstep. injection Hstep as <-.
      eexists _, [Reset]. split; [reflexivity |]. split; [done |].
      split; [cbn; lia |]. do 3 (split; [done |]). by intros l [=].
    + eexists _, []. split; [reflexivity |]. split; [done |].
      split; [cbn; lia |]. do 3 (split; [done |]). by intros l [=].
Qed.

Lemma gestures_events (gs : list Gesture) (u : UI) :
  state_ok (page u) → fits (page u) → result_fits (page u) → tooltip_ok u →
  ∃ u' evs,
    gestures gs u = Some u'
    ∧ run evs (page u) = Some (page u')
    ∧ length evs ≤ length gs
    ∧ tooltip_ok u'.
Proof.
  revert u. induction gs as [| g gs IH]; intros u Hok Hfit Hres Htip.
  - exists u, []. split; [done |]. split; [done |]. split; [done |]. done.
  - destruct (gesture_event g u Hok Hfit Hres Htip)
      as (u1 & evs1 & Hg & Hrun1 & Hlen1 & Hok1 & Hfit1 & Hres1 & Htip1).
    destruct (IH u1 Hok1 Hfit1 Hres1 Htip1)
      as (u' & evs2 & Hgs & Hrun2 & Hlen2 & H').
    exists u', (evs1 ++ evs2). cbn [gestures]. rewrite Hg.
    cbn [mbind option_bind]. split; [done |]. rewrite run_app, Hrun1.
    cbn [mbind option_bind]. split; [done |].
    split; [rewrite length_app; cbn [length]; lia | done].
Qed.

(** With two segments of the same key the page is outside the model of the
    screen: here the span of a replacement of ["de"] and the tail that the
    loop pushes after an insertion at its start both have the key
    ["3-5"]. *)
Example colliding_keys_off_screen :
  screen {| result := None; displayText := lit "abcde"; displayErrors := 0;
            heap := insertion_after_replacement |} = None.
Proof. by vm_compute. Qed.

(** X18: on a page that loaded a result whose errors fit its original
    text, driven by the mouse and the Escape key, every render has
    segments with pairwise different keys, so that what is on screen is
    the segments, and every sequence of gestures is handled; the tooltip,
    whenever it is open, is open on an error that is displayed, so that
    "Apply Fix" only ever fixes a displayed error; and the state of the
    page is one that a sequence of the page's events (single fixes, "Apply
    All Fixes", "Reset") reaches, with at most one event for each
    gesture. *)
Theorem tooltip_on_displayed_error
    (d : ResultData) (gs : list Gesture) (Hd : well_formed d) :
  ∃ u evs,
    gestures gs (loaded d) = Some u
    ∧ run evs (mount d initial) = Some (page u)
    ∧ length evs ≤ length gs
    ∧ tooltip_ok u.
Proof.
  destruct (mount_fits d Hd) as (Hok & Hfit & Hres).
  apply (gestures_events gs (loaded d)); [done | done | done |].
  by intros l [=].
Qed.

Lemma tooltip_on_displayed_error_witness :
  well_formed stored_two_typos
  ∧ ∃ u,
      gestures [ClickSegment 2; ClickTooltipApply; ClickSegment 0;
                PressEscape; ClickReset] (loaded stored_two_typos) = Some u
      ∧ activeError u = None
      ∧ displayText (page u) = lit "Ths is a tst.".
Proof.
  split; [apply stored_two_typos_well_formed |].
  destruct (tooltip_on_displayed_error stored_two_typos
              [ClickSegment 2; ClickTooltipApply; ClickSegment 0;
               PressEscape; ClickReset])
    as (u & evs & Hrun & _).
  { split; [| split].
    - vm_compute. repeat split; discriminate.
    - repeat constructor.
    - repeat constructor; vm_compute; discriminate. }
  exists u. split; [done |].
  vm_compute in Hrun. injection Hrun as <-. by split.
Defined.

End Tooltip.
